(** * FindShop-vue: the reconnecting WebSocket manager and the streaming
      media feeder

    A shallow embedding of [src/utils/websocket.js] (the [WebSocketManager]
    class with its configuration), of the HTTP helper (the request
    functions, [postStream], [postStreamRealtime]) and of the functions
    that call it: the question-and-answer requests and the text-to-speech
    functions.

    JavaScript objects with identity are modelled by a store and references
    into it: every [WebSocket] the manager constructs is an entry of
    [sockets], and [this.ws] is an index into that list; timers created by
    [setTimeout] / [setInterval] live in a finite map from timer ids.
    Whatever the browser decides (network events, timer firings, whether a
    constructor throws, the clock) arrives as an [Event]. *)

From Stdlib Require Import ZArith Floats.PrimFloat.
From stdpp Require Import gmap strings list fin_maps.

Local Open Scope string_scope.
Local Open Scope Z_scope.
Local Open Scope nat_scope.
Local Open Scope list_scope.

(** ** Event dispatcher: [on], [off], [emit] *)

(** A subscriber is a JavaScript function; only its identity matters to
    [indexOf], so a callback is the number of the function object. *)
Abbreviation Callback := nat (only parsing).

(** What [emit] hands to a subscriber as [data]. *)
Inductive Arg :=
| Undefined
| ErrorArg (what : string).

(** Observable effects of the manager, in the order they happen. *)
Inductive Output :=
| Invoke (callback : Callback) (event : string) (data : Arg)
| Transmit (socket : nat) (type : string) (timestamp : Z)
| TransmitText (socket : nat) (text : string)
| Warn (text : string)
| Resolved (socket : option nat)
| Rejected (socket : option nat).

Module Dispatcher.

(** [callbacks.indexOf(callback)]: position of the first element that is
    the same function, [-1] when there is none. *)
Fixpoint indexOf_from (i : Z) (l : list Callback) (callback : Callback) : Z :=
  match l with
  | [] => (-1)%Z
  | c :: l' => if decide (c = callback) then i
               else indexOf_from (i + 1)%Z l' callback
  end.

Definition indexOf (l : list Callback) (callback : Callback) : Z :=
  indexOf_from 0%Z l callback.

(** [callbacks.splice(index, 1)] for an index that [indexOf] returned. *)
Definition splice1 (index : Z) (l : list Callback) : list Callback :=
  take (Z.to_nat index) l ++ drop (S (Z.to_nat index)) l.

Definition on (event : string) (callback : Callback)
    (callbacks : gmap string (list Callback)) : gmap string (list Callback) :=
  let callbacks :=
    match callbacks !! event with
    | None => <[event := []]> callbacks
    | Some _ => callbacks
    end in
  alter (fun l => l ++ [callback]) event callbacks.

Definition off (event : string) (callback : Callback)
    (callbacks : gmap string (list Callback)) : gmap string (list Callback) :=
  match callbacks !! event with
  | Some l =>
      let index := indexOf l callback in
      if (index >? -1)%Z then <[event := splice1 index l]> callbacks
      else callbacks
  | None => callbacks
  end.

(** [emit] calls every subscriber of the tag in list order; an exception
    of a subscriber is caught and logged, so each call is independent of
    the others.  Subscribers are opaque: a call is recorded, its own
    effects are not part of the model. *)
Definition emit (event : string) (data : Arg)
    (callbacks : gmap string (list Callback)) : list Output :=
  match callbacks !! event with
  | Some l => map (fun callback => Invoke callback event data) l
  | None => []
  end.

(** The subscriber list of a tag as [emit] sees it: an unknown tag has no
    subscribers. *)
Definition subscribers (event : string)
    (callbacks : gmap string (list Callback)) : list Callback :=
  default [] (callbacks !! event).

End Dispatcher.

(** ** Configuration ([config/websocket]) *)

Record WsEnv := { WS_BASE_URL : string; WS_PATH : string }.

Definition ENV_development : WsEnv :=
  {| WS_BASE_URL := "ws://localhost:8000"; WS_PATH := "/ws" |}.
Definition ENV_production : WsEnv :=
  {| WS_BASE_URL := "wss://www.ryougi.top"; WS_PATH := "/ws" |}.
Definition ENV_test : WsEnv :=
  {| WS_BASE_URL := "ws://test-api.example.com"; WS_PATH := "/ws" |}.

(** [ENV[currentEnv] || ENV.development], with [mode] the build mode
    ([import.meta.env.MODE || 'development']). *)
Definition WS_CONFIG (mode : string) : WsEnv :=
  if decide (mode = "production") then ENV_production
  else if decide (mode = "test") then ENV_test
  else ENV_development.

Record WsOptions := {
  autoReconnect : bool;
  reconnectInterval : Z;
  reconnectAttempts : nat;
  heartbeat : bool;
  heartbeatInterval : Z;
  heartbeatTimeout : Z
}.

Definition WS_OPTIONS : WsOptions := {|
  autoReconnect := true;
  reconnectInterval := 3000;
  reconnectAttempts := 5;
  heartbeat := true;
  heartbeatInterval := 30000;
  heartbeatTimeout := 5000
|}.

Definition PING : string := "ping".

(** ** The connection manager *)

Module WS.

Inductive ReadyState := CONNECTING | OPEN | CLOSING | CLOSED.

#[global] Instance ReadyState_eq_dec : EqDecision ReadyState.
Proof. solve_decision. Defined.

(** One constructed [WebSocket]: the address it was given and its
    [readyState].  The four handlers that [connect] installs on it all
    close over the manager, so they need no field of their own. *)
Record Socket := { sock_url : string; readyState : ReadyState }.

Inductive TimerTask :=
| ReconnectTask   (* () => this.connect() *)
| HeartbeatTask.  (* the ping of startHeartbeat *)

#[global] Instance TimerTask_eq_dec : EqDecision TimerTask.
Proof. solve_decision. Defined.

(** A pending [setTimeout] ([repeating = false]) or [setInterval]. *)
Record Timer := { task : TimerTask; delay : Z; repeating : bool }.

(** The fields of [WebSocketManager].  [None] is [null]; timer handles are
    the positive numbers the browser returns, so a handle is truthy
    exactly when it is [Some]. *)
Record Manager := {
  ws : option nat;
  url : string;
  reconnectTimer : option nat;
  heartbeatTimer : option nat;
  reconnectCount : nat;
  callbacks : gmap string (list Callback);
  isManualClose : bool
}.

(** The manager together with the part of the browser it talks to. *)
Record World := {
  this : Manager;
  sockets : list Socket;
  timers : gmap nat Timer;
  next_timer : nat;
  out : list Output;
  mode : string
}.

Definition constructor : Manager := {|
  ws := None; url := ""; reconnectTimer := None; heartbeatTimer := None;
  reconnectCount := 0; callbacks := ∅; isManualClose := false
|}.

Definition init (mode : string) : World := {|
  this := constructor; sockets := []; timers := ∅; next_timer := 1;
  out := []; mode := mode
|}.

(** *** Field updates *)

Definition set_this (m : Manager) (w : World) : World :=
  {| this := m; sockets := sockets w; timers := timers w;
     next_timer := next_timer w; out := out w; mode := mode w |}.

Definition set_sockets (s : list Socket) (w : World) : World :=
  {| this := this w; sockets := s; timers := timers w;
     next_timer := next_timer w; out := out w; mode := mode w |}.

Definition set_timers (t : gmap nat Timer) (w : World) : World :=
  {| this := this w; sockets := sockets w; timers := t;
     next_timer := next_timer w; out := out w; mode := mode w |}.

Definition output (o : list Output) (w : World) : World :=
  {| this := this w; sockets := sockets w; timers := timers w;
     next_timer := next_timer w; out := out w ++ o; mode := mode w |}.

Definition set_ws (x : option nat) (m : Manager) : Manager :=
  {| ws := x; url := url m; reconnectTimer := reconnectTimer m;
     heartbeatTimer := heartbeatTimer m; reconnectCount := reconnectCount m;
     callbacks := callbacks m; isManualClose := isManualClose m |}.

Definition set_url (x : string) (m : Manager) : Manager :=
  {| ws := ws m; url := x; reconnectTimer := reconnectTimer m;
     heartbeatTimer := heartbeatTimer m; reconnectCount := reconnectCount m;
     callbacks := callbacks m; isManualClose := isManualClose m |}.

Definition set_reconnectTimer (x : option nat) (m : Manager) : Manager :=
  {| ws := ws m; url := url m; reconnectTimer := x;
     heartbeatTimer := heartbeatTimer m; reconnectCount := reconnectCount m;
     callbacks := callbacks m; isManualClose := isManualClose m |}.

Definition set_heartbeatTimer (x : option nat) (m : Manager) : Manager :=
  {| ws := ws m; url := url m; reconnectTimer := reconnectTimer m;
     heartbeatTimer := x; reconnectCount := reconnectCount m;
     callbacks := callbacks m; isManualClose := isManualClose m |}.

Definition set_reconnectCount (x : nat) (m : Manager) : Manager :=
  {| ws := ws m; url := url m; reconnectTimer := reconnectTimer m;
     heartbeatTimer := heartbeatTimer m; reconnectCount := x;
     callbacks := callbacks m; isManualClose := isManualClose m |}.

Definition set_callbacks (x : gmap string (list Callback)) (m : Manager)
    : Manager :=
  {| ws := ws m; url := url m; reconnectTimer := reconnectTimer m;
     heartbeatTimer := heartbeatTimer m; reconnectCount := reconnectCount m;
     callbacks := x; isManualClose := isManualClose m |}.

Definition set_isManualClose (x : bool) (m : Manager) : Manager :=
  {| ws := ws m; url := url m; reconnectTimer := reconnectTimer m;
     heartbeatTimer := heartbeatTimer m; reconnectCount := reconnectCount m;
     callbacks := callbacks m; isManualClose := x |}.

Definition update (f : Manager -> Manager) (w : World) : World :=
  set_this (f (this w)) w.

(** *** Browser primitives *)

(** [readyState] of socket [i]. *)
Definition socket_state (w : World) (i : nat) : option ReadyState :=
  readyState <$> sockets w !! i.

(** [this.ws.readyState], when [this.ws] is not null. *)
Definition ws_readyState (w : World) : option ReadyState :=
  i ← ws (this w); socket_state w i.

(** [this.ws && this.ws.readyState === WebSocket.OPEN] *)
Definition isConnected (w : World) : bool :=
  bool_decide (ws_readyState w = Some OPEN).

Definition getStatus (w : World) : string :=
  match ws_readyState w with
  | None => "CLOSED"
  | Some CONNECTING => "CONNECTING"
  | Some OPEN => "OPEN"
  | Some CLOSING => "CLOSING"
  | Some CLOSED => "CLOSED"
  end.

Definition set_readyState (i : nat) (r : ReadyState) (w : World) : World :=
  set_sockets (alter (fun s => {| sock_url := sock_url s; readyState := r |})
                     i (sockets w)) w.

(** [setTimeout] / [setInterval]: registers the timer under a fresh handle
    and returns the handle. *)
Definition set_timer (t : Timer) (w : World) : nat * World :=
  let id := next_timer w in
  (id, {| this := this w; sockets := sockets w;
          timers := <[id := t]> (timers w);
          next_timer := S id; out := out w; mode := mode w |}).

(** [clearTimeout] / [clearInterval] *)
Definition clear_timer (id : nat) (w : World) : World :=
  set_timers (delete id (timers w)) w.

(** [socket.close()]: starts the closing handshake unless the socket is
    already closing or closed. *)
Definition socket_close (i : nat) (w : World) : World :=
  match socket_state w i with
  | Some CONNECTING | Some OPEN => set_readyState i CLOSING w
  | _ => w
  end.

(** *** Methods *)

Definition emit (event : string) (data : Arg) (w : World) : World :=
  output (Dispatcher.emit event data (callbacks (this w))) w.

Definition on (event : string) (callback : Callback) (w : World) : World :=
  update (fun m => set_callbacks (Dispatcher.on event callback (callbacks m)) m) w.

Definition off (event : string) (callback : Callback) (w : World) : World :=
  update (fun m => set_callbacks (Dispatcher.off event callback (callbacks m)) m) w.

(** What the caller passes to [send]: a string, sent as it is; the
    envelope object [{ type, timestamp }], sent as JSON; or any other
    value, with what [JSON.stringify] makes of it ([None]: it throws, as
    it does on a circular structure or a [BigInt]). *)
Inductive Message :=
| Text (s : string)
| Envelope (type : string) (timestamp : Z)
| Object (json : option string).

(** The body of the [try] in [send]: the frame that is handed to
    [ws.send], or [None] when [JSON.stringify] throws.  [ws.send] itself
    does not throw on a socket that is open. *)
Definition frame_of (i : nat) (message : Message) : option Output :=
  match message with
  | Text s => Some (TransmitText i s)
  | Envelope type timestamp => Some (Transmit i type timestamp)
  | Object json => TransmitText i <$> json
  end.

(** [send]: [None] is a thrown error, the "not connected" one of the
    guard or the one the [catch] logs and throws on. *)
Definition send (message : Message) (w : World) : option World :=
  match ws (this w) with
  | Some i =>
      if isConnected w then
        match frame_of i message with
        | Some frame => Some (output [frame] w)
        | None => None
        end
      else None
  | None => None
  end.

(** The body of the interval callback of [startHeartbeat], run at clock
    reading [now]. *)
Definition heartbeat_tick (now : Z) (w : World) : World :=
  if isConnected w then
    match send (Envelope PING now) w with
    | Some w' => w'
    | None => w
    end
  else w.

(** The interval of [startHeartbeat] and the timeout of
    [attemptReconnect]. *)
Definition beat : Timer :=
  {| task := HeartbeatTask; delay := heartbeatInterval WS_OPTIONS;
     repeating := true |}.

Definition retry : Timer :=
  {| task := ReconnectTask; delay := reconnectInterval WS_OPTIONS;
     repeating := false |}.

Definition startHeartbeat (w : World) : World :=
  if heartbeat WS_OPTIONS then
    let '(id, w) := set_timer beat w in
    update (set_heartbeatTimer (Some id)) w
  else w.

Definition stopHeartbeat (w : World) : World :=
  match heartbeatTimer (this w) with
  | Some id => update (set_heartbeatTimer None) (clear_timer id w)
  | None => w
  end.

Definition attemptReconnect (w : World) : World :=
  if bool_decide (reconnectAttempts WS_OPTIONS <= reconnectCount (this w)) then
    emit "reconnectFailed" Undefined w
  else
    let w := update (fun m => set_reconnectCount (S (reconnectCount m)) m) w in
    let '(id, w) := set_timer retry w in
    update (set_reconnectTimer (Some id)) w.

(** [connect(path)].  [constructs] tells whether [new WebSocket(url)]
    returns (it throws on an address it cannot parse). *)
Definition connect (path : string) (constructs : bool) (w : World) : World :=
  if isConnected w then
    output [Warn "WebSocket 已连接"; Resolved None] w
  else
    let w := update (set_url (WS_BASE_URL (WS_CONFIG (mode w)) +:+ path)) w in
    let w := update (set_isManualClose false) w in
    if constructs then
      let i := length (sockets w) in
      let w := set_sockets (sockets w ++
                 [{| sock_url := url (this w); readyState := CONNECTING |}]) w in
      update (set_ws (Some i)) w
    else
      output [Rejected None] w.

(** The handlers [connect] installs on socket [i]. *)
Definition onopen (i : nat) (w : World) : World :=
  let w := update (set_reconnectCount 0) w in
  let w := startHeartbeat w in
  let w := emit "open" Undefined w in
  output [Resolved (Some i)] w.

Definition onerror (i : nat) (w : World) : World :=
  let w := emit "error" (ErrorArg "error") w in
  output [Rejected (Some i)] w.

Definition onclose (i : nat) (w : World) : World :=
  let w := stopHeartbeat w in
  let w := emit "close" Undefined w in
  if negb (isManualClose (this w)) && autoReconnect WS_OPTIONS then
    attemptReconnect w
  else w.

Definition close (w : World) : World :=
  let w := update (set_isManualClose true) w in
  let w := stopHeartbeat w in
  let w := match reconnectTimer (this w) with
           | Some id => clear_timer id w
           | None => w
           end in
  match ws (this w) with
  | Some i => update (set_ws None) (socket_close i w)
  | None => w
  end.

(** *** Events *)

Inductive Event :=
| CallConnect (path : option string) (constructs : bool)
| CallClose
| CallSend (message : Message)
| CallOn (event : string) (callback : Callback)
| CallOff (event : string) (callback : Callback)
| SockOpen (i : nat)
| SockClosing (i : nat)
| SockError (i : nat)
| SockClose (i : nat)
| Fire (id : nat) (now : Z) (constructs : bool).

(** A timer that comes due: a timeout is consumed, an interval stays. *)
Definition fire (id : nat) (now : Z) (constructs : bool) (w : World) : World :=
  match timers w !! id with
  | Some t =>
      let w := if repeating t then w else clear_timer id w in
      match task t with
      | ReconnectTask => connect (WS_PATH (WS_CONFIG (mode w))) constructs w
      | HeartbeatTask => heartbeat_tick now w
      end
  | None => w
  end.

(** One event.  The browser delivers [open] only to a connecting socket
    and [close] only to a socket that is not closed yet, changing
    [readyState] as it does.  [SockClosing] is the closing handshake that
    the server starts on an open socket: [readyState] becomes [CLOSING]
    and no handler runs until the [close] event.  An event that cannot
    occur leaves the world as it is. *)
Definition step (w : World) (e : Event) : World :=
  match e with
  | CallConnect path constructs =>
      connect (default (WS_PATH (WS_CONFIG (mode w))) path) constructs w
  | CallClose => close w
  | CallSend message => default w (send message w)
  | CallOn event callback => on event callback w
  | CallOff event callback => off event callback w
  | SockOpen i =>
      match socket_state w i with
      | Some CONNECTING => onopen i (set_readyState i OPEN w)
      | _ => w
      end
  | SockClosing i =>
      match socket_state w i with
      | Some OPEN => set_readyState i CLOSING w
      | _ => w
      end
  | SockError i =>
      match socket_state w i with
      | Some CONNECTING | Some OPEN | Some CLOSING => onerror i w
      | _ => w
      end
  | SockClose i =>
      match socket_state w i with
      | Some CONNECTING | Some OPEN | Some CLOSING =>
          onclose i (set_readyState i CLOSED w)
      | _ => w
      end
  | Fire id now constructs => fire id now constructs w
  end.

Definition run (w : World) (es : list Event) : World := foldl step w es.

(** Sockets that are not closed: connecting, open or closing. *)
Definition live (w : World) : list Socket :=
  filter (fun s => readyState s ≠ CLOSED) (sockets w).

(** *** Reading a world *)

(** Some heartbeat interval is scheduled. *)
Definition heartbeat_active (w : World) : bool :=
  existsb (fun '(_, t) => bool_decide (task t = HeartbeatTask))
          (map_to_list (timers w)).

(** The reconnect attempts that are scheduled and have not run yet. *)
Definition reconnects (w : World) : gmap nat Timer :=
  filter (fun '(_, t) => task t = ReconnectTask) (timers w).

(** Timer handles are handed out in increasing order. *)
Definition timers_fresh (w : World) : Prop :=
  forall id, next_timer w <= id -> timers w !! id = None.

(** What holds of every world a run reaches: handles are fresh, and the
    heartbeat handle is an old one that names no timer but the heartbeat
    interval. *)
Record sound (w : World) : Prop := {
  sound_fresh : timers_fresh w;
  sound_beat : forall h t,
    heartbeatTimer (this w) = Some h -> timers w !! h = Some t ->
    task t = HeartbeatTask;
  sound_old : forall h, heartbeatTimer (this w) = Some h -> h < next_timer w
}.

(** The cap is reached, no attempt is pending and no socket is
    connecting. *)
Record exhausted (w : World) : Prop := {
  at_cap : reconnectAttempts WS_OPTIONS <= reconnectCount (this w);
  none_pending : reconnects w = ∅;
  none_connecting : forall i, socket_state w i ≠ Some CONNECTING
}.

(** The event makes [connect] construct a socket. *)
Definition constructs_socket (w : World) (e : Event) : bool :=
  match e with
  | CallConnect _ constructs => constructs && negb (isConnected w)
  | Fire id _ constructs =>
      constructs && negb (isConnected w)
      && bool_decide (task <$> timers w !! id = Some ReconnectTask)
  | _ => false
  end.

(** ... while an earlier socket is still connecting, open or closing. *)
Definition supersedes (w : World) (e : Event) : bool :=
  constructs_socket w e && negb (bool_decide (live w = [])).

(** A run in which no socket is constructed while another one is live. *)
Fixpoint orderly (w : World) (es : list Event) : bool :=
  match es with
  | [] => true
  | e :: es' => negb (supersedes w e) && orderly (step w e) es'
  end.

(** What an orderly run keeps true, in terms of the current socket
    [cur], the heartbeat handle [hb], the sockets, the timers and the next
    timer handle: a socket that is connecting or open is the current one,
    at most one socket is live, timer handles are fresh, the only
    heartbeat interval is the one the handle names, and the handle is set
    exactly while the current socket is open or closing. *)
Record coherent_view (cur hb : option nat) (socks : list Socket)
    (tm : gmap nat Timer) (nt : nat) : Prop := {
  current_live : forall i,
    readyState <$> socks !! i = Some CONNECTING
    \/ readyState <$> socks !! i = Some OPEN ->
    cur = Some i;
  one_live : forall i j ri rj,
    readyState <$> socks !! i = Some ri ->
    readyState <$> socks !! j = Some rj ->
    ri ≠ CLOSED -> rj ≠ CLOSED -> i = j;
  fresh : forall id, nt <= id -> tm !! id = None;
  beat_handle : forall id t,
    tm !! id = Some t -> task t = HeartbeatTask ->
    hb = Some id /\ repeating t = true;
  handle_beat : forall id,
    hb = Some id -> exists t, tm !! id = Some t /\ task t = HeartbeatTask;
  beat_open :
    is_Some hb
    <-> exists i, cur = Some i
                  /\ (readyState <$> socks !! i = Some OPEN
                      \/ readyState <$> socks !! i = Some CLOSING)
}.

Definition coherent (w : World) : Prop :=
  coherent_view (ws (this w)) (heartbeatTimer (this w)) (sockets w)
                (timers w) (next_timer w).

Definition is_CallConnect (e : Event) : bool :=
  match e with CallConnect _ _ => true | _ => false end.

(** The event is a call of [connect()] that constructs a socket while an
    earlier socket is still live or a reconnect attempt is pending.
    [connect] clears no timer and closes no socket, so such a call leaves
    two tracks behind: the socket it constructs, and the earlier socket
    or attempt. *)
Definition doubles (w : World) (e : Event) : bool :=
  match e with
  | CallConnect _ constructs =>
      constructs && negb (isConnected w)
      && negb (bool_decide (live w = [])
               && bool_decide (map_to_list (reconnects w) = []))
  | _ => false
  end.

(** A run in which [connect()] is called only while nothing is live and
    nothing is pending (or while the connection is open, where it does
    nothing). *)
Fixpoint single_track (w : World) (es : list Event) : bool :=
  match es with
  | [] => true
  | e :: es' => negb (doubles w e) && single_track (step w e) es'
  end.

(** What a single-track run keeps true of the sockets and the timers: at
    most one socket is live, at most one reconnect attempt is pending,
    never both, and an attempt is a timeout, not an interval. *)
Record single_view (socks : list Socket) (tm : gmap nat Timer) : Prop := {
  sv_live : forall i j ri rj,
    readyState <$> socks !! i = Some ri ->
    readyState <$> socks !! j = Some rj ->
    ri ≠ CLOSED -> rj ≠ CLOSED -> i = j;
  sv_pending : forall id id' t t',
    tm !! id = Some t -> tm !! id' = Some t' ->
    task t = ReconnectTask -> task t' = ReconnectTask -> id = id';
  sv_either : forall i r id t,
    readyState <$> socks !! i = Some r -> r ≠ CLOSED ->
    tm !! id = Some t -> task t ≠ ReconnectTask;
  sv_once : forall id t,
    tm !! id = Some t -> task t = ReconnectTask -> repeating t = false
}.

Definition single (w : World) : Prop := single_view (sockets w) (timers w).

(** Nothing is live and nothing is pending. *)
Definition idle (socks : list Socket) (tm : gmap nat Timer) : Prop :=
  (forall i r, readyState <$> socks !! i = Some r -> r = CLOSED)
  /\ (forall id t, tm !! id = Some t -> task t ≠ ReconnectTask).

(** [close()] has been called and [connect()] not since: the flag is
    set, there is no current socket and no reconnect attempt is
    scheduled. *)
Record closed_down (w : World) : Prop := {
  cd_manual : isManualClose (this w) = true;
  cd_ws : ws (this w) = None;
  cd_quiet : reconnects w = ∅
}.

End WS.

(** ** The HTTP helper: [postStream] and [postStreamRealtime] *)

Module Http.

(** A chunk is the [Uint8Array] that [reader.read()] resolves with. *)
Abbreviation Chunk := (list Byte.byte) (only parsing).

(** Interactions between the code and the browser, in the order they
    happen.  [totalBytes] and chunk lengths are JavaScript numbers that
    only ever hold sums of lengths; they are modelled by [nat]. *)
Inductive Action :=
| ActRead                                      (* reader.read() is called *)
| ActDelivered (value : Chunk)                 (* ... and resolves with a chunk *)
| ActOnChunk (received : nat) (chunk : Chunk)  (* onChunk({ received, chunk }) *)
| ActAddSourceBuffer (mime : string) (ok : bool)
| ActAppendBuffer (chunk : Chunk) (ok : bool)
| ActUpdateEnd
| ActEndOfStream (ok : bool)
| ActSleep (ms : Z)
| ActResolve
| ActReject (msg : string).

(** What the surroundings decide when the code calls into them: which
    mime types [addSourceBuffer] takes, which chunks [appendBuffer] takes
    (it throws, for instance, when the buffer is full), whether
    [endOfStream] returns, whether the caller's [onChunk] returns and,
    when it throws, whether the error it throws is named [AbortError].
    What is thrown is an object, as every error of the browser and every
    [Error] is, so that the [catch] blocks can read its [name]. *)
Record Env := {
  supports : string -> bool;
  accepts : Chunk -> bool;
  finalizes : bool;
  onChunk_returns : nat -> Chunk -> bool;
  onChunk_aborts : nat -> Chunk -> bool
}.

(** *** The [Content-Type] header *)

(** White space of [String.prototype.trim] among the code points a header
    value can hold. *)
Definition is_white (a : Ascii.ascii) : bool :=
  let n := Ascii.nat_of_ascii a in
  (9 <=? n) && (n <=? 13) || (n =? 32) || (n =? 160).

Fixpoint trimStart (s : string) : string :=
  match s with
  | String a r => if is_white a then trimStart r else s
  | EmptyString => EmptyString
  end.

Definition trim (s : string) : string :=
  String.rev (trimStart (String.rev (trimStart s))).

(** [s.split(';')[0]] *)
Fixpoint split_semicolon_0 (s : string) : string :=
  match s with
  | String a r =>
      if Ascii.eqb a (Ascii.ascii_of_nat 59) then EmptyString
      else String a (split_semicolon_0 r)
  | EmptyString => EmptyString
  end.

(** A string or null in a boolean position: null and the empty string
    are falsy. *)
Definition truthy (o : option string) : bool :=
  match o with
  | Some s => negb (String.eqb s "")
  | None => false
  end.

(** *** [postStream] *)

Inductive Error :=
| HttpError (status : nat)   (* 'HTTP Error: <status>' *)
| RequestTimeout             (* an error named AbortError: the timeout error *)
| Rethrown.                  (* any other error, rethrown as it is *)

(** The [catch] of [postStream] for an error of the callback: it looks
    at the name of the error only. *)
Definition error_of_callback (aborts : bool) : Error :=
  if aborts then RequestTimeout else Rethrown.

Inductive Ending := BodyDone | BodyAborted | BodyFailed.

(** What [fetch] settles with.  A body is the chunks its reader delivers,
    followed by how the reading ends. *)
Inductive FetchResult :=
| Response (ok : bool) (status : nat) (contentType : option string)
| FetchAborted
| FetchFailed.

Definition error_of (e : Ending) : Error :=
  match e with
  | BodyAborted => RequestTimeout
  | _ => Rethrown
  end.

(** The [while (true)] loop of [postStream] over the chunks the body
    still has to deliver. *)
Fixpoint postStream_loop (env : Env) (body : list Chunk) (ending : Ending)
    (chunks : list Chunk) (totalBytes : nat)
    : list Action * (Error + list Chunk) :=
  match body with
  | [] =>
      ([ActRead],
       match ending with
       | BodyDone => inr chunks
       | _ => inl (error_of ending)
       end)
  | value :: rest =>
      let chunks := chunks ++ [value] in
      let totalBytes := totalBytes + length value in
      let here := [ActRead; ActDelivered value; ActOnChunk totalBytes value] in
      if onChunk_returns env totalBytes value then
        let '(later, r) := postStream_loop env rest ending chunks totalBytes in
        (here ++ later, r)
      else
        (here, inl (error_of_callback (onChunk_aborts env totalBytes value)))
  end.

(** [postStream]: the interactions and either the error thrown or the
    chunks of the returned [Blob]. *)
Definition postStream (env : Env) (response : FetchResult)
    (body : list Chunk) (ending : Ending)
    : list Action * (Error + list Chunk) :=
  match response with
  | Response ok status _ =>
      if ok then postStream_loop env body ending [] 0
      else ([], inl (HttpError status))
  | FetchAborted => ([], inl RequestTimeout)
  | FetchFailed => ([], inl Rethrown)
  end.

(** *** [postStreamRealtime]: state *)

(** [mediaSource.readyState] *)
Inductive MediaState := ms_closed | ms_open | ms_ended.

#[global] Instance MediaState_eq_dec : EqDecision MediaState.
Proof. solve_decision. Defined.

(** Where the async function behind [streamPromise] is suspended. *)
Inductive Pc :=
| AwaitFetch
| AwaitRead
| AwaitSourceOpen (value : Chunk)
| AwaitSleep
| Finished.

Inductive Settled := Pending | Fulfilled | RejectedWith (msg : string).

#[global] Instance Settled_eq_dec : EqDecision Settled.
Proof. solve_decision. Defined.

(** The closure of one [postStreamRealtime] call.  [sourceBuffer] is
    [None] for null and otherwise carries the buffer's [updating] flag;
    [checkFirstChunk], [bufferCheckInterval] and [timeoutCheck] hold
    the delay, in milliseconds, of the timer of that name while it is
    scheduled, and [None] before it is set and after it is cleared or,
    for the timeout, has fired. *)
Record Session := {
  sourceBuffer : option bool;
  isSourceOpen : bool;
  pendingChunks : list Chunk;
  totalBytes : nat;
  hasFirstChunk : bool;
  streamEnded : bool;
  detectedMimeType : option string;
  responseType : option string;
  media_readyState : MediaState;
  sourceOpenPromise : bool;
  pc : Pc;
  checkFirstChunk : option Z;
  bufferCheckInterval : option Z;
  timeoutCheck : option Z;
  startTime : Z;
  result : Settled;
  trace : list Action
}.

Definition start (responseType : option string) : Session := {|
  sourceBuffer := None; isSourceOpen := false; pendingChunks := [];
  totalBytes := 0; hasFirstChunk := false; streamEnded := false;
  detectedMimeType := None; responseType := responseType;
  media_readyState := ms_closed; sourceOpenPromise := false;
  pc := AwaitFetch; checkFirstChunk := Some 5%Z; bufferCheckInterval := None;
  timeoutCheck := Some 10000%Z; startTime := 0; result := Pending; trace := []
|}.

Definition set_sourceBuffer (x : option bool) (s : Session) : Session :=
  {| sourceBuffer := x; isSourceOpen := isSourceOpen s;
     pendingChunks := pendingChunks s; totalBytes := totalBytes s;
     hasFirstChunk := hasFirstChunk s; streamEnded := streamEnded s;
     detectedMimeType := detectedMimeType s; responseType := responseType s;
     media_readyState := media_readyState s;
     sourceOpenPromise := sourceOpenPromise s; pc := pc s;
     checkFirstChunk := checkFirstChunk s;
     bufferCheckInterval := bufferCheckInterval s;
     timeoutCheck := timeoutCheck s; startTime := startTime s;
     result := result s; trace := trace s |}.

Definition set_isSourceOpen (x : bool) (s : Session) : Session :=
  {| sourceBuffer := sourceBuffer s; isSourceOpen := x;
     pendingChunks := pendingChunks s; totalBytes := totalBytes s;
     hasFirstChunk := hasFirstChunk s; streamEnded := streamEnded s;
     detectedMimeType := detectedMimeType s; responseType := responseType s;
     media_readyState := media_readyState s;
     sourceOpenPromise := sourceOpenPromise s; pc := pc s;
     checkFirstChunk := checkFirstChunk s;
     bufferCheckInterval := bufferCheckInterval s;
     timeoutCheck := timeoutCheck s; startTime := startTime s;
     result := result s; trace := trace s |}.

Definition set_pendingChunks (x : list Chunk) (s : Session) : Session :=
  {| sourceBuffer := sourceBuffer s; isSourceOpen := isSourceOpen s;
     pendingChunks := x; totalBytes := totalBytes s;
     hasFirstChunk := hasFirstChunk s; streamEnded := streamEnded s;
     detectedMimeType := detectedMimeType s; responseType := responseType s;
     media_readyState := media_readyState s;
     sourceOpenPromise := sourceOpenPromise s; pc := pc s;
     checkFirstChunk := checkFirstChunk s;
     bufferCheckInterval := bufferCheckInterval s;
     timeoutCheck := timeoutCheck s; startTime := startTime s;
     result := result s; trace := trace s |}.

Definition set_totalBytes (x : nat) (s : Session) : Session :=
  {| sourceBuffer := sourceBuffer s; isSourceOpen := isSourceOpen s;
     pendingChunks := pendingChunks s; totalBytes := x;
     hasFirstChunk := hasFirstChunk s; streamEnded := streamEnded s;
     detectedMimeType := detectedMimeType s; responseType := responseType s;
     media_readyState := media_readyState s;
     sourceOpenPromise := sourceOpenPromise s; pc := pc s;
     checkFirstChunk := checkFirstChunk s;
     bufferCheckInterval := bufferCheckInterval s;
     timeoutCheck := timeoutCheck s; startTime := startTime s;
     result := result s; trace := trace s |}.

Definition set_hasFirstChunk (x : bool) (s : Session) : Session :=
  {| sourceBuffer := sourceBuffer s; isSourceOpen := isSourceOpen s;
     pendingChunks := pendingChunks s; totalBytes := totalBytes s;
     hasFirstChunk := x; streamEnded := streamEnded s;
     detectedMimeType := detectedMimeType s; responseType := responseType s;
     media_readyState := media_readyState s;
     sourceOpenPromise := sourceOpenPromise s; pc := pc s;
     checkFirstChunk := checkFirstChunk s;
     bufferCheckInterval := bufferCheckInterval s;
     timeoutCheck := timeoutCheck s; startTime := startTime s;
     result := result s; trace := trace s |}.

Definition set_streamEnded (x : bool) (s : Session) : Session :=
  {| sourceBuffer := sourceBuffer s; isSourceOpen := isSourceOpen s;
     pendingChunks := pendingChunks s; totalBytes := totalBytes s;
     hasFirstChunk := hasFirstChunk s; streamEnded := x;
     detectedMimeType := detectedMimeType s; responseType := responseType s;
     media_readyState := media_readyState s;
     sourceOpenPromise := sourceOpenPromise s; pc := pc s;
     checkFirstChunk := checkFirstChunk s;
     bufferCheckInterval := bufferCheckInterval s;
     timeoutCheck := timeoutCheck s; startTime := startTime s;
     result := result s; trace := trace s |}.

Definition set_detectedMimeType (x : option string) (s : Session) : Session :=
  {| sourceBuffer := sourceBuffer s; isSourceOpen := isSourceOpen s;
     pendingChunks := pendingChunks s; totalBytes := totalBytes s;
     hasFirstChunk := hasFirstChunk s; streamEnded := streamEnded s;
     detectedMimeType := x; responseType := responseType s;
     media_readyState := media_readyState s;
     sourceOpenPromise := sourceOpenPromise s; pc := pc s;
     checkFirstChunk := checkFirstChunk s;
     bufferCheckInterval := bufferCheckInterval s;
     timeoutCheck := timeoutCheck s; startTime := startTime s;
     result := result s; trace := trace s |}.

Definition set_media_readyState (x : MediaState) (s : Session) : Session :=
  {| sourceBuffer := sourceBuffer s; isSourceOpen := isSourceOpen s;
     pendingChunks := pendingChunks s; totalBytes := totalBytes s;
     hasFirstChunk := hasFirstChunk s; streamEnded := streamEnded s;
     detectedMimeType := detectedMimeType s; responseType := responseType s;
     media_readyState := x;
     sourceOpenPromise := sourceOpenPromise s; pc := pc s;
     checkFirstChunk := checkFirstChunk s;
     bufferCheckInterval := bufferCheckInterval s;
     timeoutCheck := timeoutCheck s; startTime := startTime s;
     result := result s; trace := trace s |}.

Definition set_sourceOpenPromise (x : bool) (s : Session) : Session :=
  {| sourceBuffer := sourceBuffer s; isSourceOpen := isSourceOpen s;
     pendingChunks := pendingChunks s; totalBytes := totalBytes s;
     hasFirstChunk := hasFirstChunk s; streamEnded := streamEnded s;
     detectedMimeType := detectedMimeType s; responseType := responseType s;
     media_readyState := media_readyState s;
     sourceOpenPromise := x; pc := pc s;
     checkFirstChunk := checkFirstChunk s;
     bufferCheckInterval := bufferCheckInterval s;
     timeoutCheck := timeoutCheck s; startTime := startTime s;
     result := result s; trace := trace s |}.

Definition set_pc (x : Pc) (s : Session) : Session :=
  {| sourceBuffer := sourceBuffer s; isSourceOpen := isSourceOpen s;
     pendingChunks := pendingChunks s; totalBytes := totalBytes s;
     hasFirstChunk := hasFirstChunk s; streamEnded := streamEnded s;
     detectedMimeType := detectedMimeType s; responseType := responseType s;
     media_readyState := media_readyState s;
     sourceOpenPromise := sourceOpenPromise s; pc := x;
     checkFirstChunk := checkFirstChunk s;
     bufferCheckInterval := bufferCheckInterval s;
     timeoutCheck := timeoutCheck s; startTime := startTime s;
     result := result s; trace := trace s |}.

Definition set_checkFirstChunk (x : option Z) (s : Session) : Session :=
  {| sourceBuffer := sourceBuffer s; isSourceOpen := isSourceOpen s;
     pendingChunks := pendingChunks s; totalBytes := totalBytes s;
     hasFirstChunk := hasFirstChunk s; streamEnded := streamEnded s;
     detectedMimeType := detectedMimeType s; responseType := responseType s;
     media_readyState := media_readyState s;
     sourceOpenPromise := sourceOpenPromise s; pc := pc s;
     checkFirstChunk := x;
     bufferCheckInterval := bufferCheckInterval s;
     timeoutCheck := timeoutCheck s; startTime := startTime s;
     result := result s; trace := trace s |}.

Definition set_bufferCheckInterval (x : option Z) (s : Session) : Session :=
  {| sourceBuffer := sourceBuffer s; isSourceOpen := isSourceOpen s;
     pendingChunks := pendingChunks s; totalBytes := totalBytes s;
     hasFirstChunk := hasFirstChunk s; streamEnded := streamEnded s;
     detectedMimeType := detectedMimeType s; responseType := responseType s;
     media_readyState := media_readyState s;
     sourceOpenPromise := sourceOpenPromise s; pc := pc s;
     checkFirstChunk := checkFirstChunk s;
     bufferCheckInterval := x;
     timeoutCheck := timeoutCheck s; startTime := startTime s;
     result := result s; trace := trace s |}.

Definition set_timeoutCheck (x : option Z) (s : Session) : Session :=
  {| sourceBuffer := sourceBuffer s; isSourceOpen := isSourceOpen s;
     pendingChunks := pendingChunks s; totalBytes := totalBytes s;
     hasFirstChunk := hasFirstChunk s; streamEnded := streamEnded s;
     detectedMimeType := detectedMimeType s; responseType := responseType s;
     media_readyState := media_readyState s;
     sourceOpenPromise := sourceOpenPromise s; pc := pc s;
     checkFirstChunk := checkFirstChunk s;
     bufferCheckInterval := bufferCheckInterval s;
     timeoutCheck := x; startTime := startTime s;
     result := result s; trace := trace s |}.

Definition set_startTime (x : Z) (s : Session) : Session :=
  {| sourceBuffer := sourceBuffer s; isSourceOpen := isSourceOpen s;
     pendingChunks := pendingChunks s; totalBytes := totalBytes s;
     hasFirstChunk := hasFirstChunk s; streamEnded := streamEnded s;
     detectedMimeType := detectedMimeType s; responseType := responseType s;
     media_readyState := media_readyState s;
     sourceOpenPromise := sourceOpenPromise s; pc := pc s;
     checkFirstChunk := checkFirstChunk s;
     bufferCheckInterval := bufferCheckInterval s;
     timeoutCheck := timeoutCheck s; startTime := x;
     result := result s; trace := trace s |}.

Definition set_result (x : Settled) (s : Session) : Session :=
  {| sourceBuffer := sourceBuffer s; isSourceOpen := isSourceOpen s;
     pendingChunks := pendingChunks s; totalBytes := totalBytes s;
     hasFirstChunk := hasFirstChunk s; streamEnded := streamEnded s;
     detectedMimeType := detectedMimeType s; responseType := responseType s;
     media_readyState := media_readyState s;
     sourceOpenPromise := sourceOpenPromise s; pc := pc s;
     checkFirstChunk := checkFirstChunk s;
     bufferCheckInterval := bufferCheckInterval s;
     timeoutCheck := timeoutCheck s; startTime := startTime s;
     result := x; trace := trace s |}.

Definition note (a : list Action) (s : Session) : Session :=
  {| sourceBuffer := sourceBuffer s; isSourceOpen := isSourceOpen s;
     pendingChunks := pendingChunks s; totalBytes := totalBytes s;
     hasFirstChunk := hasFirstChunk s; streamEnded := streamEnded s;
     detectedMimeType := detectedMimeType s; responseType := responseType s;
     media_readyState := media_readyState s;
     sourceOpenPromise := sourceOpenPromise s; pc := pc s;
     checkFirstChunk := checkFirstChunk s;
     bufferCheckInterval := bufferCheckInterval s;
     timeoutCheck := timeoutCheck s; startTime := startTime s;
     result := result s; trace := trace s ++ a |}.

(** *** [postStreamRealtime]: the media objects *)

(** [sourceBuffer.appendBuffer(chunk)]: on an idle buffer that takes the
    chunk, the append starts and [updating] becomes true until the
    browser reports [updateend]; otherwise the call throws.  The boolean
    tells whether the call returned. *)
Definition appendBuffer (env : Env) (chunk : Chunk) (s : Session)
    : Session * bool :=
  match sourceBuffer s with
  | Some false =>
      if accepts env chunk then
        (note [ActAppendBuffer chunk true] (set_sourceBuffer (Some true) s), true)
      else (note [ActAppendBuffer chunk false] s, false)
  | _ => (note [ActAppendBuffer chunk false] s, false)
  end.

(** [mediaSource.addSourceBuffer(mime)] with the [updateend] listener
    that the code attaches right after it. *)
Definition addSourceBuffer (env : Env) (mime : string) (s : Session)
    : Session * bool :=
  if supports env mime then
    (note [ActAddSourceBuffer mime true] (set_sourceBuffer (Some false) s), true)
  else (note [ActAddSourceBuffer mime false] s, false).

(** [mediaSource.endOfStream()] inside its [try]. *)
Definition endOfStream (env : Env) (s : Session) : Session :=
  if finalizes env then
    note [ActEndOfStream true] (set_media_readyState ms_ended s)
  else note [ActEndOfStream false] s.

(** *** [flushPendingChunks] *)

(** The [while] loop: [pending] is the queue as the loop sees it. *)
Fixpoint flush_loop (env : Env) (pending : list Chunk) (s : Session)
    : Session :=
  match pending with
  | [] => s
  | chunk :: rest =>
      match sourceBuffer s with
      | Some false =>
          let '(s, ok) := appendBuffer env chunk (set_pendingChunks rest s) in
          if ok then flush_loop env rest s else s
      | _ => s
      end
  end.

Definition flushPendingChunks (env : Env) (s : Session) : Session :=
  match sourceBuffer s with
  | Some false =>
      let s := flush_loop env (pendingChunks s) s in
      if streamEnded s
         && bool_decide (length (pendingChunks s) = 0)
         && bool_decide (sourceBuffer s = Some false)
         && bool_decide (media_readyState s = ms_open)
      then endOfStream env s
      else s
  | _ => s
  end.

(** *** The stream loop *)

Definition request_read (s : Session) : Session :=
  set_pc AwaitRead (note [ActRead] s).

Definition push (value : Chunk) (s : Session) : Session :=
  set_pendingChunks (pendingChunks s ++ [value]) s.

(** The [catch] of the async function: both of its branches only log. *)
Definition stream_catch (s : Session) : Session :=
  set_pc Finished (set_streamEnded true s).

(** The rest of a loop iteration, from [await sourceOpenPromise] on. *)
Definition after_sourceOpen (env : Env) (value : Chunk) (s : Session)
    : Session :=
  if isSourceOpen s && bool_decide (is_Some (sourceBuffer s)) then
    let s :=
      if bool_decide (sourceBuffer s = Some false) then
        let '(s, ok) := appendBuffer env value s in
        if ok then s else push value s
      else push value s in
    if bool_decide (5 < length (pendingChunks s)) then
      set_pc AwaitSleep (note [ActSleep 50] s)
    else request_read s
  else request_read (push value s).

(** One iteration, entered when [reader.read()] resolves with a chunk. *)
Definition on_chunk (env : Env) (value : Chunk) (s : Session) : Session :=
  let s := note [ActDelivered value] s in
  let s := set_totalBytes (totalBytes s + length value) s in
  let s := note [ActOnChunk (totalBytes s) value] s in
  if onChunk_returns env (totalBytes s) value then
    let s := if hasFirstChunk s then s else set_hasFirstChunk true s in
    if sourceOpenPromise s then after_sourceOpen env value s
    else set_pc (AwaitSourceOpen value) s
  else stream_catch s.

Definition on_done (env : Env) (s : Session) : Session :=
  let s := set_streamEnded true s in
  let s := flushPendingChunks env s in
  set_pc Finished s.

Definition on_response (r : FetchResult) (s : Session) : Session :=
  match r with
  | Response true _ contentType =>
      let s :=
        match contentType with
        | Some c =>
            if truthy contentType then
              set_detectedMimeType (Some (trim (split_semicolon_0 c))) s
            else s
        | None => s
        end in
      request_read s
  | _ => stream_catch s
  end.

(** [resolve()] of [sourceOpenPromise]: a loop iteration that waits for
    it goes on. *)
Definition resolve_sourceOpen (env : Env) (s : Session) : Session :=
  let s := set_sourceOpenPromise true s in
  match pc s with
  | AwaitSourceOpen value => after_sourceOpen env value s
  | _ => s
  end.

(** The [sourceopen] listener. *)
Definition on_sourceopen (env : Env) (s : Session) : Session :=
  let s := set_isSourceOpen true s in
  let mimeType :=
    if truthy (detectedMimeType s) then default "" (detectedMimeType s)
    else if truthy (responseType s) then default "" (responseType s)
    else "audio/mpeg" in
  let '(s, ok) := addSourceBuffer env mimeType s in
  if ok then resolve_sourceOpen env s
  else if truthy (detectedMimeType s)
          && negb (bool_decide (detectedMimeType s = Some "audio/mpeg")) then
    let s := set_detectedMimeType (Some "audio/mpeg") s in
    let '(s, _) := addSourceBuffer env "audio/mpeg" s in
    resolve_sourceOpen env s
  else resolve_sourceOpen env s.

(** The [updateend] listener, after the browser has cleared [updating]. *)
Definition on_updateend (env : Env) (s : Session) : Session :=
  flushPendingChunks env s.

(** *** The returned promise *)

(** Settling a promise that is already settled does nothing. *)
Definition resolve (s : Session) : Session :=
  match result s with
  | Pending => note [ActResolve] (set_result Fulfilled s)
  | _ => s
  end.

Definition reject (msg : string) (s : Session) : Session :=
  match result s with
  | Pending => note [ActReject msg] (set_result (RejectedWith msg) s)
  | _ => s
  end.

(** [audio.buffered] as the list of its ranges [(start, end)], in
    seconds.  The loop adds them up in double precision, as the binary64
    operations of [PrimFloat] do, starting from 0. *)
Definition totalBuffered (buffered : list (float * float)) : float :=
  foldl (fun total r => (total + (snd r - fst r))%float) 0%float buffered.

(** [totalBuffered > 1 || elapsedTime > 1000] *)
Definition hasEnoughBuffer (total : float) (elapsedTime : Z) : bool :=
  (1 <? total)%float || (1000 <? elapsedTime)%Z.

(** [tryStartPlayback] at clock reading [now]. *)
Definition tryStartPlayback (now : Z) (buffered : list (float * float))
    (s : Session) : Session :=
  match sourceBuffer s with
  | None => s
  | Some _ =>
      let elapsedTime := (now - startTime s)%Z in
      if hasEnoughBuffer (totalBuffered buffered) elapsedTime then
        resolve (set_bufferCheckInterval None s)
      else s
  end.

(** One tick of the 5 ms [checkFirstChunk] interval: [now] is the clock
    when [startTime] is taken, [now'] when the first readiness check
    reads it.  The readiness check is scheduled every 100 ms and made
    once at once. *)
Definition on_checkFirstChunk (now now' : Z) (buffered : list (float * float))
    (s : Session) : Session :=
  if hasFirstChunk s then
    let s := set_checkFirstChunk None s in
    let s := set_startTime now s in
    let s := set_bufferCheckInterval (Some 100%Z) s in
    tryStartPlayback now' buffered s
  else s.

(** The 10 s timeout. *)
Definition on_timeout (s : Session) : Session :=
  let s := set_checkFirstChunk None s in
  if negb (hasFirstChunk s) then reject "数据流超时" s else s.

(** The [error] listener of the audio element; [msg] is
    [e.target.error?.message]. *)
Definition on_audio_error (msg : option string) (s : Session) : Session :=
  let s := set_checkFirstChunk None s in
  reject ("音频播放错误: "
          +:+ (if truthy msg then default "" msg else "未知错误")) s.

(** *** Events *)

Inductive Event :=
| EFetch (r : FetchResult)          (* fetch settles *)
| ERead (value : option Chunk)      (* read() resolves: a chunk, or done *)
| EReadFails                        (* read() rejects *)
| ESourceOpen
| EUpdateEnd
| ESleepDone
| ECheckFirstChunk (now now' : Z) (buffered : list (float * float))
| EBufferCheck (now : Z) (buffered : list (float * float))
| ETimeout
| EAudioError (msg : option string).

(** One event.  Each arrives only where something waits for it: a read
    result while the loop awaits [read()], [sourceopen] once, while the
    media source is closed, [updateend] while the buffer is updating, a
    timer tick while the timer is scheduled.  Anything else leaves the
    session as it is. *)
Definition step (env : Env) (s : Session) (e : Event) : Session :=
  match e with
  | EFetch r =>
      match pc s with AwaitFetch => on_response r s | _ => s end
  | ERead (Some value) =>
      match pc s with AwaitRead => on_chunk env value s | _ => s end
  | ERead None =>
      match pc s with AwaitRead => on_done env s | _ => s end
  | EReadFails =>
      match pc s with AwaitRead => stream_catch s | _ => s end
  | ESourceOpen =>
      match media_readyState s with
      | ms_closed =>
          if isSourceOpen s then s
          else on_sourceopen env (set_media_readyState ms_open s)
      | _ => s
      end
  | EUpdateEnd =>
      match sourceBuffer s with
      | Some true =>
          on_updateend env (note [ActUpdateEnd] (set_sourceBuffer (Some false) s))
      | _ => s
      end
  | ESleepDone =>
      match pc s with AwaitSleep => request_read s | _ => s end
  | ECheckFirstChunk now now' buffered =>
      match checkFirstChunk s with
      | Some _ => on_checkFirstChunk now now' buffered s
      | None => s
      end
  | EBufferCheck now buffered =>
      match bufferCheckInterval s with
      | Some _ => tryStartPlayback now buffered s
      | None => s
      end
  | ETimeout =>
      match timeoutCheck s with
      | Some _ => on_timeout (set_timeoutCheck None s)
      | None => s
      end
  | EAudioError msg => on_audio_error msg s
  end.

(** A run: each event comes with what the surroundings would answer
    while it is handled. *)
Definition run (s : Session) (es : list (Env * Event)) : Session :=
  foldl (fun s '(env, e) => step env s e) s es.

(** *** Reading a trace *)

(** The chunks whose [appendBuffer] call returned, in call order. *)
Definition submissions (t : list Action) : list Chunk :=
  omap (fun a => match a with
                 | ActAppendBuffer chunk true => Some chunk
                 | _ => None
                 end) t.

(** The chunks the reader delivered, in order. *)
Definition delivered (t : list Action) : list Chunk :=
  omap (fun a => match a with
                 | ActDelivered value => Some value
                 | _ => None
                 end) t.

(** The [onChunk] calls, in order. *)
Definition progress (t : list Action) : list (nat * Chunk) :=
  omap (fun a => match a with
                 | ActOnChunk received chunk => Some (received, chunk)
                 | _ => None
                 end) t.

(** Whether an [endOfStream] call has returned. *)
Definition finalized (t : list Action) : bool :=
  existsb (fun a => match a with
                    | ActEndOfStream true => true
                    | _ => false
                    end) t.

(** The [addSourceBuffer] calls, in order, with whether each returned. *)
Definition add_calls (t : list Action) : list (string * bool) :=
  omap (fun a => match a with
                 | ActAddSourceBuffer mime ok => Some (mime, ok)
                 | _ => None
                 end) t.

(** What [onChunk] is to report for the chunks [cs] when [acc] bytes came
    before them: the running total and the chunk. *)
Fixpoint reports (acc : nat) (cs : list Chunk) : list (nat * Chunk) :=
  match cs with
  | [] => []
  | c :: cs' => (acc + length c, c) :: reports (acc + length c) cs'
  end.

(** The rhythm of reading: a read is requested, it delivers a chunk, the
    callback is called at once, and only then can the next read be
    requested.  [pace] follows a trace and stops at [None] where the
    trace leaves that rhythm; actions that have nothing to do with
    reading may come anywhere except between a delivery and its
    callback. *)
Inductive Phase := Idle | Reading | Got.

Definition pace (p : option Phase) (a : Action) : option Phase :=
  match p, a with
  | Some Idle, ActRead => Some Reading
  | Some Reading, ActDelivered _ => Some Got
  | Some Got, ActOnChunk _ _ => Some Idle
  | _, ActRead | _, ActDelivered _ | _, ActOnChunk _ _ => None
  | Some Got, _ => None
  | p, _ => p
  end.

Definition paced (t : list Action) : Prop :=
  is_Some (foldl pace (Some Idle) t).

(** What C9 says of a trace: the reading keeps its rhythm; there is one
    callback per delivered chunk, in order and with that chunk; the
    reported totals never go down; and the last one is the number of
    bytes of all delivered chunks. *)
Definition progress_faithful (t : list Action) : Prop :=
  paced t
  /\ (progress t).*2 = delivered t
  /\ (forall i j a b, i <= j ->
        (progress t).*1 !! i = Some a -> (progress t).*1 !! j = Some b ->
        a <= b)
  /\ (forall r, last (progress t).*1 = Some r ->
        r = sum_list (length <$> delivered t)).

(** The phase the trace is in, given where the stream loop waits. *)
Definition phase_ok (p : Pc) (ph : Phase) : Prop :=
  match p with
  | AwaitRead => ph = Reading
  | Finished => ph ≠ Got
  | _ => ph = Idle
  end.

Record reading_inv (s : Session) : Prop := {
  ri_pace : exists ph,
    foldl pace (Some Idle) (trace s) = Some ph /\ phase_ok (pc s) ph;
  ri_progress : progress (trace s) = reports 0 (delivered (trace s));
  ri_total : totalBytes s = sum_list (length <$> delivered (trace s))
}.

(** No [appendBuffer] call returns while an earlier append is still
    waiting for its [updateend].  [busy] follows a trace: [Some b] tells
    whether an append is outstanding, [None] that two overlapped. *)
Definition busy (b : option bool) (a : Action) : option bool :=
  match b, a with
  | Some false, ActAppendBuffer _ true => Some true
  | Some true, ActAppendBuffer _ true => None
  | Some _, ActUpdateEnd => Some false
  | b, _ => b
  end.

Definition never_overlapping (t : list Action) : Prop :=
  is_Some (foldl busy (Some false) t).

(** A session whose stream loop has finished with the source buffer
    idle, the media source open and nothing finalized. *)
Record stranded (s : Session) : Prop := {
  st_pc : pc s = Finished;
  st_idle : sourceBuffer s = Some false;
  st_open : media_readyState s = ms_open;
  st_not_finalized : finalized (trace s) = false
}.

(** The trace has not seen two appends overlap, and an append is
    outstanding exactly when the buffer is updating; before the media
    source opens there is no buffer. *)
Record busy_inv (s : Session) : Prop := {
  bi_busy : foldl busy (Some false) (trace s)
            = Some (bool_decide (sourceBuffer s = Some true));
  bi_unopened : media_readyState s = ms_closed -> sourceBuffer s = None
}.

(** The chunk a loop iteration holds while it waits for [sourceopen]. *)
Definition waiting (p : Pc) : list Chunk :=
  match p with AwaitSourceOpen value => [value] | _ => [] end.



(** The promise is resolved, and the readiness check is scheduled, only
    after the first chunk. *)
Record gate_inv (s : Session) : Prop := {
  gi_result : result s = Fulfilled -> hasFirstChunk s = true;
  gi_polling : is_Some (bufferCheckInterval s) -> hasFirstChunk s = true
}.

(** The number of [reader.read()] calls. *)
Definition reads (t : list Action) : nat :=
  length (omap (fun a => match a with ActRead => Some () | _ => None end) t).

(** The number of [addSourceBuffer] calls that returned. *)
Definition buffers_created (t : list Action) : nat :=
  length (filter (fun c => c.2 = true) (add_calls t)).

(** What every run keeps true of the source buffer: one exists exactly
    when one [addSourceBuffer] call has returned; there are at most two
    such calls, and none before [sourceopen]; the promise is fulfilled
    only with a buffer; the first-chunk flag is set only after a
    delivery. *)
Record buffer_inv (s : Session) : Prop := {
  bf_created : buffers_created (trace s)
               = if sourceBuffer s is Some _ then 1 else 0;
  bf_calls : length (add_calls (trace s)) <= 2;
  bf_unopened : isSourceOpen s = false -> add_calls (trace s) = [];
  bf_closed : media_readyState s = ms_closed -> isSourceOpen s = false;
  bf_fulfilled : result s = Fulfilled -> is_Some (sourceBuffer s);
  bf_first : hasFirstChunk s = true -> delivered (trace s) ≠ []
}.

(** The chunks [reader.read()] resolves with in a run, read off the
    events: a result reaches the loop only while it awaits one. *)
Fixpoint arrivals (s : Session) (es : list (Env * Event)) : list Chunk :=
  match es with
  | [] => []
  | (env, e) :: es' =>
      match e, pc s with
      | ERead (Some value), AwaitRead => [value]
      | _, _ => []
      end ++ arrivals (step env s e) es'
  end.




(** The first-chunk check has seen the first chunk at clock reading
    [since]: it is cleared, and the readiness check runs every 100 ms for as
    long as the promise is pending. *)
Record seen (since : Z) (s : Session) : Prop := {
  sn_cleared : checkFirstChunk s = None;
  sn_start : startTime s = since;
  sn_polling : result s = Pending -> bufferCheckInterval s = Some 100%Z
}.

(** The first chunk has arrived, but the first-chunk check was cleared
    before a tick of it saw the chunk, and the promise is pending. *)
Record missed (s : Session) : Prop := {
  mi_first : hasFirstChunk s = true;
  mi_cleared : checkFirstChunk s = None;
  mi_unpolled : bufferCheckInterval s = None;
  mi_pending : result s = Pending
}.

(** The delays the three timers are scheduled with. *)
Record timer_inv (s : Session) : Prop := {
  ti_first : forall d, checkFirstChunk s = Some d -> d = 5%Z;
  ti_check : forall d, bufferCheckInterval s = Some d -> d = 100%Z;
  ti_timeout : forall d, timeoutCheck s = Some d -> d = 10000%Z
}.

End Http.
(** ** Incoming frames: [handleMessage] *)

Module Inbound.

(** The frame as [handleMessage] looks at it.  A string goes through
    [JSON.parse], any other value is taken as it is; then the [type] of
    the result is read, which throws when the result is [null].  [type]
    is [None] when the value has no [type] or one that is not a string:
    the registry holds string tags only, so such a tag has no
    subscribers. *)
Inductive Frame :=
| Malformed                        (* a string that JSON.parse rejects *)
| Null                             (* the string "null" *)
| Message (type : option string).  (* any other value *)

(** What a subscriber is called with. *)
Inductive Payload :=
| FieldData      (* message.data *)
| Whole          (* the message *)
| ParseFailure.  (* { message: '消息解析失败', error } *)

(** [emit] with a payload of a frame: the calls it makes, in order. *)
Definition emit (event : string) (data : Payload)
    (callbacks : gmap string (list Callback))
    : list (Callback * string * Payload) :=
  map (fun callback => (callback, event, data))
      (Dispatcher.subscribers event callbacks).

Definition handleMessage (frame : Frame)
    (callbacks : gmap string (list Callback))
    : list (Callback * string * Payload) :=
  match frame with
  | Message type =>
      (if Http.truthy type then emit (default "" type) FieldData callbacks else [])
      ++ emit "message" Whole callbacks
  | _ => emit "error" ParseFailure callbacks
  end.

(** The calls made under one tag. *)
Definition calls_of (event : string) (l : list (Callback * string * Payload))
    : list (Callback * string * Payload) :=
  filter (fun d => d.1.2 = event) l.

End Inbound.

(** ** The request helpers and the question-and-answer requests *)

Module Api.

(** The errors a request can be rejected with, by where they are made. *)
Inductive Failure :=
| Busy                        (* Error('服务器繁忙，请稍后重试') *)
| TimedOut                    (* Error('请求超时') *)
| HttpStatus (status : nat)   (* Error(`HTTP Error: ${status}`) *)
| Refused (message : string)  (* Error(data.message) *)
| RequestFailed               (* Error('请求失败') *)
| Raised.                     (* an error of the browser, thrown on as it is *)

(** The parsed body as [handleJsonResponse] looks at it: [code] is the
    number in [data.code] ([None] when there is none, or something that
    is not an integer), [message] the text of [data.message]. *)
Record Data := { code : option Z; message : option string }.

Inductive Json :=
| NotJson                (* response.json() rejects *)
| JsonNull               (* null: reading data.code throws *)
| JsonValue (d : Data).

(** A response: [json] is what [response.json()] settles with, [blob]
    what [response.blob()] settles with ([None]: it rejects). *)
Record Response := {
  ok : bool;
  status : nat;
  json : Json;
  blob : option (list Byte.byte)
}.

(** How [fetch] settles.  It is called with the signal of the controller
    that [createFetchController] made, so it is aborted exactly when the
    timer of that controller fires first. *)
Inductive Fetch :=
| Settles (response : Response)
| Aborted
| Failed.

Definition fetchWithTimeout (f : Fetch) : Failure + Response :=
  match f with
  | Settles response => inr response
  | Aborted => inl TimedOut
  | Failed => inl Raised
  end.

Definition handleJsonResponse (response : Response) : Failure + Data :=
  if negb (ok response) then inl (HttpStatus (status response))
  else
    match json response with
    | JsonValue data =>
        if bool_decide (code data = Some 200%Z) then inr data
        else
          inl (if Http.truthy (message data)
               then Refused (default "" (message data))
               else RequestFailed)
    | _ => inl Raised
    end.

Definition handleBlobResponse (response : Response)
    : Failure + list Byte.byte :=
  if negb (ok response) then inl (HttpStatus (status response))
  else
    match blob response with
    | Some b => inr b
    | None => inl Raised
    end.

(** [postJson].  [serializes] tells whether [JSON.stringify(data)]
    returns.  The [try] covers the request up to the response;
    [return handleJsonResponse(response)] hands the promise on without
    awaiting it, so a rejection of that promise passes the [catch] by. *)
Definition postJson (serializes : bool) (f : Fetch) : Failure + Data :=
  match (if serializes then fetchWithTimeout f else inl Raised) with
  | inl _ => inl Busy
  | inr response => handleJsonResponse response
  end.

Definition postFormData (f : Fetch) : Failure + Data :=
  match fetchWithTimeout f with
  | inl _ => inl Busy
  | inr response => handleJsonResponse response
  end.

Definition postBlob (serializes : bool) (f : Fetch)
    : Failure + list Byte.byte :=
  match (if serializes then fetchWithTimeout f else inl Raised) with
  | inl _ => inl Busy
  | inr response => handleBlobResponse response
  end.

(** *** [api/modules/qa.js]: each request is awaited inside the [try] *)

(** [appends] tells whether [formData.append('audio', audioBlob, ...)]
    returns (it throws when [audioBlob] is not a [Blob]). *)
Definition uploadAudio (appends : bool) (f : Fetch) : Failure + Data :=
  match (if appends then postFormData f else inl Raised) with
  | inl _ => inl Busy
  | inr result => inr result
  end.

(** The body is [{ message }]. *)
Definition getAnswer (serializes : bool) (f : Fetch) : Failure + Data :=
  match postJson serializes f with
  | inl _ => inl Busy
  | inr result => inr result
  end.

Definition submitFeedback (serializes : bool) (f : Fetch) : Failure + Data :=
  match postJson serializes f with
  | inl _ => inl Busy
  | inr result => inr result
  end.

(** A response that [handleJsonResponse] lets through. *)
Definition accepted (f : Fetch) (data : Data) : Prop :=
  exists response,
    f = Settles response /\ ok response = true
    /\ json response = JsonValue data /\ code data = Some 200%Z.

End Api.

(** ** Text to speech *)

Module Tts.

(** The callbacks of [options], as the calls they receive. *)
Inductive Call :=
| OnStart
| OnProgress (received : nat)
| OnComplete
| OnError
| OnBlob.

#[global] Instance Call_eq_dec : EqDecision Call.
Proof. solve_decision. Defined.

(** Whether each callback returns when it is called (otherwise it
    throws).  A callback that [options] lacks is replaced by a function
    that does nothing, which returns.  [onStart_again] is the second call
    of [onStart] in [textToSpeechRealtime]; [onProgress_aborts] tells,
    for a call of [onProgress] that throws, whether the error is named
    [AbortError]. *)
Record Options := {
  onStart : bool;
  onStart_again : bool;
  onProgress : nat -> bool;
  onProgress_aborts : nat -> bool;
  onComplete : bool;
  onError : bool;
  onBlob : bool
}.

Inductive Error :=
| Generic      (* Error('服务器繁忙，请稍后重试') *)
| NotDefined   (* ReferenceError: onError is not defined *)
| Thrown.      (* what a callback or an awaited promise threw *)

#[global] Instance Error_eq_dec : EqDecision Error.
Proof. solve_decision. Defined.

Inductive Result := Value | Throw (e : Error) | Hang.

#[global] Instance Result_eq_dec : EqDecision Result.
Proof. solve_decision. Defined.

(** A stretch of a function body: the callbacks it calls, and whether it
    runs to its end, throws, or waits for ever. *)
Definition Run : Type := list Call * Result.

Definition call (c : Call) (returns : bool) : Run :=
  ([c], if returns then Value else Throw Thrown).

Definition throw (e : Error) : Run := ([], Throw e).

(** [a; b] *)
Definition seq (a b : Run) : Run :=
  match a.2 with
  | Value => (a.1 ++ b.1, b.2)
  | _ => a
  end.

(** [try { body } catch (error) { handler }]; no handler of this module
    looks at [error]. *)
Definition try_catch (body handler : Run) : Run :=
  match body.2 with
  | Throw _ => (body.1 ++ handler.1, handler.2)
  | _ => body
  end.

(** How an awaited promise ends. *)
Definition settled (stream : Http.Settled) : Result :=
  match stream with
  | Http.Pending => Hang
  | Http.Fulfilled => Value
  | Http.RejectedWith _ => Throw Thrown
  end.


(** [textToSpeech]; the body is [{ text }], the options are not used. *)
Definition textToSpeech (serializes : bool) (f : Api.Fetch)
    : Api.Failure + list Byte.byte :=
  match Api.postBlob serializes f with
  | inl _ => inl Api.Busy
  | inr audioBlob => inr audioBlob
  end.

(** [textToSpeechAndPlay]; [plays] tells whether [playAudio] returns. *)
Definition textToSpeechAndPlay (serializes : bool) (f : Api.Fetch)
    (plays : bool) : Api.Failure + unit :=
  match textToSpeech serializes f with
  | inl _ => inl Api.Busy
  | inr _ => if plays then inr () else inl Api.Busy
  end.

(** The [onProgress] calls that the callback handed to [postStream] or
    to [postStreamRealtime] makes: one for every [onChunk] call, with its
    [received]. *)
Definition progress_calls (t : list Http.Action) : list Call :=
  map (fun p => OnProgress p.1) (Http.progress t).




(** The events of the audio element of [textToSpeechStreaming] after
    [audio.play()] has been called. *)
Inductive AudioEvent := Ended | Errored | PlayRejected.

(** The promise that [textToSpeechStreaming] returns: [ended] calls
    [onComplete] and resolves, [error] and a rejected [play()] call
    [onError] and reject.  A callback that throws ends its listener
    before the promise is settled; settling a settled promise does
    nothing. *)
Fixpoint playback (o : Options) (audio : list AudioEvent) (settled : Result)
    : Run :=
  match audio with
  | [] => ([], settled)
  | e :: rest =>
      let c := match e with Ended => OnComplete | _ => OnError end in
      let returns := match e with Ended => onComplete o | _ => onError o end in
      let settled :=
        match settled with
        | Hang =>
            if returns then
              match e with Ended => Value | _ => Throw Generic end
            else Hang
        | _ => settled
        end in
      let r := playback o rest settled in
      (c :: r.1, r.2)
  end.

(** What [postStream] is given by [textToSpeechStreaming]: the callback
    is [(info) => onProgress({ received: info.received })]; [postStream]
    consults nothing else of its surroundings. *)
Definition stream_env (o : Options) : Http.Env := {|
  Http.supports := fun _ => true;
  Http.accepts := fun _ => true;
  Http.finalizes := true;
  Http.onChunk_returns := fun received _ => onProgress o received;
  Http.onChunk_aborts := fun received _ => onProgress_aborts o received
|}.

(** [textToSpeechStreaming].  Its callbacks are declared inside the
    [try] block, so the [catch] cannot see [onError]; the promise it
    returns is handed on without being awaited, so its rejection passes
    the [catch] by. *)
Definition textToSpeechStreaming (o : Options) (response : Http.FetchResult)
    (body : list (list Byte.byte)) (ending : Http.Ending)
    (audio : list AudioEvent) : Run :=
  let '(t, r) := Http.postStream (stream_env o) response body ending in
  seq
    (try_catch
       (seq (call OnStart (onStart o))
          (seq (progress_calls t,
                match r with inl _ => Throw Thrown | inr _ => Value end)
             (call OnBlob (onBlob o))))
       (seq (throw NotDefined) (throw Generic)))
    (playback o audio Hang).

End Tts.

(** * Scenarios: concrete surroundings and runs *)

Module Scenario.
Import Http.

(** Surroundings in which every call returns. *)
Definition willing : Env := {|
  supports := fun _ => true; accepts := fun _ => true;
  finalizes := true; onChunk_returns := fun _ _ => true;
  onChunk_aborts := fun _ _ => false
|}.

(** A source buffer that is full: [appendBuffer] throws. *)
Definition full : Env := {|
  supports := fun _ => true; accepts := fun _ => false;
  finalizes := true; onChunk_returns := fun _ _ => true;
  onChunk_aborts := fun _ _ => false
|}.

(** A browser that can create no source buffer at all. *)
Definition unsupporting : Env := {|
  supports := fun _ => false; accepts := fun _ => true;
  finalizes := true; onChunk_returns := fun _ _ => true;
  onChunk_aborts := fun _ _ => false
|}.

(** A browser that plays [audio/mpeg] and nothing else. *)
Definition mpeg_only : Env := {|
  supports := fun mime => String.eqb mime "audio/mpeg";
  accepts := fun _ => true;
  finalizes := true; onChunk_returns := fun _ _ => true;
  onChunk_aborts := fun _ _ => false
|}.

Definition chunk1 : list Byte.byte := [Byte.x01].
Definition chunk2 : list Byte.byte := [Byte.x02; Byte.x02].
Definition chunk3 : list Byte.byte := [Byte.x03; Byte.x03; Byte.x03].

Definition mpeg : FetchResult := Response true 200 (Some "audio/mpeg").
Definition ogg : FetchResult :=
  Response true 200 (Some "audio/ogg; codecs=opus").

(** The media source opens, the response arrives, the first append
    throws, the second chunk comes while the buffer is idle. *)
Definition overtaking : list (Env * Event) :=
  [(willing, ESourceOpen); (willing, EFetch mpeg);
   (full, ERead (Some chunk1)); (willing, ERead (Some chunk2));
   (willing, EUpdateEnd); (willing, EUpdateEnd)].

(** One chunk is appended and completes; then the connection breaks. *)
Definition broken_after_one : list (Env * Event) :=
  [(willing, ESourceOpen); (willing, EFetch mpeg);
   (willing, ERead (Some chunk1)); (willing, EUpdateEnd);
   (willing, EReadFails)].


(** The first chunk is there, the source buffer is not; the readiness
    check runs at 0, 100, 2000 and 5000 ms. *)
Definition waiting_for_buffer : list (Env * Event) :=
  [(unsupporting, ESourceOpen); (unsupporting, EFetch mpeg);
   (unsupporting, ERead (Some chunk1));
   (unsupporting, ECheckFirstChunk 0 0 []);
   (unsupporting, EBufferCheck 100 []);
   (unsupporting, EBufferCheck 2000 []);
   (unsupporting, EBufferCheck 5000 [])].

(** The first chunk arrives just before the 10 s timeout fires, and no
    tick of the first-chunk check comes between the two. *)
Definition late_first_chunk : list (Env * Event) :=
  [(willing, ESourceOpen); (willing, EFetch mpeg);
   (willing, ERead (Some chunk1)); (willing, ETimeout)].

(** The buffered ranges [0, 0.08] and [0.58, 1.5], with 0.08 and 0.58 as
    the doubles that JavaScript reads them as.  Their lengths add up to
    exactly 1 in double precision. *)
Definition gappy : list (float * float) :=
  [(0, 0x1.47ae147ae147bp-4); (0x1.28f5c28f5c28fp-1, 0x1.8p0)]%float.

(** Three chunks in surroundings where every call returns.  The first
    arrives before the media source opens and waits for it; the second
    and the third arrive while the first is being appended. *)
Definition three_chunks : list (Env * Event) :=
  [(willing, EFetch mpeg); (willing, ERead (Some chunk1));
   (willing, ESourceOpen); (willing, ERead (Some chunk2));
   (willing, ERead (Some chunk3)); (willing, EUpdateEnd)].



(** A connection that opens once and then fails five times in a row:
    each close schedules a reconnect, each reconnect constructs a socket
    that closes without opening.  The sixth socket is left connecting. *)
Definition five_failures : list WS.Event :=
  [WS.CallConnect None true; WS.SockOpen 0; WS.SockClose 0;
   WS.Fire 2 0%Z true; WS.SockClose 1; WS.Fire 3 0%Z true; WS.SockClose 2;
   WS.Fire 4 0%Z true; WS.SockClose 3; WS.Fire 5 0%Z true; WS.SockClose 4;
   WS.Fire 6 0%Z true].

(** The same with a subscriber to [close] and one to
    [reconnectFailed]. *)
Definition watched_failures : list WS.Event :=
  [WS.CallOn "close" 7; WS.CallOn "reconnectFailed" 8] ++ five_failures.

(** Five failures as before, but instead of waiting for the fifth
    reconnect attempt (timer 6) the caller calls [connect()] itself.  The
    socket of that call is left connecting, and timer 6 is still
    pending. *)
Definition impatient : list WS.Event :=
  [WS.CallOn "reconnectFailed" 8;
   WS.CallConnect None true; WS.SockOpen 0; WS.SockClose 0;
   WS.Fire 2 0%Z true; WS.SockClose 1; WS.Fire 3 0%Z true; WS.SockClose 2;
   WS.Fire 4 0%Z true; WS.SockClose 3; WS.Fire 5 0%Z true; WS.SockClose 4;
   WS.CallConnect None true].

(** A caller whose callbacks all return. *)
Definition attentive : Tts.Options := {|
  Tts.onStart := true; Tts.onStart_again := true;
  Tts.onProgress := fun _ => true; Tts.onProgress_aborts := fun _ => false;
  Tts.onComplete := true;
  Tts.onError := true; Tts.onBlob := true
|}.

(** Responses of the server: an answer, a refusal with a message of its
    own, and an error status. *)
Definition answer : Api.Data :=
  {| Api.code := Some 200%Z; Api.message := Some "ok" |}.
Definition answered : Api.Response :=
  {| Api.ok := true; Api.status := 200; Api.json := Api.JsonValue answer;
     Api.blob := None |}.
Definition refused : Api.Response :=
  {| Api.ok := true; Api.status := 200;
     Api.json := Api.JsonValue
                   {| Api.code := Some 500%Z; Api.message := Some "quota" |};
     Api.blob := None |}.
Definition unavailable : Api.Response :=
  {| Api.ok := false; Api.status := 503; Api.json := Api.NotJson;
     Api.blob := None |}.

End Scenario.

(** * Properties *)

(** ** The dispatcher *)

Section DispatcherFacts.
Import Dispatcher.
Implicit Types (l : list nat) (m : gmap string (list nat)).

Lemma indexOf_from_notin i l (c : nat) :
  c ∉ l -> indexOf_from i l c = (-1)%Z.
Proof.
  revert i. induction l as [|x l IH]; intros i Hc; simpl; [done|].
  apply not_elem_of_cons in Hc as [Hx Hl].
  destruct (decide (x = c)); [congruence | by apply IH].
Qed.

Lemma indexOf_from_first i l1 l2 (c : nat) :
  c ∉ l1 ->
  indexOf_from i (l1 ++ c :: l2) c = (i + Z.of_nat (length l1))%Z.
Proof.
  revert i. induction l1 as [|x l1 IH]; intros i Hc; simpl.
  - destruct (decide (c = c)); [lia | done].
  - apply not_elem_of_cons in Hc as [Hx Hl].
    destruct (decide (x = c)); [congruence|]. rewrite IH by done. lia.
Qed.

Lemma splice1_first l1 l2 (c : nat) :
  splice1 (Z.of_nat (length l1)) (l1 ++ c :: l2) = l1 ++ l2.
Proof.
  unfold splice1. rewrite Nat2Z.id, take_app_length.
  replace (S (length l1)) with (length l1 + 1) by lia.
  rewrite <- drop_drop, drop_app_length. reflexivity.
Qed.

Lemma subscribers_on event (c : nat) m :
  subscribers event (on event c m) = subscribers event m ++ [c].
Proof.
  unfold subscribers, on. destruct (m !! event) as [l|] eqn:E.
  - rewrite lookup_alter_eq, E. reflexivity.
  - rewrite lookup_alter_eq, lookup_insert_eq. reflexivity.
Qed.

Lemma on_other event event' (c : nat) m :
  event' ≠ event -> on event c m !! event' = m !! event'.
Proof.
  intros Hne. unfold on. rewrite lookup_alter_ne by done.
  destruct (m !! event); [done|]. by rewrite lookup_insert_ne.
Qed.

Lemma off_first event (c : nat) m l1 l2 :
  subscribers event m = l1 ++ c :: l2 -> c ∉ l1 ->
  off event c m = <[event := l1 ++ l2]> m.
Proof.
  unfold subscribers, off. intros E Hc.
  destruct (m !! event) as [l|]; simpl in E.
  - subst l. unfold indexOf. rewrite indexOf_from_first by done.
    rewrite Z.add_0_l.
    destruct (Z.gtb_spec (Z.of_nat (length l1)) (-1)); [|lia].
    by rewrite splice1_first.
  - by destruct l1.
Qed.

Lemma off_absent event (c : nat) m :
  c ∉ subscribers event m -> off event c m = m.
Proof.
  unfold subscribers, off. intros Hc.
  destruct (m !! event) as [l|]; simpl in Hc; [|done].
  unfold indexOf. by rewrite indexOf_from_notin.
Qed.

Lemma emit_subscribers event data m :
  emit event data m
  = map (fun c => Invoke c event data) (subscribers event m).
Proof. unfold emit, subscribers. by destruct (m !! event). Qed.

(** C10, as stated, fails: with the subscriber list [1; 2] under
    ["message"], subscribing callback 1 again and unsubscribing it once
    leaves [2; 1], not the original list: [off] removes the earlier
    registration and keeps the new one at the end. *)
Lemma off_after_on_reorders :
  let m : gmap string (list nat) := {[ "message" := [1; 2] ]} in
  subscribers "message" m = [1; 2]
  /\ subscribers "message" (off "message" 1 (on "message" 1 m)) = [2; 1].
Proof. split; reflexivity. Qed.

(** C10, amended.  For every tag and callback: [on] appends the callback
    to the tag's list and leaves other tags alone; [off] removes the
    first matching registration only, so the callback keeps one
    registration fewer than before and [emit] still calls the ones that
    remain; [off] of a callback that is not subscribed to the tag (an
    unknown tag included) leaves the registry unchanged; and [on]
    followed by [off] of the same callback restores the original
    subscriber list whenever the callback was not subscribed to the tag
    before. *)
Theorem on_off_registry event (c : nat) m :
  subscribers event (on event c m) = subscribers event m ++ [c]
  /\ (forall event', event' ≠ event -> on event c m !! event' = m !! event')
  /\ (forall l1 l2, subscribers event m = l1 ++ c :: l2 -> c ∉ l1 ->
        subscribers event (off event c m) = l1 ++ l2
        /\ (forall event', event' ≠ event ->
              off event c m !! event' = m !! event')
        /\ (forall data, emit event data (off event c m)
              = map (fun c' => Invoke c' event data) (l1 ++ l2)))
  /\ (c ∉ subscribers event m -> off event c m = m)
  /\ (c ∉ subscribers event m ->
        subscribers event (off event c (on event c m)) = subscribers event m).
Proof.
  split; [apply subscribers_on|].
  split; [intros; by apply on_other|].
  split.
  - intros l1 l2 E Hc. rewrite (off_first _ _ _ _ _ E Hc).
    assert (Hs : subscribers event (<[event := l1 ++ l2]> m) = l1 ++ l2)
      by (unfold subscribers; by rewrite lookup_insert_eq).
    split; [done|]. split.
    + intros event' Hne. by rewrite lookup_insert_ne.
    + intros data. by rewrite emit_subscribers, Hs.
  - split; [apply off_absent|].
    intros Hc.
    rewrite (off_first event c (on event c m) (subscribers event m) []).
    + unfold subscribers at 1. rewrite lookup_insert_eq. simpl.
      by rewrite app_nil_r.
    + apply subscribers_on.
    + done.
Qed.

(** The theorem at a list that holds callback 1 twice: one [off] takes
    the first registration away and [emit] still calls the second; and at
    a callback that is not subscribed. *)
Lemma on_off_registry_witness :
  let m : gmap string (list nat) := {[ "message" := [1; 2; 1] ]} in
  (subscribers "message" (off "message" 1 m) = [2; 1]
   /\ emit "message" Undefined (off "message" 1 m)
      = [Invoke 2 "message" Undefined; Invoke 1 "message" Undefined])
  /\ off "message" 3 m = m
  /\ subscribers "message" (off "message" 3 (on "message" 3 m)) = [1; 2; 1].
Proof.
  intros m.
  destruct (on_off_registry "message" 1 m) as (_ & _ & H1 & _).
  destruct (on_off_registry "message" 3 m) as (_ & _ & _ & H3 & H4).
  assert (Hn : 3 ∉ subscribers "message" m).
  { unfold subscribers, m. rewrite lookup_singleton_eq. simpl.
    intros H. repeat (apply elem_of_cons in H as [H|H]; [discriminate|]).
    by apply elem_of_nil in H. }
  split.
  - destruct (H1 [] [2; 1]) as (Ha & _ & Hb).
    + reflexivity.
    + apply not_elem_of_nil.
    + split; [exact Ha | exact (Hb Undefined)].
  - split; [exact (H3 Hn) | exact (H4 Hn)].
Defined.


End DispatcherFacts.

(** ** The connection manager *)

Section ManagerFacts.
Import WS.
Implicit Types (w : World) (e : Event) (i id : nat).

(** *** How the primitives act on sockets and timers *)

Lemma socket_state_set_readyState w i r j :
  socket_state (set_readyState i r w) j
  = if decide (i = j) then (fun _ => r) <$> socket_state w i
    else socket_state w j.
Proof.
  unfold socket_state, set_readyState. simpl.
  destruct (decide (i = j)) as [->|Hne].
  - rewrite list_lookup_alter_eq. by destruct (sockets w !! j).
  - by rewrite list_lookup_alter_ne.
Qed.

Lemma isConnected_spec w :
  isConnected w = true
  <-> exists i, ws (this w) = Some i /\ socket_state w i = Some OPEN.
Proof.
  unfold isConnected, ws_readyState. rewrite bool_decide_eq_true.
  destruct (ws (this w)) as [i|]; simpl.
  - split; [eauto | by intros (? & [= <-] & ?)].
  - split; [done | by intros (? & ? & ?)].
Qed.

Lemma live_nil w :
  live w = [] <-> forall i r, socket_state w i = Some r -> r = CLOSED.
Proof.
  unfold live, socket_state. split.
  - intros H i r Hi.
    destruct (sockets w !! i) as [s|] eqn:E; simplify_eq/=.
    destruct (decide (readyState s = CLOSED)) as [|Hne]; [done|].
    exfalso. eapply filter_nil_not_elem_of; [exact H | exact Hne |].
    by eapply list_elem_of_lookup_2.
  - intros H.
    destruct (filter _ (sockets w)) as [|s l] eqn:E; [done|].
    assert (Hin : s ∈ filter (fun s => readyState s ≠ CLOSED) (sockets w))
      by (rewrite E; left).
    apply list_elem_of_filter in Hin as [Hs Hin].
    apply list_elem_of_lookup in Hin as [i Hi].
    destruct Hs. apply (H i). by rewrite Hi.
Qed.

Lemma filter_at_most_one {A} (P : A -> Prop) `{!forall x, Decision (P x)}
    (l : list A) :
  (forall i j x y, l !! i = Some x -> l !! j = Some y -> P x -> P y -> i = j) ->
  length (filter P l) <= 1.
Proof.
  induction l as [|x l IH]; intros HP; [simpl; lia|].
  rewrite filter_cons. destruct (decide (P x)) as [Hx|Hx].
  - destruct (filter P l) as [|y l'] eqn:E; [simpl; lia|].
    assert (Hin : y ∈ filter P l) by (rewrite E; left).
    apply list_elem_of_filter in Hin as [Hy Hin].
    apply list_elem_of_lookup in Hin as [j Hj].
    specialize (HP 0 (S j) x y eq_refl Hj Hx Hy). discriminate.
  - apply IH. intros i j a b Hi Hj Ha Hb.
    specialize (HP (S i) (S j) a b Hi Hj Ha Hb). lia.
Qed.

Lemma coherent_live w : coherent w -> length (live w) <= 1.
Proof.
  intros C. apply filter_at_most_one. intros i j x y Hi Hj Hx Hy.
  apply (one_live _ _ _ _ _ C i j (readyState x) (readyState y));
    by rewrite ?Hi, ?Hj.
Qed.

(** *** The invariant of orderly runs, component by component *)

Lemma state_alter (socks : list Socket) i r j :
  readyState <$>
    alter (fun s => {| sock_url := sock_url s; readyState := r |}) i socks !! j
  = if decide (i = j) then (fun _ => r) <$> socks !! i
    else readyState <$> socks !! j.
Proof.
  destruct (decide (i = j)) as [->|Hne].
  - rewrite list_lookup_alter_eq. by destruct (socks !! j).
  - by rewrite list_lookup_alter_ne.
Qed.

Lemma coherent_opened cur hb socks tm nt i :
  coherent_view cur hb socks tm nt ->
  readyState <$> socks !! i = Some CONNECTING ->
  coherent_view cur (Some nt)
    (alter (fun s => {| sock_url := sock_url s; readyState := OPEN |}) i socks)
    (<[nt := beat]> tm) (S nt).
Proof.
  intros [I1 I2 I3 I4 I5 I6] Hi.
  assert (Hcur : cur = Some i) by (apply I1; by left).
  assert (Hhb : hb = None).
  { destruct hb as [h|]; [|done].
    destruct (proj1 I6) as (j & Hj & Ho); [by eexists|].
    rewrite Hcur in Hj. injection Hj as <-. destruct Ho; congruence. }
  split.
  - intros j Hj. rewrite state_alter in Hj.
    destruct (decide (i = j)) as [<-|]; [done | by apply I1].
  - intros j k rj rk Hj Hk Hlj Hlk. rewrite state_alter in Hj, Hk.
    apply (I2 j k (default rj (readyState <$> socks !! j))
                  (default rk (readyState <$> socks !! k))).
    + destruct (decide (i = j)) as [<-|]; [by rewrite Hi | by rewrite Hj].
    + destruct (decide (i = k)) as [<-|]; [by rewrite Hi | by rewrite Hk].
    + destruct (decide (i = j)) as [<-|]; [by rewrite Hi | by rewrite Hj].
    + destruct (decide (i = k)) as [<-|]; [by rewrite Hi | by rewrite Hk].
  - intros id Hid. rewrite lookup_insert_ne by lia. apply I3. lia.
  - intros id t Ht Hb. destruct (decide (nt = id)) as [<-|Hne].
    + rewrite lookup_insert_eq in Ht. by injection Ht as <-.
    + rewrite lookup_insert_ne in Ht by done.
      destruct (I4 id t Ht Hb) as [? _]. congruence.
  - intros id [= <-]. exists beat. by rewrite lookup_insert_eq.
  - split; [|by eexists]. intros _. exists i. split; [done|]. left.
    rewrite state_alter. destruct (decide (i = i)); [|done].
    destruct (socks !! i); [done | discriminate].
Qed.

(** The closing handshake the server starts on the open socket [i]. *)
Lemma coherent_closing cur hb socks tm nt i :
  coherent_view cur hb socks tm nt ->
  readyState <$> socks !! i = Some OPEN ->
  coherent_view cur hb
    (alter (fun s => {| sock_url := sock_url s; readyState := CLOSING |}) i socks)
    tm nt.
Proof.
  intros [I1 I2 I3 I4 I5 I6] Hi.
  assert (Hcur : cur = Some i) by (apply I1; by right).
  assert (Hnew : forall j r',
    readyState <$> alter (fun s => {| sock_url := sock_url s;
                                       readyState := CLOSING |}) i socks !! j
      = Some r' ->
    (i = j /\ r' = CLOSING)
    \/ (i ≠ j /\ readyState <$> socks !! j = Some r')).
  { intros j r' Hj. rewrite state_alter in Hj.
    destruct (decide (i = j)) as [<-|]; [|by right].
    left. destruct (socks !! i); simplify_eq/=. done. }
  split; try done.
  - intros j [Hj|Hj]; apply Hnew in Hj as [[_ ?]|[_ Hj]]; try done;
      apply I1; eauto.
  - intros j k rj rk Hj Hk Hlj Hlk.
    apply Hnew in Hj as [[<- _]|[Hnj Hj]]; apply Hnew in Hk as [[<- _]|[Hnk Hk]];
      try done.
    + by apply (I2 i k OPEN rk).
    + by apply (I2 j i rj OPEN).
    + by apply (I2 j k rj rk).
  - rewrite I6. split; intros (j & Hj & Ho); exists j; (split; [done|]).
    + destruct (decide (i = j)) as [<-|Hne].
      * right. rewrite state_alter, decide_True by done.
        destruct (socks !! i); [done | discriminate].
      * by rewrite !state_alter, !decide_False.
    + destruct Ho as [Ho|Ho]; apply Hnew in Ho as [[<- _]|[_ Ho]]; auto.
Qed.

Lemma coherent_closed cur hb socks tm nt i r :
  coherent_view cur hb socks tm nt ->
  readyState <$> socks !! i = Some r -> r ≠ CLOSED ->
  coherent_view cur None
    (alter (fun s => {| sock_url := sock_url s; readyState := CLOSED |}) i socks)
    (from_option (fun h => delete h tm) tm hb) nt.
Proof.
  intros [I1 I2 I3 I4 I5 I6] Hi Hr.
  assert (Hnew : forall j r',
    readyState <$> alter (fun s => {| sock_url := sock_url s;
                                       readyState := CLOSED |}) i socks !! j
      = Some r' -> r' ≠ CLOSED ->
    i ≠ j /\ readyState <$> socks !! j = Some r').
  { intros j r' Hj Hr'. rewrite state_alter in Hj.
    destruct (decide (i = j)) as [<-|]; [|done].
    destruct (socks !! i); simplify_eq/=. }
  split.
  - intros j [Hj|Hj]; apply Hnew in Hj as [_ Hj]; try done; apply I1; eauto.
  - intros j k rj rk Hj Hk Hlj Hlk.
    apply Hnew in Hj as [_ Hj]; [|done]. apply Hnew in Hk as [_ Hk]; [|done].
    by apply (I2 j k rj rk).
  - intros id Hid. destruct hb as [h|]; simpl; [|by apply I3].
    destruct (decide (h = id)) as [->|].
    + apply lookup_delete_eq.
    + rewrite lookup_delete_ne by done. by apply I3.
  - intros id t Ht Hb. exfalso. destruct hb as [h|]; simpl in Ht.
    + destruct (decide (h = id)) as [->|Hne].
      * by rewrite lookup_delete_eq in Ht.
      * rewrite lookup_delete_ne in Ht by done.
        destruct (I4 id t Ht Hb) as [? _]. congruence.
    + by destruct (I4 id t Ht Hb).
  - intros id [=].
  - split; [by intros [? [=]]|]. intros (j & Hj & [Ho|Ho]); exfalso.
    + apply Hnew in Ho as [Hne Ho]; [|done].
      apply Hne. by apply (I2 i j r OPEN).
    + apply Hnew in Ho as [Hne Ho]; [|done].
      apply Hne. by apply (I2 i j r CLOSING).
Qed.

Lemma coherent_retry cur hb socks tm nt :
  coherent_view cur hb socks tm nt ->
  coherent_view cur hb socks (<[nt := retry]> tm) (S nt).
Proof.
  intros [I1 I2 I3 I4 I5 I6]. split; try done.
  - intros id Hid. rewrite lookup_insert_ne by lia. apply I3. lia.
  - intros id t Ht Hb. destruct (decide (nt = id)) as [<-|Hne].
    + rewrite lookup_insert_eq in Ht. by injection Ht as <-.
    + rewrite lookup_insert_ne in Ht by done. by apply I4.
  - intros id Hid. destruct (I5 id Hid) as (t & Ht & Hb).
    exists t. split; [|done]. rewrite lookup_insert_ne; [done|].
    intros <-. rewrite I3 in Ht by lia. discriminate.
Qed.

Lemma coherent_unbeaten cur socks tm nt id :
  coherent_view cur None socks tm nt ->
  coherent_view cur None socks (delete id tm) nt.
Proof.
  intros [I1 I2 I3 I4 I5 I6]. split; try done.
  - intros id' Hid. destruct (decide (id = id')) as [->|].
    + apply lookup_delete_eq.
    + rewrite lookup_delete_ne by done. by apply I3.
  - intros id' t Ht Hb. destruct (decide (id = id')) as [->|].
    + by rewrite lookup_delete_eq in Ht.
    + rewrite lookup_delete_ne in Ht by done. by apply I4.
Qed.

Lemma coherent_consumed cur hb socks tm nt id t :
  coherent_view cur hb socks tm nt ->
  tm !! id = Some t -> repeating t = false ->
  coherent_view cur hb socks (delete id tm) nt.
Proof.
  intros [I1 I2 I3 I4 I5 I6] Ht Hrep. split; try done.
  - intros id' Hid. destruct (decide (id = id')) as [->|].
    + apply lookup_delete_eq.
    + rewrite lookup_delete_ne by done. by apply I3.
  - intros id' t' Ht' Hb. destruct (decide (id = id')) as [->|].
    + by rewrite lookup_delete_eq in Ht'.
    + rewrite lookup_delete_ne in Ht' by done. by apply I4.
  - intros h Hh. destruct (I5 h Hh) as (t' & Ht' & Hb).
    exists t'. split; [|done]. rewrite lookup_delete_ne; [done|].
    intros <-. destruct (I4 id t' Ht' Hb) as [_ Hrep']. congruence.
Qed.

Lemma hung_up_state (cur : option nat) (socks : list Socket) j :
  readyState <$> (match cur with
     | Some i =>
         match readyState <$> socks !! i with
         | Some CONNECTING | Some OPEN =>
             alter (fun s => {| sock_url := sock_url s;
                                readyState := CLOSING |}) i socks
         | _ => socks
         end
     | None => socks
     end) !! j
  = match readyState <$> socks !! j with
    | Some CONNECTING | Some OPEN =>
        if decide (cur = Some j) then Some CLOSING
        else readyState <$> socks !! j
    | o => o
    end.
Proof.
  destruct cur as [i|].
  - destruct (decide (i = j)) as [<-|Hne].
    + destruct (socks !! i) as [[u []]|] eqn:E; simpl;
        rewrite ?state_alter, ?E; repeat case_decide; simpl; congruence.
    + assert (Some i ≠ Some j) by congruence.
      destruct (readyState <$> socks !! i) as [[]|];
        rewrite ?state_alter; repeat case_decide; try done;
        by destruct (readyState <$> socks !! j) as [[]|].
  - by destruct (readyState <$> socks !! j) as [[]|].
Qed.

Lemma coherent_hung_up cur hb socks tm nt :
  coherent_view cur hb socks tm nt ->
  coherent_view None None
    (match cur with
     | Some i =>
         match readyState <$> socks !! i with
         | Some CONNECTING | Some OPEN =>
             alter (fun s => {| sock_url := sock_url s;
                                readyState := CLOSING |}) i socks
         | _ => socks
         end
     | None => socks
     end)
    (from_option (fun h => delete h tm) tm hb) nt.
Proof.
  intros [I1 I2 I3 I4 I5 I6].
  assert (Hnew : forall j r',
    readyState <$> (match cur with
     | Some i =>
         match readyState <$> socks !! i with
         | Some CONNECTING | Some OPEN =>
             alter (fun s => {| sock_url := sock_url s;
                                readyState := CLOSING |}) i socks
         | _ => socks
         end
     | None => socks
     end) !! j = Some r' ->
    r' ≠ CLOSED ->
    r' ≠ CONNECTING /\ r' ≠ OPEN
    /\ exists r, readyState <$> socks !! j = Some r /\ r ≠ CLOSED).
  { intros j r' Hj Hr'. rewrite hung_up_state in Hj.
    destruct (readyState <$> socks !! j) as [[]|] eqn:E;
      try (case_decide as Hc; [|exfalso; apply Hc, I1; eauto]);
      simplify_eq/=; repeat split; eauto; try done. }
  split.
  - intros j [Hj|Hj]; apply Hnew in Hj as (? & ? & _); done.
  - intros j k rj rk Hj Hk Hlj Hlk.
    apply Hnew in Hj as (_ & _ & r1 & Hj & ?); [|done].
    apply Hnew in Hk as (_ & _ & r2 & Hk & ?); [|done].
    by apply (I2 j k r1 r2).
  - intros id Hid. destruct hb as [h|]; simpl; [|by apply I3].
    destruct (decide (h = id)) as [->|].
    + apply lookup_delete_eq.
    + rewrite lookup_delete_ne by done. by apply I3.
  - intros id t Ht Hb. exfalso. destruct hb as [h|]; simpl in Ht.
    + destruct (decide (h = id)) as [->|Hne].
      * by rewrite lookup_delete_eq in Ht.
      * rewrite lookup_delete_ne in Ht by done.
        destruct (I4 id t Ht Hb) as [? _]. congruence.
    + by destruct (I4 id t Ht Hb).
  - intros id [=].
  - split; [by intros [? [=]]|]. by intros (j & [=] & _).
Qed.

Lemma coherent_constructed cur hb socks tm nt u :
  coherent_view cur hb socks tm nt ->
  (forall i r, readyState <$> socks !! i = Some r -> r = CLOSED) ->
  coherent_view (Some (length socks)) hb
    (socks ++ [{| sock_url := u; readyState := CONNECTING |}]) tm nt.
Proof.
  intros [I1 I2 I3 I4 I5 I6] Hall.
  assert (Hhb : hb = None).
  { destruct hb as [h|]; [|done].
    destruct (proj1 I6) as (j & Hj & [Ho|Ho]); [by eexists| |].
    - by specialize (Hall j OPEN Ho).
    - by specialize (Hall j CLOSING Ho). }
  assert (Hnew : forall j r',
    readyState <$> (socks ++ [{| sock_url := u; readyState := CONNECTING |}]) !! j
      = Some r' -> r' ≠ CLOSED -> j = length socks /\ r' = CONNECTING).
  { intros j r' Hj Hr'. destruct (decide (j < length socks)) as [Hlt|Hge].
    - rewrite lookup_app_l in Hj by done. by specialize (Hall j r' Hj).
    - rewrite lookup_app_r in Hj by lia.
      destruct (j - length socks) as [|n] eqn:En; simplify_eq/=.
      split; [lia | done]. }
  split; try done.
  - intros j [Hj|Hj]; apply Hnew in Hj as [-> _]; done.
  - intros j k rj rk Hj Hk Hlj Hlk.
    apply Hnew in Hj as [-> _]; [|done]. by apply Hnew in Hk as [-> _].
  - subst hb. split; [by intros [? [=]]|].
    intros (j & [= <-] & [Ho|Ho]); by apply Hnew in Ho as [_ ?].
Qed.

(** *** Every handler keeps the invariant *)

Lemma onopen_coherent w i :
  coherent w -> socket_state w i = Some CONNECTING ->
  coherent (onopen i (set_readyState i OPEN w)).
Proof.
  unfold coherent, socket_state. cbn. apply coherent_opened.
Qed.

Lemma attemptReconnect_coherent w :
  coherent w -> coherent (attemptReconnect w).
Proof.
  unfold coherent, attemptReconnect. case_bool_decide; cbn; [done|].
  apply coherent_retry.
Qed.

Lemma onclose_coherent w i r :
  coherent w -> socket_state w i = Some r -> r ≠ CLOSED ->
  coherent (onclose i (set_readyState i CLOSED w)).
Proof.
  intros C Hi Hr. unfold onclose.
  assert (C' : coherent (emit "close" Undefined
                 (stopHeartbeat (set_readyState i CLOSED w)))).
  { pose proof (coherent_closed _ _ _ _ _ i r C Hi Hr) as C'.
    unfold coherent, stopHeartbeat.
    destruct (heartbeatTimer (this w)) as [h|] eqn:E; cbn; rewrite ?E; cbn;
      rewrite ?E; done. }
  destruct (_ && _); [by apply attemptReconnect_coherent | done].
Qed.

Lemma close_coherent w : coherent w -> coherent (close w).
Proof.
  intros C. pose proof (coherent_hung_up _ _ _ _ _ C) as C'.
  unfold coherent, close, stopHeartbeat, socket_close, socket_state.
  destruct (heartbeatTimer (this w)) as [h|] eqn:Eh; cbn; rewrite ?Eh; cbn;
    destruct (reconnectTimer (this w)) as [rt|] eqn:Er; cbn; rewrite ?Er; cbn;
    destruct (ws (this w)) as [c|] eqn:Ec; cbn; rewrite ?Eh, ?Ec; cbn.
  all: try (destruct (readyState <$> sockets w !! c) as [[]|] eqn:Es; cbn).
  all: simpl in C'; rewrite ?Es in C'; rewrite ?Eh.
  all: first [done | by apply coherent_unbeaten].
Qed.

Lemma all_closed_connected w :
  live w = [] -> isConnected w = false.
Proof.
  intros H. apply not_true_iff_false. intros (i & _ & Ho)%isConnected_spec.
  by specialize (proj1 (live_nil w) H i OPEN Ho).
Qed.

Lemma connect_coherent w path constructs :
  coherent w ->
  (isConnected w = false -> constructs = true -> live w = []) ->
  coherent (connect path constructs w).
Proof.
  intros C H. unfold connect.
  destruct (isConnected w) eqn:E; [done|].
  destruct constructs; [|done].
  unfold coherent; cbn. apply (coherent_constructed _ _ _ _ _ _ C).
  apply live_nil. by apply H.
Qed.

Lemma heartbeat_tick_coherent w now :
  coherent w -> coherent (heartbeat_tick now w).
Proof.
  unfold heartbeat_tick, send. destruct (isConnected w); [|done].
  by destruct (ws (this w)).
Qed.

Lemma clear_timer_connected id w :
  isConnected (clear_timer id w) = isConnected w.
Proof. reflexivity. Qed.

Lemma fire_coherent w id now constructs :
  coherent w -> supersedes w (Fire id now constructs) = false ->
  coherent (fire id now constructs w).
Proof.
  intros C Hs. unfold fire. destruct (timers w !! id) as [t|] eqn:Et; [|done].
  assert (C' : coherent (if repeating t then w else clear_timer id w)).
  { destruct (repeating t) eqn:Er; [done|].
    unfold coherent; cbn. by eapply coherent_consumed. }
  destruct (task t) eqn:Ek.
  - apply connect_coherent; [done|]. intros Hc ->.
    assert (Hc' : isConnected w = false)
      by (destruct (repeating t); exact Hc).
    assert (Hl : live (if repeating t then w else clear_timer id w) = live w)
      by (by destruct (repeating t)).
    rewrite Hl. unfold supersedes, constructs_socket in Hs.
    rewrite Et, Hc' in Hs. simpl in Hs. rewrite Ek in Hs.
    rewrite bool_decide_eq_true_2 in Hs by done. simpl in Hs.
    by apply negb_false_iff, bool_decide_eq_true in Hs.
  - destruct (repeating t); by apply heartbeat_tick_coherent.
Qed.

Lemma step_coherent w e :
  coherent w -> supersedes w e = false -> coherent (step w e).
Proof.
  intros C Hs. destruct e; simpl.
  - apply connect_coherent; [done|]. intros Hc ->.
    unfold supersedes, constructs_socket in Hs. rewrite Hc in Hs. simpl in Hs.
    by apply negb_false_iff, bool_decide_eq_true in Hs.
  - by apply close_coherent.
  - unfold send. destruct (ws (this w)); [|done].
    destruct (isConnected w); [|done]. by destruct (frame_of _ _).
  - done.
  - done.
  - destruct (socket_state w i) as [[]|] eqn:E; try done.
    by apply onopen_coherent.
  - destruct (socket_state w i) as [[]|] eqn:E; try done.
    unfold coherent, socket_state in *. cbn. by apply coherent_closing.
  - by destruct (socket_state w i) as [[]|].
  - destruct (socket_state w i) as [[]|] eqn:E; try done;
      by eapply onclose_coherent.
  - by apply fire_coherent.
Qed.

Lemma init_coherent mode : coherent (init mode).
Proof.
  split; simpl; try done.
  - by intros i [H|H].
  - split; [by intros [? [=]] | by intros (? & [=] & _)].
Qed.

Lemma orderly_coherent w es :
  coherent w -> orderly w es = true -> coherent (run w es).
Proof.
  revert w. induction es as [|e es IH]; intros w C Ho; [done|].
  simpl in Ho. apply andb_true_iff in Ho as [Hs Ho].
  apply negb_true_iff in Hs. simpl. apply IH; [|done].
  by apply step_coherent.
Qed.

Lemma heartbeat_active_spec w :
  heartbeat_active w = true
  <-> exists id t, timers w !! id = Some t /\ task t = HeartbeatTask.
Proof.
  unfold heartbeat_active. rewrite existsb_exists. split.
  - intros ([id t] & Hin & Ht). exists id, t.
    apply list_elem_of_In, elem_of_map_to_list in Hin.
    by apply bool_decide_eq_true in Ht.
  - intros (id & t & Hl & Ht). exists (id, t). split.
    + by apply list_elem_of_In, elem_of_map_to_list.
    + by apply bool_decide_eq_true.
Qed.

Lemma coherent_heartbeat w :
  coherent w ->
  heartbeat_active w = true
  <-> ws_readyState w = Some OPEN \/ ws_readyState w = Some CLOSING.
Proof.
  intros [I1 I2 I3 I4 I5 I6].
  rewrite heartbeat_active_spec.
  assert (R : (ws_readyState w = Some OPEN \/ ws_readyState w = Some CLOSING)
              <-> is_Some (heartbeatTimer (this w))).
  { rewrite I6. unfold ws_readyState, socket_state.
    destruct (ws (this w)) as [i|]; simpl.
    - split; [intros H; by exists i|]. by intros (j & [= <-] & H).
    - split; [by intros [?|?]|]. by intros (j & [=] & _). }
  rewrite R. split.
  - intros (id & t & Ht & Hb). destruct (I4 id t Ht Hb). by eexists.
  - intros [h Hh]. destruct (I5 h Hh) as (t & ? & ?). eauto.
Qed.

(** *** C1: one transport at a time *)

(** C1, as stated, fails: a second [connect()] while the first socket is
    still connecting is not detected; it constructs a second socket and
    both are live. *)
Lemma connect_while_connecting_constructs :
  let w1 := step (init "development") (CallConnect None true) in
  let w2 := step w1 (CallConnect None true) in
  getStatus w1 = "CONNECTING"
  /\ length (live w1) = 1
  /\ length (live w2) = 2.
Proof. vm_compute. done. Qed.

(** C1, amended.  A [connect()] while the connection is open constructs
    nothing and resolves at once.  A [connect()] in any other state
    (while a connect is in progress, too) constructs one new socket,
    which becomes the current one; the earlier socket is left as it is.
    At most one socket is live at any time in every run in which no
    socket is constructed while another one is live. *)
Theorem connect_guards_open_only :
  (forall w path constructs, isConnected w = true ->
     connect path constructs w
     = output [Warn "WebSocket 已连接"; Resolved None] w)
  /\ (forall w path, isConnected w = false ->
       sockets (connect path true w)
       = sockets w ++ [{| sock_url := WS_BASE_URL (WS_CONFIG (mode w)) +:+ path;
                          readyState := CONNECTING |}]
       /\ ws (this (connect path true w)) = Some (length (sockets w)))
  /\ (forall md es, orderly (init md) es = true ->
       length (live (run (init md) es)) <= 1).
Proof.
  split; [|split].
  - intros w path c H. unfold connect. by rewrite H.
  - intros w path H. unfold connect. rewrite H. by cbn.
  - intros md es H. apply coherent_live, orderly_coherent; [|done].
    apply init_coherent.
Qed.

(** The theorem on an open connection, on a fresh manager and on a run
    that reconnects after an unexpected close and is closed by hand. *)
Lemma connect_guards_open_only_witness :
  let w := run (init "development") [CallConnect None true; SockOpen 0] in
  let w0 := init "development" in
  let es := [CallConnect None true; SockOpen 0; SockClose 0;
             Fire 2 0%Z true; SockOpen 1; CallClose; SockClose 1;
             CallConnect (Some "/ws") true] in
  sockets (connect "/ws" true w) = sockets w
  /\ length (sockets (connect "/ws" true w0)) = 1
  /\ length (live (run (init "development") es)) <= 1.
Proof.
  intros w w0 es.
  destruct connect_guards_open_only as (Ha & Hb & Hc).
  split; [|split].
  - rewrite (Ha w "/ws" true); reflexivity.
  - destruct (Hb w0 "/ws") as [-> _]; reflexivity.
  - apply (Hc "development" es). reflexivity.
Defined.

(** *** C8: the heartbeat *)

(** C8, as stated, fails: the manager is closed by hand and connected
    again; the new socket opens and the heartbeat starts; then the close
    event of the old socket arrives and its handler stops the heartbeat
    of the new connection.  The state is open and no heartbeat timer is
    active. *)
Lemma stale_close_stops_heartbeat :
  let w := run (init "development")
             [CallConnect None true; SockOpen 0; CallClose;
              CallConnect None true; SockOpen 1; SockClose 0] in
  getStatus w = "OPEN"
  /\ isConnected w = true
  /\ heartbeatTimer (this w) = None
  /\ heartbeat_active w = false.
Proof. vm_compute. done. Qed.

Lemma stopHeartbeat_handle w : heartbeatTimer (this (stopHeartbeat w)) = None.
Proof.
  unfold stopHeartbeat. by destruct (heartbeatTimer (this w)) eqn:E.
Qed.

Lemma stopHeartbeat_timer w h :
  heartbeatTimer (this w) = Some h -> timers (stopHeartbeat w) !! h = None.
Proof.
  intros E. unfold stopHeartbeat. rewrite E. cbn. apply lookup_delete_eq.
Qed.

Lemma attemptReconnect_beat w h :
  task <$> timers w !! h ≠ Some HeartbeatTask ->
  heartbeatTimer (this (attemptReconnect w)) = heartbeatTimer (this w)
  /\ task <$> timers (attemptReconnect w) !! h ≠ Some HeartbeatTask.
Proof.
  intros H. unfold attemptReconnect. case_bool_decide; cbn; [done|].
  split; [done|]. destruct (decide (next_timer w = h)) as [<-|].
  - by rewrite lookup_insert_eq.
  - by rewrite lookup_insert_ne.
Qed.

Lemma close_handle w : heartbeatTimer (this (close w)) = None.
Proof.
  unfold close, stopHeartbeat, socket_close.
  destruct (heartbeatTimer (this w)) eqn:Eh; cbn; rewrite ?Eh; cbn;
    destruct (reconnectTimer (this w)); cbn;
    destruct (ws (this w)); cbn; rewrite ?Eh; try done;
    by destruct (socket_state _ _) as [[]|].
Qed.

Lemma onclose_handle w i : heartbeatTimer (this (onclose i w)) = None.
Proof.
  unfold onclose, attemptReconnect.
  pose proof (stopHeartbeat_handle w) as H.
  destruct (_ && _); [|done]. case_bool_decide; done.
Qed.

(** When the invariant of orderly runs holds and the handle is not set,
    no heartbeat interval is scheduled. *)
Lemma coherent_unhandled w :
  coherent w -> heartbeatTimer (this w) = None -> heartbeat_active w = false.
Proof.
  intros [I1 I2 I3 I4 I5 I6] H. apply not_true_iff_false.
  rewrite heartbeat_active_spec. intros (id & t & Ht & Hb).
  destruct (I4 id t Ht Hb) as [E _]. congruence.
Qed.

(** C8, amended.  In every run in which no socket is constructed while
    another one is live: a heartbeat timer is active if and only if the
    current socket is open or in a closing handshake that the server
    started (so it is active whenever the connection is open), and no
    heartbeat timer is active after [close()] or after the close event
    of a socket.  In any state: an open event starts the timer with the
    fixed interval of 30000 ms; each tick sends a ping-tagged message
    with the clock reading over the current socket if that socket is
    open and nothing otherwise; [close()] and the close event of a
    socket clear the handle and the timer it names.  They clear no
    other timer: when two sockets were constructed one over the other
    and both opened, the second [startHeartbeat] has overwritten the
    handle of the first interval, which stays active after
    [close()]. *)
Theorem heartbeat_while_open :
  (forall md es, orderly (init md) es = true ->
     let w := run (init md) es in
     (heartbeat_active w = true
      <-> ws_readyState w = Some OPEN \/ ws_readyState w = Some CLOSING)
     /\ (isConnected w = true -> heartbeat_active w = true)
     /\ heartbeat_active (step w CallClose) = false
     /\ (forall i r, socket_state w i = Some r -> r ≠ CLOSED ->
           heartbeat_active (step w (SockClose i)) = false))
  /\ (forall w i, socket_state w i = Some CONNECTING ->
       heartbeatTimer (this (step w (SockOpen i))) = Some (next_timer w)
       /\ timers (step w (SockOpen i)) !! next_timer w = Some beat
       /\ delay beat = 30000%Z /\ repeating beat = true)
  /\ (forall w id now constructs i,
       timers w !! id = Some beat -> ws (this w) = Some i ->
       step w (Fire id now constructs)
       = if isConnected w then output [Transmit i PING now] w else w)
  /\ (forall w h, heartbeatTimer (this w) = Some h ->
       heartbeatTimer (this (step w CallClose)) = None
       /\ task <$> timers (step w CallClose) !! h ≠ Some HeartbeatTask)
  /\ (forall w i r h,
       socket_state w i = Some r -> r ≠ CLOSED ->
       heartbeatTimer (this w) = Some h ->
       heartbeatTimer (this (step w (SockClose i))) = None
       /\ task <$> timers (step w (SockClose i)) !! h ≠ Some HeartbeatTask)
  /\ (let w := run (init "development")
                 [CallConnect None true; CallConnect None true;
                  SockOpen 0; SockOpen 1; CallClose] in
      heartbeatTimer (this w) = None /\ heartbeat_active w = true).
Proof.
  split; [|split; [|split; [|split; [|split]]]].
  - intros md es H.
    assert (C : coherent (run (init md) es))
      by (apply orderly_coherent; [apply init_coherent | done]).
    cbn zeta. split; [by apply coherent_heartbeat|]. split; [|split].
    + intros Hc. apply coherent_heartbeat; [done|]. left.
      unfold isConnected in Hc. by apply bool_decide_eq_true in Hc.
    + apply coherent_unhandled; [by apply step_coherent|].
      apply close_handle.
    + intros i r Hi Hr. apply coherent_unhandled; [by apply step_coherent|].
      simpl. rewrite Hi. destruct r; try done; apply onclose_handle.
  - intros w i H. simpl. rewrite H. cbn.
    by rewrite lookup_insert_eq.
  - intros w id now c i Ht Hi. simpl. unfold fire. rewrite Ht. cbn.
    unfold heartbeat_tick, send. rewrite Hi.
    by destruct (isConnected w).
  - intros w h Hh. simpl.
    unfold close, stopHeartbeat, socket_close, socket_state. cbn.
    rewrite Hh. cbn.
    destruct (reconnectTimer (this w)) as [rt|] eqn:Er; cbn;
      destruct (ws (this w)) as [c|] eqn:Ec; cbn;
      try (destruct (readyState <$> sockets w !! c) as [[]|]; cbn);
      (split; [done|]);
      try (destruct (decide (rt = h)) as [->|];
           [rewrite lookup_delete_eq | rewrite lookup_delete_ne by done]);
      by rewrite ?lookup_delete_eq.
  - intros w i r h Hi Hr Hh. simpl. rewrite Hi.
    assert (Hstep : (match r with
                     | CLOSED => w
                     | _ => onclose i (set_readyState i CLOSED w)
                     end) = onclose i (set_readyState i CLOSED w))
      by (by destruct r).
    rewrite Hstep. clear Hstep. unfold onclose.
    set (w1 := emit "close" Undefined
                 (stopHeartbeat (set_readyState i CLOSED w))).
    assert (H1 : heartbeatTimer (this w1) = None)
      by apply stopHeartbeat_handle.
    assert (H2 : task <$> timers w1 !! h ≠ Some HeartbeatTask).
    { unfold w1. cbn. by rewrite stopHeartbeat_timer. }
    destruct (_ && _); [|done].
    destruct (attemptReconnect_beat w1 h H2) as [-> ?]. done.
  - by vm_compute.
Qed.

(** The theorem on a run that reconnects after an unexpected close, and
    on the same run after the server has started to close the
    connection. *)
Lemma heartbeat_while_open_witness :
  let es := [CallConnect None true; SockOpen 0; SockClose 0;
             Fire 2 0%Z true; SockOpen 1] in
  let w0 := run (init "development") [CallConnect None true] in
  let w1 := run (init "development") es in
  let w2 := run (init "development") (es ++ [SockClosing 1]) in
  heartbeat_active w1 = true
  /\ (getStatus w2 = "CLOSING" /\ heartbeat_active w2 = true)
  /\ heartbeat_active (step w1 CallClose) = false
  /\ heartbeat_active (step w2 (SockClose 1)) = false
  /\ heartbeatTimer (this (step w0 (SockOpen 0))) = Some 1
  /\ step w1 (Fire 3 77%Z true) = output [Transmit 1 PING 77%Z] w1
  /\ step w2 (Fire 3 78%Z true) = w2
  /\ heartbeatTimer (this (step w1 CallClose)) = None
  /\ heartbeatTimer (this (step w1 (SockClose 1))) = None.
Proof.
  intros es w0 w1 w2.
  destruct heartbeat_while_open as (Ha & Hb & Hc & Hd & He & _).
  destruct (Ha "development" es) as (_ & A2 & A3 & _); [by vm_compute|].
  destruct (Ha "development" (es ++ [SockClosing 1])) as (B1 & _ & _ & B4);
    [by vm_compute|].
  split; [apply A2; by vm_compute|].
  split; [split; [by vm_compute | apply B1; right; by vm_compute]|].
  split; [exact A3|].
  split; [apply (B4 1 CLOSING); [by vm_compute | discriminate]|].
  split; [apply (Hb w0 0); by vm_compute|].
  split; [apply (Hc w1 3 77%Z true 1); by vm_compute|].
  split; [rewrite (Hc w2 3 78%Z true 1); by vm_compute|].
  split; [apply (Hd w1 3); by vm_compute|].
  apply (He w1 1 OPEN 3); [by vm_compute | discriminate | by vm_compute].
Defined.

(** *** C7: reconnection *)

Lemma sound_init md : sound (init md).
Proof. by split. Qed.

Lemma sound_output o w : sound w -> sound (output o w).
Proof. by intros [S1 S2 S3]. Qed.

Lemma sound_startHeartbeat w : sound w -> sound (startHeartbeat w).
Proof.
  intros [S1 S2 S3]. unfold timers_fresh in *. split; unfold timers_fresh; cbn.
  - intros id Hid. rewrite lookup_insert_ne by lia. apply S1. lia.
  - intros h t [= <-]. rewrite lookup_insert_eq. by intros [= <-].
  - intros h [= <-]. lia.
Qed.

Lemma sound_stopHeartbeat w : sound w -> sound (stopHeartbeat w).
Proof.
  intros S. unfold stopHeartbeat.
  destruct (heartbeatTimer (this w)) as [h|] eqn:E; [|done].
  destruct S as [S1 S2 S3].
  split; unfold timers_fresh in *; cbn; try done.
  intros id Hid. destruct (decide (h = id)) as [->|].
  - apply lookup_delete_eq.
  - rewrite lookup_delete_ne by done. by apply S1.
Qed.

Lemma sound_clear_timer id w : sound w -> sound (clear_timer id w).
Proof.
  intros [S1 S2 S3]. split; unfold timers_fresh in *; cbn; try done.
  - intros id' Hid. destruct (decide (id = id')) as [->|].
    + apply lookup_delete_eq.
    + rewrite lookup_delete_ne by done. by apply S1.
  - intros h t Hh Ht. destruct (decide (id = h)) as [->|].
    + by rewrite lookup_delete_eq in Ht.
    + rewrite lookup_delete_ne in Ht by done. by eapply S2.
Qed.

Lemma sound_attemptReconnect w : sound w -> sound (attemptReconnect w).
Proof.
  intros S. unfold attemptReconnect.
  case_bool_decide; [by apply sound_output|]. destruct S as [S1 S2 S3].
  split; unfold timers_fresh in *; cbn.
  - intros id Hid. rewrite lookup_insert_ne by lia. apply S1. lia.
  - intros h t Hh Ht. specialize (S3 h Hh).
    rewrite lookup_insert_ne in Ht by lia. by eapply S2.
  - intros h Hh. specialize (S3 h Hh). lia.
Qed.

Lemma sound_sockets l w : sound w -> sound (set_sockets l w).
Proof. by intros [S1 S2 S3]. Qed.

Lemma sound_update f w :
  heartbeatTimer (f (this w)) = heartbeatTimer (this w) ->
  sound w -> sound (update f w).
Proof.
  intros H [S1 S2 S3]. split; unfold timers_fresh in *; cbn; rewrite ?H; done.
Qed.

Lemma sound_connect path constructs w :
  sound w -> sound (connect path constructs w).
Proof.
  intros S. unfold connect. destruct (isConnected w); [by apply sound_output|].
  destruct constructs.
  - apply sound_update; [done|]. apply sound_sockets.
    by repeat (apply sound_update; [done|]).
  - apply sound_output. by repeat (apply sound_update; [done|]).
Qed.

Lemma sound_step w e : sound w -> sound (step w e).
Proof.
  intros S. destruct e; simpl.
  - by apply sound_connect.
  - unfold close.
    set (w1 := stopHeartbeat (update (set_isManualClose true) w)).
    assert (S1 : sound w1)
      by (apply sound_stopHeartbeat; by apply sound_update).
    set (w2 := match reconnectTimer (this w1) with
               | Some id => clear_timer id w1 | None => w1 end).
    assert (S2 : sound w2).
    { unfold w2. destruct (reconnectTimer (this w1)); [|done].
      by apply sound_clear_timer. }
    destruct (ws (this w2)); [|done].
    apply sound_update; [done|]. unfold socket_close.
    destruct (socket_state w2 n) as [[]|]; try done; by apply sound_sockets.
  - unfold send. destruct (ws (this w)); [|done].
    destruct (isConnected w); [|done].
    destruct (frame_of _ _); [|done]. by apply sound_output.
  - by apply sound_update.
  - by apply sound_update.
  - destruct (socket_state w i) as [[]|]; try done. unfold onopen.
    apply sound_output, sound_output, sound_startHeartbeat.
    apply sound_update; [done|]. by apply sound_sockets.
  - destruct (socket_state w i) as [[]|]; try done. by apply sound_sockets.
  - destruct (socket_state w i) as [[]|]; try done;
      by apply sound_output, sound_output.
  - assert (sound (onclose i (set_readyState i CLOSED w))).
    { unfold onclose.
      assert (sound (emit "close" Undefined
                 (stopHeartbeat (set_readyState i CLOSED w))))
        by (by apply sound_output, sound_stopHeartbeat, sound_sockets).
      destruct (_ && _); [|done]. by apply sound_attemptReconnect. }
    by destruct (socket_state w i) as [[]|].
  - unfold fire. destruct (timers w !! id) as [t|]; [|done].
    assert (sound (if repeating t then w else clear_timer id w))
      by (destruct (repeating t); [done | by apply sound_clear_timer]).
    destruct (task t).
    + by apply sound_connect.
    + unfold heartbeat_tick, send.
      destruct (repeating t); destruct (isConnected _); try done;
        destruct (ws _); try done; cbn; by apply sound_output.
Qed.

Lemma sound_run w es : sound w -> sound (run w es).
Proof.
  revert w. induction es as [|e es IH]; intros w S; [done|].
  simpl. by apply IH, sound_step.
Qed.

Lemma reconnects_spec w id t :
  reconnects w !! id = Some t
  <-> timers w !! id = Some t /\ task t = ReconnectTask.
Proof. unfold reconnects. by rewrite map_lookup_filter_Some. Qed.

Lemma reconnects_empty w :
  reconnects w = ∅
  <-> forall id t, timers w !! id = Some t -> task t ≠ ReconnectTask.
Proof.
  rewrite map_empty. split.
  - intros H id t Ht Hk.
    specialize (H id). by rewrite (proj2 (reconnects_spec w id t)) in H.
  - intros H id. destruct (reconnects w !! id) as [t|] eqn:E; [|done].
    apply reconnects_spec in E as [Ht Hk]. by destruct (H id t).
Qed.

Lemma reconnects_fresh w :
  timers_fresh w -> reconnects w !! next_timer w = None.
Proof.
  intros F. destruct (reconnects w !! next_timer w) as [t|] eqn:E; [|done].
  apply reconnects_spec in E as [Ht _]. rewrite F in Ht; [done | lia].
Qed.

Lemma stopHeartbeat_reconnects w :
  sound w -> reconnects (stopHeartbeat w) = reconnects w.
Proof.
  intros [S1 S2 S3]. unfold stopHeartbeat.
  destruct (heartbeatTimer (this w)) as [h|] eqn:E; [|done].
  unfold reconnects. cbn. apply map_filter_delete_not.
  intros t Ht Hk. simpl in Hk. specialize (S2 h t eq_refl Ht). congruence.
Qed.

(** What an unexpected close leaves behind, before [attemptReconnect]. *)
Lemma onclose_prefix w i :
  sound w ->
  let w1 := emit "close" Undefined (stopHeartbeat (set_readyState i CLOSED w)) in
  reconnectCount (this w1) = reconnectCount (this w)
  /\ isManualClose (this w1) = isManualClose (this w)
  /\ callbacks (this w1) = callbacks (this w)
  /\ next_timer w1 = next_timer w
  /\ reconnects w1 = reconnects w
  /\ out w1 = out w ++ Dispatcher.emit "close" Undefined (callbacks (this w)).
Proof.
  intros S. cbn zeta.
  assert (S' : sound (set_readyState i CLOSED w)) by (by apply sound_sockets).
  pose proof (stopHeartbeat_reconnects _ S') as Hr.
  unfold stopHeartbeat in *. cbn in *.
  destruct (heartbeatTimer (this w)); cbn in *; by rewrite ?Hr.
Qed.

Lemma step_reconnectCount w e :
  reconnectCount (this (step w e)) < reconnectCount (this w) ->
  exists i, e = SockOpen i /\ socket_state w i = Some CONNECTING
            /\ reconnectCount (this (step w e)) = 0.
Proof.
  destruct e; simpl.
  - unfold connect. destruct (isConnected w); cbn; [lia|].
    destruct constructs; cbn; lia.
  - unfold close, stopHeartbeat, socket_close. cbn.
    destruct (heartbeatTimer (this w)); cbn;
      destruct (reconnectTimer (this w)); cbn;
      destruct (ws (this w)); cbn; try lia;
      destruct (socket_state _ _) as [[]|]; cbn; lia.
  - unfold send. destruct (ws (this w)); cbn; [|lia].
    destruct (isConnected w); cbn; [|lia].
    destruct (frame_of _ _); cbn; lia.
  - cbn. lia.
  - cbn. lia.
  - destruct (socket_state w i) as [[]|] eqn:E; try lia. eauto.
  - destruct (socket_state w i) as [[]|]; cbn; lia.
  - destruct (socket_state w i) as [[]|]; cbn; lia.
  - assert (reconnectCount (this w)
            <= reconnectCount (this (onclose i (set_readyState i CLOSED w)))).
    { unfold onclose, stopHeartbeat, attemptReconnect. cbn.
      destruct (heartbeatTimer (this w)); cbn;
        destruct (negb (isManualClose (this w))); cbn; try lia;
        case_bool_decide; cbn; lia. }
    destruct (socket_state w i) as [[]|]; lia.
  - unfold fire. destruct (timers w !! id) as [t|]; [|lia].
    destruct (task t).
    + unfold connect.
      destruct (repeating t); destruct (isConnected _); cbn; try lia;
        destruct constructs; cbn; lia.
    + unfold heartbeat_tick, send.
      destruct (repeating t); destruct (isConnected _); cbn; try lia;
        destruct (ws (this w)); cbn; lia.
Qed.

Lemma exhausted_output o w : exhausted w -> exhausted (output o w).
Proof. by intros [E1 E2 E3]. Qed.

Lemma exhausted_clear_timer id w : exhausted w -> exhausted (clear_timer id w).
Proof.
  intros [E1 E2 E3]. split; try done.
  unfold reconnects in *. cbn. by rewrite map_filter_delete, E2, delete_empty.
Qed.

Lemma exhausted_stopHeartbeat w : exhausted w -> exhausted (stopHeartbeat w).
Proof.
  intros E. unfold stopHeartbeat.
  destruct (heartbeatTimer (this w)) as [h|]; [|done].
  destruct (exhausted_clear_timer h w E) as [E1 E2 E3]. by split.
Qed.

Lemma exhausted_set_readyState i r w :
  r ≠ CONNECTING -> exhausted w -> exhausted (set_readyState i r w).
Proof.
  intros Hr [E1 E2 E3]. split; try done.
  intros j. rewrite socket_state_set_readyState.
  destruct (decide (i = j)); [|done].
  destruct (socket_state w i); simpl; congruence.
Qed.

Lemma exhausted_attemptReconnect w :
  exhausted w ->
  attemptReconnect w
  = emit "reconnectFailed" Undefined w.
Proof.
  intros [E1 E2 E3]. unfold attemptReconnect.
  by rewrite bool_decide_eq_true_2.
Qed.

Lemma exhausted_step w e :
  exhausted w -> is_CallConnect e = false -> exhausted (step w e).
Proof.
  intros E He. destruct e; simpl; try done.
  - unfold close.
    set (w1 := stopHeartbeat (update (set_isManualClose true) w)).
    assert (X1 : exhausted w1).
    { apply exhausted_stopHeartbeat. by destruct E. }
    set (w2 := match reconnectTimer (this w1) with
               | Some id => clear_timer id w1 | None => w1 end).
    assert (X2 : exhausted w2).
    { unfold w2. destruct (reconnectTimer (this w1)); [|done].
      by apply exhausted_clear_timer. }
    destruct (ws (this w2)) as [c|]; [|done].
    assert (X3 : exhausted (socket_close c w2)).
    { unfold socket_close. destruct (socket_state w2 c) as [[]|]; try done;
        by apply exhausted_set_readyState. }
    by destruct X3.
  - unfold send. destruct (ws (this w)); [|done].
    destruct (isConnected w); [|done].
    destruct (frame_of _ _); [|done]. by apply exhausted_output.
  - by destruct E.
  - by destruct E.
  - destruct (socket_state w i) as [[]|] eqn:Ei; try done.
    by destruct (none_connecting w E i).
  - destruct (socket_state w i) as [[]|]; try done.
    by apply exhausted_set_readyState.
  - destruct (socket_state w i) as [[]|]; try done;
      by apply exhausted_output, exhausted_output.
  - assert (exhausted (onclose i (set_readyState i CLOSED w))).
    { unfold onclose.
      assert (X : exhausted (emit "close" Undefined
                 (stopHeartbeat (set_readyState i CLOSED w)))).
      { apply exhausted_output, exhausted_stopHeartbeat.
        by apply exhausted_set_readyState. }
      destruct (_ && _); [|done].
      rewrite exhausted_attemptReconnect by done. by apply exhausted_output. }
    by destruct (socket_state w i) as [[]|].
  - unfold fire. destruct (timers w !! id) as [t|] eqn:Et; [|done].
    destruct (task t) eqn:Ek.
    + exfalso. by apply (proj1 (reconnects_empty w) (none_pending w E) id t).
    + assert (exhausted (if repeating t then w else clear_timer id w))
        by (destruct (repeating t); [done | by apply exhausted_clear_timer]).
      unfold heartbeat_tick, send.
      destruct (repeating t); destruct (isConnected _); try done;
        destruct (ws _); try done; cbn; by apply exhausted_output.
Qed.

Lemma exhausted_run w es :
  exhausted w -> Forall (fun e => is_CallConnect e = false) es ->
  exhausted (run w es).
Proof.
  intros E H. revert w E. induction H as [|e es He H IH]; intros w E; [done|].
  simpl. by apply IH, exhausted_step.
Qed.

(** *** Single-track runs *)

Lemma single_altered socks tm i r r' :
  single_view socks tm ->
  readyState <$> socks !! i = Some r -> r ≠ CLOSED ->
  single_view
    (alter (fun s => {| sock_url := sock_url s; readyState := r' |}) i socks)
    tm.
Proof.
  intros [S1 S2 S3 S4] Hi Hr. split.
  - intros a b ra rb. rewrite !state_alter. intros Ha Hb Hra Hrb.
    transitivity i.
    + destruct (decide (i = a)) as [->|]; [done|]. eapply S1; eauto.
    + destruct (decide (i = b)) as [->|]; [done|]. eapply S1; eauto.
  - done.
  - intros a ra id t. rewrite state_alter. intros Ha Hra.
    destruct (decide (i = a)) as [->|]; eauto.
  - done.
Qed.

Lemma single_deleted socks tm id :
  single_view socks tm -> single_view socks (delete id tm).
Proof.
  intros [S1 S2 S3 S4]. split; [done| | |].
  - intros a b t t' Ha Hb.
    apply lookup_delete_Some in Ha as [_ Ha].
    apply lookup_delete_Some in Hb as [_ Hb]. eauto.
  - intros a ra b t Ha Hra Hb. apply lookup_delete_Some in Hb as [_ Hb]. eauto.
  - intros a t Ha. apply lookup_delete_Some in Ha as [_ Ha]. eauto.
Qed.

Lemma single_beaten socks tm id t :
  single_view socks tm -> task t = HeartbeatTask ->
  single_view socks (<[id := t]> tm).
Proof.
  intros [S1 S2 S3 S4] Ht. split; [done| | |].
  - intros a b ta tb Ha Hb Hta Htb.
    apply lookup_insert_Some in Ha as [[_ <-]|[_ Ha]]; [congruence|].
    apply lookup_insert_Some in Hb as [[_ <-]|[_ Hb]]; [congruence|]. eauto.
  - intros a ra b tb Ha Hra Hb.
    apply lookup_insert_Some in Hb as [[_ <-]|[_ Hb]]; [congruence|]. eauto.
  - intros a ta Ha.
    apply lookup_insert_Some in Ha as [[_ <-]|[_ Ha]]; [congruence|]. eauto.
Qed.

Lemma single_idle socks tm : idle socks tm -> single_view socks tm.
Proof.
  intros [H1 H2]. split.
  - intros i j ri rj Hi _ Hri. by specialize (H1 i ri Hi).
  - intros a b t t' Ha _ Hta. by specialize (H2 a t Ha).
  - intros i r id' t' Hi Hr. by specialize (H1 i r Hi).
  - intros a t Ha Hta. by specialize (H2 a t Ha).
Qed.

Lemma single_retried socks tm id :
  idle socks tm -> single_view socks (<[id := retry]> tm).
Proof.
  intros [H1 H2]. split.
  - intros i j ri rj Hi _ Hri. by specialize (H1 i ri Hi).
  - intros a b ta tb Ha Hb Hta Htb.
    apply lookup_insert_Some in Ha as [[<- _]|[_ Ha]];
      [|by specialize (H2 a ta Ha)].
    apply lookup_insert_Some in Hb as [[<- _]|[_ Hb]]; [done|].
    by specialize (H2 b tb Hb).
  - intros i r id' t' Hi Hr. by specialize (H1 i r Hi).
  - intros a ta Ha Hta.
    apply lookup_insert_Some in Ha as [[_ <-]|[_ Ha]]; [done|].
    by specialize (H2 a ta Ha).
Qed.

Lemma single_constructed socks tm u :
  idle socks tm ->
  single_view (socks ++ [{| sock_url := u; readyState := CONNECTING |}])%list tm.
Proof.
  intros [H1 H2]. split.
  - intros i j ri rj Hi Hj Hri Hrj.
    assert (L : forall k rk,
              readyState <$> (socks ++ [{| sock_url := u;
                                            readyState := CONNECTING |}])%list !! k
              = Some rk -> rk ≠ CLOSED -> k = length socks).
    { intros k rk Hk Hrk.
      destruct (decide (k < length socks)) as [Hlt|Hge].
      - rewrite lookup_app_l in Hk by done. by specialize (H1 k rk Hk).
      - destruct (decide (k = length socks)) as [|Hne]; [done|].
        rewrite lookup_ge_None_2 in Hk; [done|].
        rewrite length_app. simpl. lia. }
    rewrite (L i ri Hi Hri). by rewrite (L j rj Hj Hrj).
  - intros a b t t' Ha _ Hta. by specialize (H2 a t Ha).
  - intros i r id t _ _ Ht. by apply (H2 id t).
  - intros a t Ha Hta. by specialize (H2 a t Ha).
Qed.

(** After the close event of a live socket nothing is live, and nothing
    was pending. *)
Lemma idle_closed socks tm i r :
  single_view socks tm ->
  readyState <$> socks !! i = Some r -> r ≠ CLOSED ->
  idle (alter (fun s => {| sock_url := sock_url s; readyState := CLOSED |})
              i socks) tm.
Proof.
  intros [S1 S2 S3 S4] Hi Hr. split.
  - intros a ra. rewrite state_alter.
    destruct (decide (i = a)) as [->|Hne].
    + destruct (socks !! a); [by intros [= <-] | done].
    + intros Ha. destruct (decide (ra = CLOSED)) as [|Hra]; [done|].
      by specialize (S1 i a r ra Hi Ha Hr Hra).
  - intros id t. by apply (S3 i r).
Qed.

(** When a pending attempt comes due nothing is live, and without it
    nothing is pending. *)
Lemma idle_consumed socks tm id t :
  single_view socks tm -> tm !! id = Some t -> task t = ReconnectTask ->
  idle socks (delete id tm).
Proof.
  intros [S1 S2 S3 S4] Ht Hk. split.
  - intros i r Hi. destruct (decide (r = CLOSED)) as [|Hr]; [done|].
    by specialize (S3 i r id t Hi Hr Ht).
  - intros a ta Ha Hta. apply lookup_delete_Some in Ha as [Hne Ha].
    by specialize (S2 id a t ta Ht Ha Hk Hta).
Qed.

Lemma idle_deleted socks tm id : idle socks tm -> idle socks (delete id tm).
Proof.
  intros [H1 H2]. split; [done|]. intros a t Ha.
  apply lookup_delete_Some in Ha as [_ Ha]. eauto.
Qed.

Lemma idle_spec w :
  idle (sockets w) (timers w) <-> live w = [] /\ reconnects w = ∅.
Proof. unfold idle. by rewrite live_nil, reconnects_empty. Qed.

Lemma stopHeartbeat_single w : single w -> single (stopHeartbeat w).
Proof.
  unfold single, stopHeartbeat. destruct (heartbeatTimer (this w)); [|done].
  cbn. apply single_deleted.
Qed.

Lemma stopHeartbeat_idle w :
  idle (sockets w) (timers w) ->
  idle (sockets (stopHeartbeat w)) (timers (stopHeartbeat w)).
Proof.
  unfold stopHeartbeat. destruct (heartbeatTimer (this w)); [|done].
  cbn. apply idle_deleted.
Qed.

Lemma connect_single w path constructs :
  single w ->
  (isConnected w = false -> constructs = true -> idle (sockets w) (timers w)) ->
  single (connect path constructs w).
Proof.
  intros S H. unfold connect. destruct (isConnected w); [done|].
  destruct constructs; [|done].
  unfold single. cbn. by apply single_constructed, H.
Qed.

Lemma close_single w : single w -> single (close w).
Proof.
  intros S. unfold close.
  set (w1 := stopHeartbeat (update (set_isManualClose true) w)).
  assert (S1 : single w1) by (by apply stopHeartbeat_single).
  clearbody w1.
  set (w2 := match reconnectTimer (this w1) with
             | Some id => clear_timer id w1
             | None => w1
             end).
  assert (S2 : single w2).
  { unfold w2. destruct (reconnectTimer (this w1)); [|done].
    unfold single. cbn. by apply single_deleted. }
  clearbody w2. destruct (ws (this w2)) as [i|]; [|done].
  unfold single, socket_close, socket_state. cbn.
  destruct (readyState <$> sockets w2 !! i) as [[]|] eqn:E; try done; cbn;
    by eapply single_altered.
Qed.

Lemma onopen_single w i r :
  single w -> socket_state w i = Some r -> r ≠ CLOSED ->
  single (onopen i (set_readyState i OPEN w)).
Proof.
  intros S Hi Hr. unfold single, onopen. cbn.
  apply single_beaten; [|done]. by eapply single_altered.
Qed.

Lemma onclose_single w i r :
  single w -> socket_state w i = Some r -> r ≠ CLOSED ->
  single (onclose i (set_readyState i CLOSED w)).
Proof.
  intros S Hi Hr. unfold onclose.
  set (w1 := emit "close" Undefined
               (stopHeartbeat (set_readyState i CLOSED w))).
  assert (I : idle (sockets w1) (timers w1)).
  { apply (stopHeartbeat_idle (set_readyState i CLOSED w)). cbn.
    by eapply idle_closed. }
  clearbody w1. destruct (_ && _); [|by apply single_idle].
  unfold attemptReconnect. case_bool_decide; [by apply single_idle|].
  unfold single. cbn. by apply single_retried.
Qed.

Lemma fire_single w id now constructs :
  single w -> single (fire id now constructs w).
Proof.
  intros S. unfold fire. destruct (timers w !! id) as [t|] eqn:Et; [|done].
  destruct (task t) eqn:Ek.
  - rewrite (sv_once _ _ S id t Et Ek).
    apply connect_single; [unfold single; cbn; by apply single_deleted|].
    intros _ _. cbn. by eapply idle_consumed.
  - assert (S' : single (if repeating t then w else clear_timer id w)).
    { destruct (repeating t); [done|].
      unfold single; cbn. by apply single_deleted. }
    unfold heartbeat_tick, send.
    destruct (isConnected _); [|done]. by destruct (ws (this _)).
Qed.

Lemma step_single w e :
  single w -> doubles w e = false -> single (step w e).
Proof.
  intros S Hd. destruct e; simpl.
  - apply connect_single; [done|]. intros Hc ->.
    unfold doubles in Hd. rewrite Hc in Hd. simpl in Hd.
    apply negb_false_iff, andb_true_iff in Hd as [H1 H2].
    apply bool_decide_eq_true in H1, H2.
    apply idle_spec. split; [done|]. by apply map_to_list_empty_iff.
  - by apply close_single.
  - unfold send. destruct (ws (this w)); [|done].
    destruct (isConnected w); [|done]. by destruct (frame_of _ _).
  - done.
  - done.
  - destruct (socket_state w i) as [[]|] eqn:E; try done.
    by eapply onopen_single.
  - destruct (socket_state w i) as [[]|] eqn:E; try done.
    unfold single, socket_state in *. cbn. by eapply single_altered.
  - by destruct (socket_state w i) as [[]|].
  - destruct (socket_state w i) as [[]|] eqn:E; try done;
      by eapply onclose_single.
  - by apply fire_single.
Qed.

Lemma init_single mode : single (init mode).
Proof. by apply single_idle. Qed.

Lemma single_track_single w es :
  single w -> single_track w es = true -> single (run w es).
Proof.
  revert w. induction es as [|e es IH]; intros w S Ho; [done|].
  simpl in Ho. apply andb_true_iff in Ho as [Hs Ho].
  apply negb_true_iff in Hs. simpl. apply IH; [|done].
  by apply step_single.
Qed.

(** In a single-track run, the close of a socket at the cap leaves
    nothing that could lead to another attempt. *)
Lemma single_exhausted w i r :
  single w -> sound w -> socket_state w i = Some r -> r ≠ CLOSED ->
  isManualClose (this w) = false ->
  reconnectAttempts WS_OPTIONS <= reconnectCount (this w) ->
  exhausted (step w (SockClose i)).
Proof.
  intros S So Hi Hr Hm Hc.
  assert (Hw' : step w (SockClose i) = onclose i (set_readyState i CLOSED w)).
  { simpl. rewrite Hi. by destruct r. }
  rewrite Hw'.
  destruct (onclose_prefix w i So) as (Hc1 & Hm1 & Hcb & Hnt & Hrs & Ho).
  assert (I : idle (sockets (set_readyState i CLOSED w)) (timers w))
    by (by eapply idle_closed).
  unfold onclose.
  set (w1 := emit "close" Undefined
               (stopHeartbeat (set_readyState i CLOSED w))) in *.
  assert (Hs1 : sockets w1 = sockets (set_readyState i CLOSED w)).
  { unfold w1, stopHeartbeat. by destruct (heartbeatTimer _). }
  clearbody w1. rewrite Hm1, Hm. simpl.
  unfold attemptReconnect. rewrite bool_decide_eq_true_2 by lia.
  destruct I as [I1 I2]. split.
  - cbn. rewrite Hc1. simpl in Hc. lia.
  - change (reconnects w1 = ∅). rewrite Hrs. by apply reconnects_empty.
  - intros j Hj. unfold socket_state in Hj. cbn in Hj. rewrite Hs1 in Hj.
    by specialize (I1 j CONNECTING Hj).
Qed.

(** C7.  On a close event of a socket while the manual-close flag is not
    set (auto-reconnect is on), in any world a run can reach.  Below the
    cap of 5 the counter goes up by one and exactly one reconnect attempt
    is added to the pending ones, under a fresh handle: a timeout of
    3000 ms that calls connect() with the default path when it comes due;
    each close subscriber is called once, in order, and nobody else.  At
    the cap the counter and the pending attempts stay as they are, and
    after the close subscribers each reconnectFailed subscriber is called
    once, in order.  The counter goes down only by an open event of a
    connecting socket, which sets it to zero.  Once the cap is reached
    with no attempt pending and no socket connecting, no attempt is
    scheduled by any events other than a call of connect().  That is the
    state after reconnectFailed in every single-track run, where
    connect() is called only while no socket is live and no attempt is
    pending: there the close at the cap leaves nothing pending and nothing
    connecting, and it stays so, with the counter at the cap, until
    connect() is called. *)
Theorem unexpected_close_retries :
  (forall md es i r,
     let w := run (init md) es in
     let closing :=
       map (fun c => Invoke c "close" Undefined)
           (default [] (callbacks (this w) !! "close")) in
     let failing :=
       map (fun c => Invoke c "reconnectFailed" Undefined)
           (default [] (callbacks (this w) !! "reconnectFailed")) in
     socket_state w i = Some r -> r ≠ CLOSED ->
     isManualClose (this w) = false ->
     let w' := step w (SockClose i) in
     (reconnectCount (this w) < 5 ->
        reconnectCount (this w') = S (reconnectCount (this w))
        /\ timers w !! next_timer w = None
        /\ reconnects w !! next_timer w = None
        /\ reconnects w'
           = <[next_timer w := {| task := ReconnectTask; delay := 3000%Z;
                                  repeating := false |}]> (reconnects w)
        /\ delay retry = 3000%Z
        /\ (forall now constructs,
              step w' (Fire (next_timer w) now constructs)
              = connect (WS_PATH (WS_CONFIG (mode w))) constructs
                        (clear_timer (next_timer w) w'))
        /\ out w' = out w ++ closing)
     /\ (5 <= reconnectCount (this w) ->
        reconnectCount (this w') = reconnectCount (this w)
        /\ timers w' = match heartbeatTimer (this w) with
                       | Some h => delete h (timers w)
                       | None => timers w
                       end
        /\ reconnects w' = reconnects w
        /\ out w' = out w ++ closing ++ failing))
  /\ (forall w e,
        reconnectCount (this (step w e)) < reconnectCount (this w) ->
        exists i, e = SockOpen i /\ socket_state w i = Some CONNECTING
                  /\ reconnectCount (this (step w e)) = 0)
  /\ (forall w es,
        5 <= reconnectCount (this w) -> reconnects w = ∅ ->
        (forall i, socket_state w i ≠ Some CONNECTING) ->
        Forall (fun e => is_CallConnect e = false) es ->
        reconnects (run w es) = ∅ /\ 5 <= reconnectCount (this (run w es)))
  /\ (forall md es i r es',
        single_track (init md) es = true ->
        let w := run (init md) es in
        socket_state w i = Some r -> r ≠ CLOSED ->
        isManualClose (this w) = false ->
        5 <= reconnectCount (this w) ->
        Forall (fun e => is_CallConnect e = false) es' ->
        let w' := run (step w (SockClose i)) es' in
        reconnects (step w (SockClose i)) = ∅
        /\ reconnects w' = ∅
        /\ (forall j, socket_state w' j ≠ Some CONNECTING)
        /\ 5 <= reconnectCount (this w')).
Proof.
  split; [|split; [|split]].
  - intros md es i r w closing failing Hi Hr Hm w'.
    assert (S : sound w) by apply sound_run, sound_init.
    assert (Hw' : w' = onclose i (set_readyState i CLOSED w)).
    { unfold w'. simpl. rewrite Hi. by destruct r. }
    destruct (onclose_prefix w i S) as (Hc & Hm1 & Hcb & Hnt & Hrs & Ho).
    assert (F : timers_fresh w) by (by destruct S).
    assert (Hcl : Dispatcher.emit "close" Undefined (callbacks (this w))
                  = closing).
    { unfold Dispatcher.emit, closing.
      by destruct (callbacks (this w) !! "close"). }
    assert (Hfl : Dispatcher.emit "reconnectFailed" Undefined
                    (callbacks (this w)) = failing).
    { unfold Dispatcher.emit, failing.
      by destruct (callbacks (this w) !! "reconnectFailed"). }
    unfold onclose in Hw'.
    set (w1 := emit "close" Undefined
                 (stopHeartbeat (set_readyState i CLOSED w))) in *.
    assert (Hmd : mode w1 = mode w).
    { unfold w1, stopHeartbeat. by destruct (heartbeatTimer _). }
    assert (Htm : timers w1 = match heartbeatTimer (this w) with
                              | Some h => delete h (timers w)
                              | None => timers w
                              end).
    { unfold w1, stopHeartbeat. cbn.
      by destruct (heartbeatTimer (this w)) as [h|] eqn:E. }
    clearbody w1. rewrite Hm1, Hm in Hw'. simpl in Hw'.
    unfold attemptReconnect in Hw'.
    split; intros Hcount.
    + rewrite bool_decide_eq_false_2 in Hw' by (simpl; lia).
      rewrite Hw'. cbn. rewrite Hc, Hnt, Hmd, Ho, Hcl.
      repeat split; try done.
      * apply F. lia.
      * by apply reconnects_fresh.
      * unfold reconnects at 1. cbn.
        rewrite map_filter_insert_True by done.
        fold (reconnects w1). by rewrite Hrs.
      * intros now constructs. unfold fire. cbn.
        by rewrite lookup_insert_eq.
    + rewrite bool_decide_eq_true_2 in Hw' by (simpl; lia).
      rewrite Hw'. cbn. repeat split; try done.
      by rewrite Ho, Hcb, Hcl, Hfl, <- app_assoc.
  - apply step_reconnectCount.
  - intros w es Hc Hr Hs Hes.
    destruct (exhausted_run w es) as [E1 E2 E3]; [by split | done | done].
  - intros md es i r es' Ht w Hi Hr Hm Hc Hes' w'.
    assert (E : exhausted (step w (SockClose i))).
    { eapply single_exhausted; try done.
      - apply single_track_single; [apply init_single | done].
      - apply sound_run, sound_init. }
    destruct (exhausted_run _ es' E Hes') as [E1 E2 E3].
    destruct E as [_ E0 _]. by repeat split.
Qed.

(** The theorem on the first unexpected close of a connection, on the
    close after five failed attempts with a subscriber to each event, and
    on what follows that close. *)
Lemma unexpected_close_retries_witness :
  let w0 := run (init "development") [CallConnect None true; SockOpen 0] in
  let w1 := run (init "development") Scenario.watched_failures in
  let w2 := step w1 (SockClose 5) in
  reconnectCount (this (step w0 (SockClose 0))) = S (reconnectCount (this w0))
  /\ reconnects (step w0 (SockClose 0))
     = <[next_timer w0 := {| task := ReconnectTask; delay := 3000%Z;
                             repeating := false |}]> (reconnects w0)
  /\ out (step w0 (SockClose 0)) = out w0 ++ []
  /\ reconnects w2 = reconnects w1
  /\ out w2 = out w1 ++ [Invoke 7 "close" Undefined]
                     ++ [Invoke 8 "reconnectFailed" Undefined]
  /\ (exists i, SockOpen 5 = SockOpen i /\ socket_state w1 i = Some CONNECTING
                /\ reconnectCount (this (step w1 (SockOpen 5))) = 0)
  /\ reconnects (run w2 [CallClose; SockError 5; Fire 1 9%Z true]) = ∅
  /\ reconnects (run w2 [Fire 6 0%Z true; CallSend (Text "x"); SockError 5])
     = ∅.
Proof.
  intros w0 w1 w2.
  destruct unexpected_close_retries as (Ha & Hb & Hc & Hd).
  destruct (Ha "development" [CallConnect None true; SockOpen 0] 0 OPEN)
    as [Ha0 _]; [by vm_compute | discriminate | by vm_compute |].
  destruct Ha0 as (H1 & _ & _ & H2 & _ & _ & H2'); [vm_compute; lia|].
  destruct (Ha "development" Scenario.watched_failures 5 CONNECTING)
    as [_ Ha1]; [by vm_compute | discriminate | by vm_compute |].
  destruct Ha1 as (_ & _ & H3 & H4); [vm_compute; lia|].
  split; [exact H1|]. split; [exact H2|]. split; [exact H2'|].
  split; [exact H3|]. split; [exact H4|]. split; [|split].
  - apply (Hb w1 (SockOpen 5)). vm_compute. lia.
  - apply (Hc w2 [CallClose; SockError 5; Fire 1 9%Z true]).
    + vm_compute. lia.
    + by vm_compute.
    + intros i. do 6 (destruct i as [|i]; [by vm_compute|]). by vm_compute.
    + repeat constructor.
  - apply (Hd "development" Scenario.watched_failures 5 CONNECTING
              [Fire 6 0%Z true; CallSend (Text "x"); SockError 5]).
    + by vm_compute.
    + by vm_compute.
    + discriminate.
    + by vm_compute.
    + vm_compute. lia.
    + repeat constructor.
Defined.

(** C7, the run that the claim does not survive.  After five failures
    the fifth attempt (timer 6) is pending, and the caller calls
    connect() itself: connect clears no timer.  The socket of that call
    closes with the counter at the cap, so reconnectFailed is published;
    but timer 6 is still pending.  It comes due, its socket opens, which
    resets the counter, and closes: a new attempt is scheduled, under
    handle 8, and connect() has not been called since reconnectFailed. *)
Lemma retry_outlives_reconnectFailed :
  let w := run (init "development") Scenario.impatient in
  let w' := step w (SockClose 5) in
  let es' := [Fire 6 0%Z true; SockOpen 6; SockClose 6] in
  socket_state w 5 = Some CONNECTING
  /\ isManualClose (this w) = false
  /\ reconnectCount (this w) = 5
  /\ out w' = out w ++ [Invoke 8 "reconnectFailed" Undefined]
  /\ Forall (fun e => is_CallConnect e = false) es'
  /\ map_to_list (reconnects w') = [(6, retry)]
  /\ map_to_list (reconnects (run w' es'))
     = [(8, {| task := ReconnectTask; delay := 3000%Z; repeating := false |})]
  /\ reconnectCount (this (run w' es')) = 1.
Proof.
  cbn zeta. repeat split; try (by vm_compute). repeat constructor.
Qed.

(** *** The cap of the retry counter *)

Lemma step_capped w e :
  reconnectCount (this w) <= reconnectAttempts WS_OPTIONS ->
  reconnectCount (this (step w e)) <= reconnectAttempts WS_OPTIONS.
Proof.
  intros H. destruct e; simpl.
  - unfold connect. destruct (isConnected w); cbn; [done|].
    destruct constructs; cbn; done.
  - unfold close, stopHeartbeat, socket_close. cbn.
    destruct (heartbeatTimer (this w)); cbn;
      destruct (reconnectTimer (this w)); cbn;
      destruct (ws (this w)); cbn; try done;
      destruct (socket_state _ _) as [[]|]; cbn; done.
  - unfold send. destruct (ws (this w)); cbn; [|done].
    destruct (isConnected w); cbn; [|done].
    destruct (frame_of _ _); cbn; done.
  - done.
  - done.
  - destruct (socket_state w i) as [[]|] eqn:E; try done. cbn. lia.
  - destruct (socket_state w i) as [[]|]; cbn; done.
  - destruct (socket_state w i) as [[]|]; cbn; done.
  - assert (reconnectCount (this (onclose i (set_readyState i CLOSED w)))
            <= reconnectAttempts WS_OPTIONS).
    { unfold onclose, stopHeartbeat, attemptReconnect. cbn.
      destruct (heartbeatTimer (this w)); cbn;
        destruct (negb (isManualClose (this w))); cbn; try done;
        case_bool_decide; cbn in *; lia. }
    destruct (socket_state w i) as [[]|]; done.
  - unfold fire. destruct (timers w !! id) as [t|]; [|done].
    destruct (task t).
    + unfold connect.
      destruct (repeating t); destruct (isConnected _); cbn; try done;
        destruct constructs; cbn; done.
    + unfold heartbeat_tick, send.
      destruct (repeating t); destruct (isConnected _); cbn; try done;
        destruct (ws (this w)); cbn; done.
Qed.

(** X9.  In every world a run reaches, the retry counter is at most the
    cap of 5: [attemptReconnect] counts up only below the cap, and
    nothing else raises the counter. *)
Theorem reconnectCount_capped md es :
  reconnectCount (this (run (init md) es)) <= reconnectAttempts WS_OPTIONS.
Proof.
  unfold run. induction es as [|e es IH] using rev_ind.
  - cbn. lia.
  - rewrite foldl_app. simpl. by apply step_capped.
Qed.

(** *** After [close()] *)

Lemma quiet_spec (tm : gmap nat Timer) :
  filter (fun '(_, t) => task t = ReconnectTask) tm = ∅
  <-> forall id t, tm !! id = Some t -> task t ≠ ReconnectTask.
Proof.
  rewrite map_empty. split.
  - intros H id t Ht Hk. specialize (H id).
    apply map_lookup_filter_None in H as [H|H]; [by rewrite Ht in H|].
    by apply (H t).
  - intros H id. apply map_lookup_filter_None. right. intros t Ht.
    by apply (H id).
Qed.

Lemma quiet_delete (tm : gmap nat Timer) id :
  filter (fun '(_, t) => task t = ReconnectTask) tm = ∅ ->
  filter (fun '(_, t) => task t = ReconnectTask) (delete id tm) = ∅.
Proof.
  rewrite !quiet_spec. intros H j t Ht.
  apply lookup_delete_Some in Ht as [_ Ht]. by apply (H j).
Qed.

Lemma quiet_beat (tm : gmap nat Timer) id :
  filter (fun '(_, t) => task t = ReconnectTask) tm = ∅ ->
  filter (fun '(_, t) => task t = ReconnectTask) (<[id := beat]> tm) = ∅.
Proof.
  rewrite !quiet_spec. intros H j t Ht.
  apply lookup_insert_Some in Ht as [[_ <-]|[_ Ht]]; [done | by apply (H j)].
Qed.

(** [close()] cancels the reconnect attempt the handle names; when no
    other attempt is pending, none is left. *)
Lemma close_closed_down w :
  (forall id t, reconnects w !! id = Some t ->
                reconnectTimer (this w) = Some id) ->
  closed_down (close w) /\ length (sockets (close w)) = length (sockets w).
Proof.
  intros H.
  assert (Q : forall id t, timers w !! id = Some t -> task t = ReconnectTask ->
                reconnectTimer (this w) = Some id).
  { intros id t Ht Hk. apply (H id t). by apply map_lookup_filter_Some. }
  clear H.
  unfold close, stopHeartbeat, socket_close, socket_state, set_readyState.
  destruct w as [[cur u rt hb n cb mc] socks tm nt o md]. cbn in *.
  assert (forall h, filter (fun '(_, t) => task t = ReconnectTask)
            (match rt with
             | Some id => delete id (delete h tm) | None => delete h tm end) = ∅
          /\ filter (fun '(_, t) => task t = ReconnectTask)
            (match rt with Some id => delete id tm | None => tm end) = ∅)
    as D.
  { intros h. rewrite !quiet_spec. split; intros j t Ht Hk.
    - destruct rt as [id|].
      + apply lookup_delete_Some in Ht as [Hne Ht].
        apply lookup_delete_Some in Ht as [_ Ht].
        specialize (Q j t Ht Hk). congruence.
      + apply lookup_delete_Some in Ht as [_ Ht].
        by specialize (Q j t Ht Hk).
    - destruct rt as [id|].
      + apply lookup_delete_Some in Ht as [Hne Ht].
        specialize (Q j t Ht Hk). congruence.
      + by specialize (Q j t Ht Hk). }
  destruct hb as [h|]; cbn; destruct rt as [id|]; cbn;
    destruct cur as [i|]; cbn;
    try (destruct (socks !! i) as [[? []]|] eqn:E; cbn);
    (split; [split; cbn; try done; unfold reconnects; cbn;
             first [apply (D 0) | apply (D h)]
            | by rewrite ?length_alter]).
Qed.

Lemma step_closed_down w e :
  closed_down w -> is_CallConnect e = false ->
  closed_down (step w e) /\ length (sockets (step w e)) = length (sockets w).
Proof.
  intros [M W Q] Hc. unfold reconnects in Q.
  assert (C : isConnected w = false).
  { unfold isConnected, ws_readyState. by rewrite W. }
  destruct e; try discriminate; simpl.
  - unfold close, stopHeartbeat.
    destruct w as [[cur u rt hb n cb mc] socks tm nt o md]. cbn in *.
    subst cur. destruct hb as [h|]; cbn; destruct rt as [id|]; cbn;
      (split; [split; cbn; try done; unfold reconnects; cbn;
               auto using quiet_delete | done]).
  - unfold send. by rewrite W.
  - done.
  - done.
  - unfold socket_state, onopen, startHeartbeat, set_readyState.
    destruct w as [[cur u rt hb n cb mc] socks tm nt o md]. cbn in *.
    destruct (socks !! i) as [[? []]|]; cbn; try done.
    split; [split; cbn; try done; unfold reconnects; cbn;
            auto using quiet_beat | by rewrite length_alter].
  - unfold socket_state, set_readyState.
    destruct w as [[cur u rt hb n cb mc] socks tm nt o md]. cbn in *.
    destruct (socks !! i) as [[? []]|]; cbn; try done.
    split; [by split | by rewrite length_alter].
  - unfold socket_state, onerror.
    destruct (sockets w !! i) as [[? []]|]; cbn; done.
  - unfold socket_state, onclose, stopHeartbeat, set_readyState.
    destruct w as [[cur u rt hb n cb mc] socks tm nt o md]. cbn in *.
    subst mc.
    destruct (socks !! i) as [[? []]|]; cbn; try done;
      destruct hb as [h|]; cbn;
      (split; [split; cbn; try done; unfold reconnects; cbn;
               auto using quiet_delete | by rewrite length_alter]).
  - unfold fire. destruct (timers w !! id) as [t|] eqn:Et; [|done].
    assert (Hk : task t = HeartbeatTask).
    { rewrite quiet_spec in Q. specialize (Q id t Et). by destruct (task t). }
    rewrite Hk. unfold heartbeat_tick.
    destruct (repeating t).
    + by rewrite C.
    + assert (C' : isConnected (clear_timer id w) = false) by done.
      rewrite C'. split; [|done]. split; try done.
      unfold reconnects. cbn. by apply quiet_delete.
Qed.

(** X10.  After [close()], as long as [connect()] is not called again:
    whatever socket events and timers arrive, the manual-close flag stays
    set, no reconnect attempt is scheduled, no socket is constructed, the
    status is [CLOSED] and [send] throws.  The precondition: when
    [close()] is called, the only reconnect attempt that can be pending
    is the one [reconnectTimer] names (that is the one [close()]
    cancels). *)
Theorem close_holds_until_connect w es :
  (forall id t, reconnects w !! id = Some t ->
                reconnectTimer (this w) = Some id) ->
  Forall (fun e => is_CallConnect e = false) es ->
  let w' := run (close w) es in
  isManualClose (this w') = true
  /\ reconnects w' = ∅
  /\ length (sockets w') = length (sockets w)
  /\ getStatus w' = "CLOSED"
  /\ forall message, send message w' = None.
Proof.
  intros H Hes. cbn zeta.
  assert (closed_down (run (close w) es)
          /\ length (sockets (run (close w) es)) = length (sockets w))
    as [[M W Q] L].
  { unfold run. induction es as [|e es IH] using rev_ind.
    - by apply close_closed_down.
    - apply Forall_app in Hes as [Hes He]. rewrite Forall_singleton in He.
      rewrite foldl_app. simpl. destruct (IH Hes) as [IH1 IH2].
      destruct (step_closed_down _ e IH1 He) as [? ->]. done. }
  repeat split; try done.
  - unfold getStatus, ws_readyState. by rewrite W.
  - intros m. unfold send. by rewrite W.
Qed.

(** The theorem on a connection that was lost and waits for its first
    reconnect attempt when [close()] is called: the stale events of the
    old socket and of the cancelled timer change nothing. *)
Lemma close_holds_until_connect_witness :
  let w := run (init "development")
             [CallConnect None true; SockOpen 0; SockClose 0] in
  let w' := run (close w)
              [Fire 2 0%Z true; SockError 0; SockClose 0;
               CallSend (Text "late")] in
  reconnects w ≠ ∅
  /\ isManualClose (this w') = true
  /\ reconnects w' = ∅
  /\ length (sockets w') = 1
  /\ getStatus w' = "CLOSED".
Proof.
  intros w w'.
  assert (E : reconnects w = {[2 := retry]}) by (by vm_compute).
  split; [rewrite E; by vm_compute|].
  destruct (close_holds_until_connect w
              [Fire 2 0%Z true; SockError 0; SockClose 0;
               CallSend (Text "late")])
    as (H1 & H2 & H3 & H4 & _).
  - intros id t. rewrite E. intros [<- _]%lookup_singleton_Some.
    by vm_compute.
  - repeat constructor.
  - split; [exact H1|]. split; [exact H2|]. split; [exact H3 | exact H4].
Defined.

(** X11. send (websocket.js 81-93) transmits only on an open socket:
    isConnected holds exactly when getStatus is OPEN; a call returns
    without throwing exactly when the status is OPEN and JSON.stringify
    does not throw on an object message (the guard of lines 82-84 throws
    the not-connected error, the catch of lines 89-92 logs and throws
    on); a call that returns hands exactly one frame to the manager's
    current socket, which is open: the string itself for a string
    message, the serialisation for an object; it changes nothing else. *)
Theorem send_needs_open w message :
  (isConnected w = true <-> getStatus w = "OPEN")
  /\ (is_Some (send message w)
      <-> getStatus w = "OPEN" /\ message <> Object None)
  /\ match send message w with
     | Some w' =>
         exists i,
           ws (this w) = Some i
           /\ socket_state w i = Some OPEN
           /\ w' = output
                     [match message with
                      | Text s => TransmitText i s
                      | Envelope type timestamp => Transmit i type timestamp
                      | Object json => TransmitText i (default "" json)
                      end] w
           /\ this w' = this w /\ sockets w' = sockets w
           /\ timers w' = timers w
           /\ out w' = out w ++
                [match message with
                 | Text s => TransmitText i s
                 | Envelope type timestamp => Transmit i type timestamp
                 | Object json => TransmitText i (default "" json)
                 end]
     | None => True
     end.
Proof.
  unfold send, isConnected, getStatus, ws_readyState.
  destruct (ws (this w)) as [i|]; simpl.
  - destruct (socket_state w i) as [[]|] eqn:E; simpl;
      rewrite ?bool_decide_eq_true;
      destruct message as [s|type timestamp|[json|]]; simpl;
      repeat split; try done; try (by intros [? ?]);
      try (by intros [_ ?]); eauto 10.
  - repeat split; try done; by intros [? ?].
Qed.

End ManagerFacts.

(** ** The streaming helper *)

Section StreamFacts.
Import Http.
Implicit Types (s : Session) (e : Event) (env : Env) (t : list Action).

(** *** The flush loop appends at most one chunk *)

Lemma flush_loop_busy env pending s :
  sourceBuffer s ≠ Some false -> flush_loop env pending s = s.
Proof.
  intros H. destruct pending as [|chunk rest]; [done|]. simpl.
  by destruct (sourceBuffer s) as [[]|].
Qed.

Lemma flush_loop_idle env pending s :
  sourceBuffer s = Some false ->
  flush_loop env pending s
  = match pending with
    | [] => s
    | chunk :: rest =>
        if accepts env chunk then
          note [ActAppendBuffer chunk true]
               (set_sourceBuffer (Some true) (set_pendingChunks rest s))
        else note [ActAppendBuffer chunk false] (set_pendingChunks rest s)
    end.
Proof.
  intros H. destruct pending as [|chunk rest]; [done|]. simpl.
  rewrite H. unfold appendBuffer. cbn. rewrite H.
  destruct (accepts env chunk); [|done].
  by rewrite flush_loop_busy.
Qed.

Lemma reports_app acc cs1 cs2 :
  reports acc (cs1 ++ cs2)
  = reports acc cs1 ++ reports (acc + sum_list (length <$> cs1)) cs2.
Proof.
  revert acc. induction cs1 as [|c cs1 IH]; intros acc; simpl.
  - by rewrite Nat.add_0_r.
  - rewrite IH. rewrite Nat.add_assoc. reflexivity.
Qed.

Lemma delivered_app t1 t2 : delivered (t1 ++ t2) = delivered t1 ++ delivered t2.
Proof. apply omap_app. Qed.

Lemma progress_app t1 t2 : progress (t1 ++ t2) = progress t1 ++ progress t2.
Proof. apply omap_app. Qed.

Ltac fields :=
  cbn [sourceBuffer isSourceOpen pendingChunks totalBytes hasFirstChunk
       streamEnded detectedMimeType responseType media_readyState
       sourceOpenPromise pc checkFirstChunk bufferCheckInterval timeoutCheck
       startTime result trace
       set_sourceBuffer set_isSourceOpen set_pendingChunks set_totalBytes
       set_hasFirstChunk set_streamEnded set_detectedMimeType
       set_media_readyState set_sourceOpenPromise set_pc set_checkFirstChunk
       set_bufferCheckInterval set_timeoutCheck set_startTime set_result note]
    in *.

Ltac handlers :=
  unfold step, on_response, on_chunk, on_done, on_updateend, on_sourceopen,
    resolve_sourceOpen, after_sourceOpen, request_read, push, stream_catch,
    on_checkFirstChunk, tryStartPlayback, on_timeout,
    on_audio_error, resolve, reject, endOfStream, addSourceBuffer,
    appendBuffer.

Ltac singles :=
  repeat match goal with
    | |- context [delivered [?a]] =>
        let r := eval cbn in (delivered [a]) in change (delivered [a]) with r
    | |- context [progress [?a]] =>
        let r := eval cbn in (progress [a]) in change (progress [a]) with r
    end.

Lemma flushPendingChunks_eq env s :
  flushPendingChunks env s
  = match sourceBuffer s with
    | Some false =>
        let s :=
          match pendingChunks s with
          | [] => s
          | chunk :: rest =>
              if accepts env chunk then
                note [ActAppendBuffer chunk true]
                  (set_sourceBuffer (Some true) (set_pendingChunks rest s))
              else note [ActAppendBuffer chunk false] (set_pendingChunks rest s)
          end in
        if streamEnded s
           && bool_decide (length (pendingChunks s) = 0)
           && bool_decide (sourceBuffer s = Some false)
           && bool_decide (media_readyState s = ms_open)
        then endOfStream env s
        else s
    | _ => s
    end.
Proof.
  unfold flushPendingChunks. destruct (sourceBuffer s) as [[]|] eqn:E; try done.
  by rewrite flush_loop_idle.
Qed.

Ltac crush_step :=
  handlers; rewrite ?flushPendingChunks_eq; handlers; fields;
  repeat (case_match; simplify_eq/=; fields; try done).

Lemma total_snoc (cs : list (list Byte.byte)) (c : list Byte.byte) :
  sum_list (length <$> cs ++ [c]) = sum_list (length <$> cs) + length c.
Proof.
  rewrite fmap_app, sum_list_with_app. simpl. lia.
Qed.

Lemma step_reading env s e : reading_inv s -> reading_inv (step env s e).
Proof.
  intros [(ph & R1 & Hph) R2 R3].
  destruct e.
  all: crush_step.
  all: split; fields; rewrite ?delivered_app, ?progress_app, ?foldl_app; singles;
     rewrite ?app_nil_r.
  all: first
    [ done
    | by rewrite reports_app, <- R2, <- R3
    | by rewrite total_snoc, <- R3
    | try (match goal with H : pc _ = _ |- _ => rewrite H in * end);
      simpl in *;
      try (match goal with ph : Phase |- _ => destruct ph; try done end);
      by (eexists; split; [rewrite ?R1; reflexivity | done])
    | destruct (pc s), ph; simpl in *; try done;
      by (eexists; split; [rewrite ?R1; reflexivity | done]) ].
Qed.

(** *** C9: progress reports *)

Lemma run_reading rt es : reading_inv (run (start rt) es).
Proof.
  assert (H : reading_inv (start rt)).
  { split; [by exists Idle | done | done]. }
  revert H. generalize (start rt).
  induction es as [|[env e] es IH]; intros s H; [done|].
  simpl. by apply IH, step_reading.
Qed.

Lemma reports_lookup acc (cs : list (list Byte.byte)) i r c :
  reports acc cs !! i = Some (r, c) ->
  cs !! i = Some c /\ r = acc + sum_list (length <$> take (S i) cs).
Proof.
  revert acc i. induction cs as [|x cs IH]; intros acc i H; [done|].
  destruct i as [|i]; simpl in H.
  - injection H as <- <-. split; [done|]. simpl. lia.
  - apply IH in H as [Hc ->]. split; [done|].
    change (take (S (S i)) (x :: cs)) with (x :: take (S i) cs).
    rewrite fmap_cons.
    change (sum_list (length x :: (length <$> take (S i) cs)))
      with (length x + sum_list (length <$> take (S i) cs)).
    lia.
Qed.

Lemma reports_snd acc (cs : list (list Byte.byte)) : (reports acc cs).*2 = cs.
Proof. revert acc. induction cs as [|x cs IH]; intros acc; simpl; by rewrite ?IH. Qed.

Lemma length_reports acc (cs : list (list Byte.byte)) :
  length (reports acc cs) = length cs.
Proof. by rewrite <- (reports_snd acc cs) at 2; rewrite length_fmap. Qed.

Lemma sum_take_le (l : list nat) i j :
  i <= j -> sum_list (take i l) <= sum_list (take j l).
Proof.
  revert i j. induction l as [|x l IH]; intros i j Hij.
  - by rewrite !take_nil.
  - destruct i as [|i]; [simpl; lia|]. destruct j as [|j]; [lia|].
    simpl. specialize (IH i j). lia.
Qed.

Lemma reports_faithful t :
  paced t -> progress t = reports 0 (delivered t) -> progress_faithful t.
Proof.
  intros Hp Hr. split; [done|]. rewrite Hr. split; [apply reports_snd|]. split.
  - intros i j a b Hij Ha Hb.
    rewrite list_lookup_fmap in Ha, Hb.
    destruct (reports 0 (delivered t) !! i) as [[a' ca]|] eqn:Ei; simplify_eq/=.
    destruct (reports 0 (delivered t) !! j) as [[b' cb]|] eqn:Ej; simplify_eq/=.
    apply reports_lookup in Ei as [_ ->]. apply reports_lookup in Ej as [_ ->].
    rewrite !fmap_take, !Nat.add_0_l. apply sum_take_le. lia.
  - intros r Hl. rewrite fmap_last in Hl.
    destruct (last (reports 0 (delivered t))) as [[r' c]|] eqn:El; simplify_eq/=.
    rewrite last_lookup in El. apply reports_lookup in El as [Hc ->].
    rewrite Nat.add_0_l, take_ge; [done|].
    apply lookup_lt_Some in Hc. rewrite length_reports in *. lia.
Qed.

Lemma postStream_loop_reading env body ending chunks total :
  let t := (postStream_loop env body ending chunks total).1 in
  (exists ph, foldl pace (Some Idle) t = Some ph /\ ph ≠ Got)
  /\ progress t = reports total (delivered t).
Proof.
  revert chunks total. induction body as [|value rest IH]; intros chunks total.
  - simpl. split; [by exists Reading | done].
  - simpl. destruct (onChunk_returns env _ value).
    + specialize (IH (chunks ++ [value]) (total + length value)).
      destruct (postStream_loop env rest ending _ _) as [later r].
      simpl in *. destruct IH as [IH1 IH2]. split; [done|].
      by rewrite IH2.
    + simpl. split; [by exists Idle | done].
Qed.

Lemma postStream_loop_complete env body ending chunks total :
  (forall n c, onChunk_returns env n c = true) ->
  delivered (postStream_loop env body ending chunks total).1 = body
  /\ (ending = BodyDone ->
      (postStream_loop env body ending chunks total).2 = inr (chunks ++ body)).
Proof.
  intros Hcb. revert chunks total.
  induction body as [|value rest IH]; intros chunks total.
  - simpl. split; [done|]. intros ->. by rewrite app_nil_r.
  - simpl. rewrite Hcb.
    specialize (IH (chunks ++ [value]) (total + length value)).
    destruct (postStream_loop env rest ending _ _) as [later r].
    simpl in *. destruct IH as [IH1 IH2]. split; [by rewrite IH1|].
    intros H. rewrite IH2 by done. by rewrite <- app_assoc.
Qed.



(** The deliveries in the trace are the read results among the events. *)
Lemma step_delivered env s e :
  delivered (trace (step env s e))
  = delivered (trace s)
    ++ match e, pc s with
       | ERead (Some value), AwaitRead => [value]
       | _, _ => []
       end.
Proof.
  destruct e; crush_step.
  all: rewrite ?delivered_app; singles; rewrite ?app_nil_r, <- ?app_assoc.
  all: try done.
  all: by destruct (pc s).
Qed.

Lemma run_delivered s es :
  delivered (trace (run s es)) = delivered (trace s) ++ arrivals s es.
Proof.
  revert s. induction es as [|[env e] es IH]; intros s.
  - simpl. by rewrite app_nil_r.
  - simpl. by rewrite IH, step_delivered, <- app_assoc.
Qed.

(** What the iteration that a chunk starts begins with. *)
Lemma on_chunk_trace env s value :
  exists t,
    trace (on_chunk env value s)
    = trace s ++ [ActDelivered value;
                  ActOnChunk (totalBytes s + length value) value] ++ t
    /\ delivered t = [] /\ progress t = [].
Proof.
  crush_step.
  all: rewrite <- ?app_assoc; simpl.
  all: first [ by (eexists; split; [reflexivity | done])
             | by (exists []; split; [reflexivity | done]) ].
Qed.

Lemma postStream_loop_result env body ending chunks total :
  (postStream_loop env body ending chunks total).2
  = match find (fun p => negb (onChunk_returns env p.1 p.2))
               (reports total body) with
    | Some p => inl (error_of_callback (onChunk_aborts env p.1 p.2))
    | None =>
        match ending with
        | BodyDone => inr (chunks ++ body)
        | _ => inl (error_of ending)
        end
    end
  /\ delivered (postStream_loop env body ending chunks total).1
     `prefix_of` body.
Proof.
  revert chunks total. induction body as [|value rest IH]; intros chunks total.
  - simpl. rewrite app_nil_r. by destruct ending.
  - simpl. destruct (onChunk_returns env _ value) eqn:E; simpl.
    + specialize (IH (chunks ++ [value]) (total + length value)).
      destruct (postStream_loop env rest ending _ _) as [later r].
      simpl in *. destruct IH as [-> IH]. rewrite <- app_assoc. simpl.
      split; [done|]. by apply prefix_cons.
    + split; [done|]. apply prefix_cons, prefix_nil.
Qed.

(** C9.  In [postStream], whatever the response and the body, and in
    every run of [postStreamRealtime]: each chunk the reader delivers is
    followed at once by one call of the progress callback with that chunk,
    before the next read is requested; the reported [received] values
    never decrease; and the last one is the sum of the lengths of all
    delivered chunks (which [totalBytes] holds).  The deliveries are the
    chunks the surroundings hand over: in [postStream] a prefix of the
    body, in [postStreamRealtime] the read results among the events of
    the run, so the callback is called once for each of them, with the
    running total.  A read result that reaches the loop of
    [postStreamRealtime] adds the length of the chunk to [totalBytes]
    and is noted at once with its callback, and nothing else of that
    step is a delivery or a callback.  When the callback always returns,
    [postStream] delivers every chunk of the body and returns them
    all. *)
Theorem progress_reports_every_chunk :
  (forall env response body ending,
     let t := (postStream env response body ending).1 in
     progress_faithful t
     /\ progress t = reports 0 (delivered t)
     /\ delivered t `prefix_of` body)
  /\ (forall responseType es,
       let s := run (start responseType) es in
       progress_faithful (trace s)
       /\ totalBytes s = sum_list (length <$> delivered (trace s))
       /\ delivered (trace s) = arrivals (start responseType) es
       /\ progress (trace s)
          = reports 0 (arrivals (start responseType) es))
  /\ (forall env s value,
       pc s = AwaitRead ->
       let s' := step env s (ERead (Some value)) in
       totalBytes s' = totalBytes s + length value
       /\ exists t,
            trace s'
            = trace s ++ [ActDelivered value;
                          ActOnChunk (totalBytes s + length value) value]
                      ++ t
            /\ delivered t = [] /\ progress t = [])
  /\ (forall env status contentType body,
       (forall n c, onChunk_returns env n c = true) ->
       delivered (postStream env (Response true status contentType)
                             body BodyDone).1 = body
       /\ (postStream env (Response true status contentType) body BodyDone).2
          = inr body).
Proof.
  split; [|split; [|split]].
  - intros env response body ending. cbn zeta. unfold postStream.
    destruct response as [[] status ct| |];
      try (split; [apply reports_faithful; [by exists Idle | done]
                  | split; [done | apply prefix_nil]]).
    destruct (postStream_loop_reading env body ending [] 0) as [(ph & H1 & _) H2].
    split; [apply reports_faithful; [by exists ph | done]|].
    split; [done | apply postStream_loop_result].
  - intros rt es s. destruct (run_reading rt es) as [(ph & R1 & _) R2 R3].
    assert (Ha : delivered (trace s) = arrivals (start rt) es)
      by (unfold s; by rewrite run_delivered).
    split; [apply reports_faithful; [by exists ph | done]|].
    split; [done|]. split; [done|]. unfold s in *. by rewrite R2, Ha.
  - intros env s value Hpc s'. subst s'. simpl. rewrite Hpc. split.
    + crush_step.
    + apply on_chunk_trace.
  - intros env status ct body Hcb. simpl.
    destruct (postStream_loop_complete env body BodyDone [] 0 Hcb) as [H1 H2].
    split; [done | by apply H2].
Qed.

(** The theorem on a body of three chunks, on a run in which three
    chunks arrive, and on the arrival of the first of them. *)
Lemma progress_reports_every_chunk_witness :
  let s0 := run (start None) [(Scenario.willing, EFetch Scenario.mpeg)] in
  delivered (postStream Scenario.willing (Response true 200 None)
               [Scenario.chunk1; Scenario.chunk2; Scenario.chunk3] BodyDone).1
  = [Scenario.chunk1; Scenario.chunk2; Scenario.chunk3]
  /\ progress (trace (run (start None) Scenario.three_chunks))
     = reports 0 (arrivals (start None) Scenario.three_chunks)
  /\ arrivals (start None) Scenario.three_chunks
     = [Scenario.chunk1; Scenario.chunk2; Scenario.chunk3]
  /\ totalBytes (step Scenario.willing s0 (ERead (Some Scenario.chunk1)))
     = totalBytes s0 + 1.
Proof.
  intros s0.
  destruct progress_reports_every_chunk as (_ & H2 & H3 & H4).
  split; [|split; [|split]].
  - apply (H4 Scenario.willing 200 None
             [Scenario.chunk1; Scenario.chunk2; Scenario.chunk3]).
    reflexivity.
  - apply (H2 None Scenario.three_chunks).
  - by vm_compute.
  - apply (H3 Scenario.willing s0 Scenario.chunk1). reflexivity.
Defined.

(** *** C2: submissions to the source buffer *)

Lemma submissions_app t1 t2 :
  submissions (t1 ++ t2) = submissions t1 ++ submissions t2.
Proof. apply omap_app. Qed.

Lemma step_busy env s e : busy_inv s -> busy_inv (step env s e).
Proof.
  intros [B U]. destruct e; crush_step.
  all: split; fields.
  all: try (intros Hc;
      repeat match goal with
        | U : (_ = ms_closed) -> _ |- _ =>
            first [specialize (U eq_refl) | specialize (U Hc)]
        end;
      first [by simplify_eq/= | congruence]).
  all: try (match goal with
           | H : media_readyState _ = ms_closed |- _ =>
               first [specialize (U H) | specialize (U eq_refl)];
               rewrite U in *
           end).
  all: rewrite ?foldl_app, ?B.
  all: try (match goal with H : sourceBuffer _ = _ |- _ => rewrite H in * end).
  all: try done.
  all: try by destruct (sourceBuffer s) as [[]|].
  all: by match goal with b : bool |- _ => destruct b end.
Qed.

(** In every run, no [appendBuffer] call returns while an earlier
    append still waits for its [updateend]. *)
Lemma run_never_overlapping responseType es :
  never_overlapping (trace (run (start responseType) es)).
Proof.
  assert (H : busy_inv (start responseType)) by (by split).
  revert H. generalize (start responseType).
  induction es as [|[env e] es IH]; intros s H; [destruct H; by eexists|].
  simpl. by apply IH, step_busy.
Qed.









(** C2 at its failing input.  The first [appendBuffer] throws (the buffer
    is full), so chunk 1 is queued while the buffer stays idle; chunk 2
    arrives, finds the buffer idle and is appended at once, ahead of
    chunk 1, which goes in only after the [updateend] of chunk 2.  The
    submissions do not overlap, but their order is not the arrival
    order. *)
Theorem later_chunk_overtakes_queued_one :
  let s := run (start (Some "audio/mpeg")) Scenario.overtaking in
  delivered (trace s) = [Scenario.chunk1; Scenario.chunk2]
  /\ submissions (trace s) = [Scenario.chunk2; Scenario.chunk1]
  /\ never_overlapping (trace s).
Proof. vm_compute. split; [done|]. split; [done|]. by eexists. Qed.

(** *** C3: finalization *)

Lemma finalized_app t1 t2 : finalized (t1 ++ t2) = finalized t1 || finalized t2.
Proof. apply existsb_app. Qed.

Lemma step_stranded env s e : stranded s -> stranded (step env s e).
Proof.
  intros [S1 S2 S3 S4]. destruct e; crush_step.
  all: split; fields; rewrite ?finalized_app, ?S4; try done.
Qed.

Lemma run_stranded s es : stranded s -> stranded (run s es).
Proof.
  revert s. induction es as [|[env e] es IH]; intros s H; [done|].
  simpl. by apply IH, step_stranded.
Qed.

(** C3 at its failing input.  One chunk is appended and its [updateend]
    has fired; then [read()] rejects.  The [catch] sets [streamEnded] but,
    unlike the branch for [done], does not call [flushPendingChunks]: the
    source has ended, the queue is empty and no append is outstanding,
    yet [endOfStream] has not been called, and no later event calls
    it. *)
Theorem source_ended_by_error_is_never_finalized :
  let s := run (start (Some "audio/mpeg")) Scenario.broken_after_one in
  streamEnded s = true
  /\ pendingChunks s = []
  /\ sourceBuffer s = Some false
  /\ media_readyState s = ms_open
  /\ forall es, finalized (trace (run s es)) = false
                /\ media_readyState (run s es) = ms_open.
Proof.
  intros s. repeat split; try reflexivity.
  - apply run_stranded. by split.
  - apply run_stranded. by split.
Qed.



(** *** C4: the pause *)




(** *** C6: creating the source buffer *)

Lemma add_calls_app t1 t2 : add_calls (t1 ++ t2) = add_calls t1 ++ add_calls t2.
Proof. apply omap_app. Qed.

(** C6, as stated, fails: when the detected type is [audio/mpeg] itself
    and the browser refuses it, [addSourceBuffer] is called once and not
    again. *)
Lemma no_retry_when_mpeg_detected :
  let s := run (start None)
             [(Scenario.unsupporting, EFetch Scenario.mpeg);
              (Scenario.unsupporting, ESourceOpen)] in
  detectedMimeType s = Some "audio/mpeg"
  /\ add_calls (trace s) = [("audio/mpeg", false)]
  /\ sourceBuffer s = None.
Proof. vm_compute. done. Qed.

Lemma after_sourceOpen_add_calls env value s :
  add_calls (trace (after_sourceOpen env value s)) = add_calls (trace s).
Proof.
  unfold after_sourceOpen, appendBuffer, request_read, push.
  repeat case_match; simplify_eq/=; fields;
    rewrite ?add_calls_app; simpl; by rewrite ?app_nil_r.
Qed.

Lemma resolve_sourceOpen_facts env s :
  add_calls (trace (resolve_sourceOpen env s)) = add_calls (trace s)
  /\ sourceOpenPromise (resolve_sourceOpen env s) = true
  /\ streamEnded (resolve_sourceOpen env s) = streamEnded s
  /\ (sourceBuffer s = None -> sourceBuffer (resolve_sourceOpen env s) = None).
Proof.
  unfold resolve_sourceOpen. fields. destruct (pc s); try done.
  split; [by rewrite after_sourceOpen_add_calls|].
  unfold after_sourceOpen, appendBuffer, request_read, push.
  repeat case_match; simplify_eq/=; fields.
  all: repeat split; try done; congruence.
Qed.

Lemma on_sourceopen_failed env s d :
  detectedMimeType s = Some d -> d ≠ "" -> supports env d = false ->
  on_sourceopen env s
  = resolve_sourceOpen env
      (if decide (d = "audio/mpeg") then
         note [ActAddSourceBuffer d false] (set_isSourceOpen true s)
       else
         (addSourceBuffer env "audio/mpeg"
            (set_detectedMimeType (Some "audio/mpeg")
               (note [ActAddSourceBuffer d false]
                     (set_isSourceOpen true s)))).1).
Proof.
  intros Hd Hne Hs. unfold on_sourceopen. fields. rewrite Hd.
  assert (Ht : truthy (Some d) = true).
  { simpl. apply negb_true_iff. by apply String.eqb_neq. }
  rewrite Ht. simpl default. unfold addSourceBuffer at 1. rewrite Hs. fields.
  rewrite Hd, Ht. simpl andb.
  destruct (decide (d = "audio/mpeg")) as [->|Hd'].
  - by rewrite bool_decide_eq_true_2.
  - rewrite bool_decide_eq_false_2 by congruence. simpl negb. cbv iota.
    by destruct (addSourceBuffer env "audio/mpeg" _).
Qed.

(** C6, amended.  When the media source opens with a detected type that
    the browser refuses: for every detected type other than [audio/mpeg]
    the creation is retried exactly once, with [audio/mpeg]; for
    [audio/mpeg] itself there is no retry.  Either way the failure is not
    fatal: [sourceOpenPromise] is resolved and the stream is not ended.
    Without a source buffer every later chunk is queued and the loop goes
    on reading. *)
Theorem source_buffer_fallback :
  (forall env s d,
     media_readyState s = ms_closed -> isSourceOpen s = false ->
     sourceBuffer s = None ->
     detectedMimeType s = Some d -> d ≠ "" -> supports env d = false ->
     let s' := step env s ESourceOpen in
     add_calls (trace s')
     = add_calls (trace s)
       ++ (if decide (d = "audio/mpeg") then [(d, false)]
           else [(d, false); ("audio/mpeg", supports env "audio/mpeg")])
     /\ sourceOpenPromise s' = true
     /\ streamEnded s' = streamEnded s
     /\ (d = "audio/mpeg" \/ supports env "audio/mpeg" = false ->
         sourceBuffer s' = None))
  /\ (forall env s value,
       pc s = AwaitRead -> sourceOpenPromise s = true ->
       sourceBuffer s = None ->
       onChunk_returns env (totalBytes s + length value) value = true ->
       let s' := step env s (ERead (Some value)) in
       pendingChunks s' = pendingChunks s ++ [value]
       /\ pc s' = AwaitRead /\ streamEnded s' = streamEnded s
       /\ sourceBuffer s' = None).
Proof.
  split.
  - intros env s d Hm Ho Hb Hd Hne Hs s'. subst s'.
    unfold step. rewrite Hm, Ho.
    rewrite (on_sourceopen_failed env _ d) by done.
    match goal with |- context [resolve_sourceOpen env ?x] =>
      destruct (resolve_sourceOpen_facts env x) as (H1 & H2 & H3 & H4) end.
    rewrite H1, H2, H3. clear H1 H2 H3.
    destruct (decide (d = "audio/mpeg")) as [->|Hd'].
    + fields. rewrite add_calls_app. repeat split; try done.
      intros _. by apply H4.
    + unfold addSourceBuffer in *.
      destruct (supports env "audio/mpeg") eqn:Hf; cbn [fst] in *; fields.
      all: rewrite !add_calls_app, <- app_assoc; repeat split; try done.
      * by intros [?|?].
      * intros _. by apply H4.
  - intros env s value Hpc Hp Hb Hcb s'. subst s'.
    unfold step. rewrite Hpc. unfold on_chunk. fields. rewrite Hcb.
    set (s1 := if hasFirstChunk _ then _ else _).
    assert (H1 : sourceOpenPromise s1 = true /\ sourceBuffer s1 = None
                 /\ pendingChunks s1 = pendingChunks s
                 /\ streamEnded s1 = streamEnded s)
      by (unfold s1; by case_match).
    destruct H1 as (-> & Hb1 & Hq1 & He1). clearbody s1.
    unfold after_sourceOpen. rewrite Hb1, andb_false_r.
    unfold request_read, push. fields. by rewrite Hq1, He1.
Qed.

(** The theorem on an [audio/ogg] response in a browser that only takes
    [audio/mpeg], and in one that takes nothing. *)
Lemma source_buffer_fallback_witness :
  let s := run (start None) [(Scenario.mpeg_only, EFetch Scenario.ogg)] in
  let s' := step Scenario.mpeg_only s ESourceOpen in
  let u := run (start None)
             [(Scenario.unsupporting, EFetch Scenario.ogg);
              (Scenario.unsupporting, ESourceOpen)] in
  let u' := step Scenario.unsupporting u (ERead (Some Scenario.chunk1)) in
  add_calls (trace s') = [("audio/ogg", false); ("audio/mpeg", true)]
  /\ (pendingChunks u' = [Scenario.chunk1] /\ pc u' = AwaitRead
      /\ streamEnded u' = false).
Proof.
  intros s s' u u'. destruct source_buffer_fallback as [Ha Hb]. split.
  - destruct (Ha Scenario.mpeg_only s "audio/ogg") as [H _];
      [reflexivity | reflexivity | reflexivity | reflexivity | discriminate
      | reflexivity |].
    exact H.
  - destruct (Hb Scenario.unsupporting u Scenario.chunk1) as (H1 & H2 & H3 & _);
      [reflexivity..|].
    split; [exact H1 | split; [exact H2 | exact H3]].
Defined.

Lemma step_gate env s e : gate_inv s -> gate_inv (step env s e).
Proof.
  intros [G1 G2]. destruct e; crush_step.
  all: split; fields; try done.
  all: intros; try congruence; try by (apply G1 || apply G2).
  all: try by (repeat match goal with
       | G : ?P -> _, H : ?P |- _ => specialize (G H)
       | G : (?x = ?x) -> _ |- _ => specialize (G eq_refl)
       end; congruence).
  all: try by (apply G2; eexists).
  rewrite H in H0. by destruct H0.
Qed.

Lemma run_gate responseType es : gate_inv (run (start responseType) es).
Proof.
  assert (H : gate_inv (start responseType))
    by (split; [done | by intros [? ?]]).
  revert H. generalize (start responseType).
  induction es as [|[env e] es IH]; intros s H; [done|].
  simpl. by apply IH, step_gate.
Qed.



Lemma reads_app t1 t2 : reads (t1 ++ t2) = reads t1 + reads t2.
Proof. unfold reads. by rewrite omap_app, length_app. Qed.

(** X4.  One call of [flushPendingChunks] takes at most one chunk from
    the head of the queue: it either leaves the queue and the
    submissions as they are, or it shifts the first chunk out and
    submits it, or it shifts it out and loses it because [appendBuffer]
    throws. *)
Theorem flush_at_most_one env s :
  let s' := flushPendingChunks env s in
  (pendingChunks s' = pendingChunks s
   /\ submissions (trace s') = submissions (trace s))
  \/ exists c,
       pendingChunks s = c :: pendingChunks s'
       /\ (submissions (trace s') = submissions (trace s) ++ [c]
           \/ (accepts env c = false
               /\ submissions (trace s') = submissions (trace s))).
Proof.
  cbn zeta. rewrite flushPendingChunks_eq. unfold endOfStream.
  destruct (sourceBuffer s) as [[]|] eqn:E; [by left| |by left].
  destruct (pendingChunks s) as [|c rest] eqn:P; cbn.
  - left. repeat case_match; fields; rewrite ?submissions_app, ?app_nil_r;
      done.
  - right. exists c.
    destruct (accepts env c) eqn:A; fields;
      repeat case_match; fields; rewrite ?submissions_app, ?app_nil_r;
      simpl; rewrite ?app_nil_r; auto.
Qed.

Lemma step_ended env s e :
  (streamEnded s = true <-> pc s = Finished) ->
  (streamEnded (step env s e) = true <-> pc (step env s e) = Finished).
Proof.
  intros [H1 H2]. destruct e; crush_step.
  all: first [ by split | exact (conj H1 H2)
             | by (split; intros Hx; [apply H1 in Hx|]; discriminate)
             | by (match goal with H : pc _ = _ |- _ => rewrite H end;
                   split; intros Hx; [apply H1 in Hx|]; discriminate)
             | by (match goal with H : pc _ = _ |- _ => rewrite H end;
                   split; auto) ].
Qed.

Lemma run_ended responseType es :
  let s := run (start responseType) es in
  streamEnded s = true <-> pc s = Finished.
Proof.
  cbn zeta. unfold run. induction es as [|[env e] es IH] using rev_ind.
  - by split.
  - rewrite foldl_app. simpl. by apply step_ended.
Qed.

Lemma step_finished env s e :
  pc s = Finished ->
  let s' := step env s e in
  pc s' = Finished /\ streamEnded s' = streamEnded s
  /\ reads (trace s') = reads (trace s)
  /\ delivered (trace s') = delivered (trace s)
  /\ progress (trace s') = progress (trace s)
  /\ totalBytes s' = totalBytes s.
Proof.
  intros H. cbn zeta. destruct e; crush_step.
  all: fields; rewrite ?reads_app, ?delivered_app, ?progress_app; simpl;
    rewrite ?app_nil_r, ?Nat.add_0_r; done.
Qed.

(** X6.  Once the stream has ended ([done], or an error in the loop), it
    stays ended whatever happens afterwards: the loop is finished, no
    further [read()] is requested, no chunk is delivered and no progress
    is reported. *)
Theorem stream_end_is_final responseType es es' :
  let s := run (start responseType) es in
  let s' := run s es' in
  streamEnded s = true ->
  pc s' = Finished /\ streamEnded s' = true
  /\ reads (trace s') = reads (trace s)
  /\ delivered (trace s') = delivered (trace s)
  /\ progress (trace s') = progress (trace s)
  /\ totalBytes s' = totalBytes s.
Proof.
  cbn zeta. intros H.
  assert (F : pc (run (start responseType) es) = Finished)
    by (by apply run_ended).
  revert H F. generalize (run (start responseType) es). intros s H F.
  unfold run. induction es' as [|[env e] es' IH] using rev_ind; [done|].
  rewrite foldl_app. simpl.
  destruct IH as (I1 & I2 & I3 & I4 & I5 & I6).
  destruct (step_finished env _ e I1) as (J1 & J2 & J3 & J4 & J5 & J6).
  by rewrite J1, J2, J3, J4, J5, J6.
Qed.

(** The theorem on a stream that broke after one chunk: a late chunk, a
    late timer and a late [updateend] change nothing. *)
Lemma stream_end_is_final_witness :
  let s := run (start (Some "audio/mpeg")) Scenario.broken_after_one in
  let s' := run s [(Scenario.willing, ERead (Some Scenario.chunk2));
                   (Scenario.willing, ESleepDone);
                   (Scenario.willing, EUpdateEnd)] in
  reads (trace s) = 2
  /\ pc s' = Finished /\ reads (trace s') = reads (trace s)
  /\ delivered (trace s') = delivered (trace s).
Proof.
  intros s s'. split; [by vm_compute|].
  destruct (stream_end_is_final (Some "audio/mpeg") Scenario.broken_after_one
              [(Scenario.willing, ERead (Some Scenario.chunk2));
               (Scenario.willing, ESleepDone);
               (Scenario.willing, EUpdateEnd)])
    as (H1 & _ & H2 & H3 & _); [by vm_compute|].
  split; [exact H1|]. split; [exact H2 | exact H3].
Defined.

Lemma step_kept env s e :
  submissions (trace s) ++ pendingChunks s ++ waiting (pc s)
    ⊆+ delivered (trace s) ->
  submissions (trace (step env s e)) ++ pendingChunks (step env s e)
    ++ waiting (pc (step env s e))
    ⊆+ delivered (trace (step env s e)).
Proof.
  intros H. destruct e; crush_step.
  all: fields; rewrite ?delivered_app, ?submissions_app; simpl;
    rewrite ?app_nil_r in *.
  all: try done.
  all: repeat match goal with
         | E : pc _ = _ |- _ => first [rewrite E in H | rewrite E]
         | E : pendingChunks _ = _ |- _ => first [rewrite E in H | rewrite E]
         end; simpl in *; rewrite ?app_nil_r in *.
  all: try done.
  all: first
    [ by (etrans; [|exact H]; solve_submseteq)
    | by (etrans; [|apply submseteq_app; [exact H | reflexivity]];
          solve_submseteq) ].
Qed.

(** X3.  In every run, also when [appendBuffer] or the callback throws:
    the chunks that were submitted, together with those in the queue and
    the one a loop iteration holds, are among the delivered ones, each
    no more often than it was delivered.  A chunk can be lost or
    overtaken, but none is submitted twice and none is made up. *)
Theorem no_chunk_submitted_twice responseType es :
  let s := run (start responseType) es in
  submissions (trace s) ++ pendingChunks s ++ waiting (pc s)
    ⊆+ delivered (trace s).
Proof.
  cbn zeta. unfold run. induction es as [|[env e] es IH] using rev_ind.
  - done.
  - rewrite foldl_app. simpl. by apply step_kept.
Qed.

(** *** [postStream]: what it returns *)

(** X8.  What [postStream] settles with, in closed form.  It returns the
    whole body exactly when the response is ok, every call of the
    callback returns and the body ends with [done]; it never returns a
    part of the body.  A response that is not ok is an HTTP error with
    the status.  When a call of the callback throws, the first such call
    decides: an error named [AbortError] becomes the timeout error, as
    an abort of the request or of the body does, and any other error is
    thrown on, as any other failure of the request or of the body is.
    The chunks read up to then are a prefix of the body. *)
Theorem postStream_outcome env response body ending :
  (postStream env response body ending).2
  = match response with
    | Response true _ _ =>
        match find (fun p => negb (onChunk_returns env p.1 p.2))
                   (reports 0 body) with
        | Some p =>
            inl (if onChunk_aborts env p.1 p.2 then RequestTimeout
                 else Rethrown)
        | None =>
            match ending with
            | BodyDone => inr body
            | BodyAborted => inl RequestTimeout
            | BodyFailed => inl Rethrown
            end
        end
    | Response false status _ => inl (HttpError status)
    | FetchAborted => inl RequestTimeout
    | FetchFailed => inl Rethrown
    end
  /\ delivered (postStream env response body ending).1 `prefix_of` body.
Proof.
  destruct response as [[] status ct| |]; simpl;
    try (split; [done | apply prefix_nil]).
  destruct (postStream_loop_result env body ending [] 0) as [-> H].
  split; [|done]. destruct (find _ _); [done|]. by destruct ending.
Qed.

(** *** The source buffer *)

Lemma buffers_created_app t1 t2 :
  buffers_created (t1 ++ t2) = buffers_created t1 + buffers_created t2.
Proof.
  unfold buffers_created. by rewrite add_calls_app, filter_app, length_app.
Qed.

Lemma step_buffer env s e : buffer_inv s -> buffer_inv (step env s e).
Proof.
  intros [B1 B2 B3 B4 B5 B6]. destruct e; crush_step.
  all: split; fields;
    rewrite ?buffers_created_app, ?add_calls_app, ?delivered_app,
      ?length_app; simpl; rewrite ?app_nil_r, ?Nat.add_0_r.
  all: try done.
  all: try (intros; by destruct (delivered (trace s))).
  all: try (by eexists).
  all: try match goal with
         | H : sourceBuffer _ = _ |- _ => rewrite H in *
         end; simpl in *.
  all: try done; try lia.
  all: try (by eexists).
  all: try (rewrite B3 by done; simpl; lia).
  all: try (unfold buffers_created in *; rewrite B3 by done; done).
  all: try by (intros;
    repeat match goal with H : ?a = ?a -> _ |- _ => specialize (H eq_refl) end;
    simplify_eq/=; auto).
  all: try (intros Hx;
            first [by apply B5 | by apply B6 | by apply B3 | by apply B4
                  | congruence]).
Qed.

Lemma run_buffer responseType es : buffer_inv (run (start responseType) es).
Proof.
  unfold run. induction es as [|[env e] es IH] using rev_ind.
  - split; simpl; try done. lia.
  - rewrite foldl_app. simpl. by apply step_buffer.
Qed.

(** X18.  In every run at most one source buffer is created: the number
    of [addSourceBuffer] calls that returned is one when the session has
    a buffer and zero when it has none, and [addSourceBuffer] is called
    at most twice (the detected type and the fallback). *)
Theorem one_source_buffer responseType es :
  let s := run (start responseType) es in
  buffers_created (trace s) = (if sourceBuffer s is Some _ then 1 else 0)
  /\ buffers_created (trace s) <= 1
  /\ length (add_calls (trace s)) <= 2.
Proof.
  cbn zeta. destruct (run_buffer responseType es) as [B1 B2 _ _ _ _].
  split; [done|]. split; [|done].
  rewrite B1. destruct (sourceBuffer _); lia.
Qed.



(** *** C5: readiness *)

(** C5, as stated, fails: the first chunk has arrived but no source
    buffer could be created.  The readiness check returns early every
    time, so the promise is still pending 5000 ms and 9000 ms after the
    first chunk, whatever the buffered duration, and the 10 s timeout
    does not reject it either, because a chunk has arrived. *)
Lemma readiness_waits_for_source_buffer :
  let s := run (start (Some "audio/mpeg")) Scenario.waiting_for_buffer in
  hasFirstChunk s = true
  /\ startTime s = 0%Z
  /\ sourceBuffer s = None
  /\ result s = Pending
  /\ result (step Scenario.unsupporting s (EBufferCheck 9000 [(0, 2)%float]))
     = Pending
  /\ result (step Scenario.unsupporting s ETimeout) = Pending.
Proof. vm_compute. done. Qed.

Lemma step_seen since env s e : seen since s -> seen since (step env s e).
Proof.
  intros [S1 S2 S3]. destruct e; crush_step.
  all: split; fields; try done.
  all: try (intros; congruence).
  all: intros Hp; specialize (S3 Hp); congruence.
Qed.

Lemma run_seen since s es : seen since s -> seen since (run s es).
Proof.
  revert s. induction es as [|[env e] es IH]; intros s H; [done|].
  simpl. by apply IH, step_seen.
Qed.

Lemma step_missed env s e :
  missed s -> (forall msg, e ≠ EAudioError msg) -> missed (step env s e).
Proof.
  intros [M1 M2 M3 M4] He. destruct e; try (by destruct (He msg)).
  all: crush_step.
  all: split; fields; try done; try congruence.
  by rewrite M1 in *.
Qed.

Lemma step_delays env s e : timer_inv s -> timer_inv (step env s e).
Proof.
  intros [T1 T2 T3]. destruct e; crush_step.
  all: split; fields; try done.
  all: intros; simplify_eq/=; eauto.
Qed.

Lemma run_delays responseType es : timer_inv (run (start responseType) es).
Proof.
  assert (H : timer_inv (start responseType)).
  { split; simpl; intros; by simplify_eq. }
  revert H. generalize (start responseType).
  induction es as [|[env e] es IH]; intros s H; [done|].
  simpl. by apply IH, step_delays.
Qed.

Lemma hasEnoughBuffer_spec (total : float) (elapsed : Z) :
  hasEnoughBuffer total elapsed = true
  <-> (1 <? total)%float = true \/ (1000 < elapsed)%Z.
Proof. unfold hasEnoughBuffer. by rewrite orb_true_iff, Z.ltb_lt. Qed.

Lemma tryStartPlayback_result now buffered s :
  result s = Pending ->
  result (tryStartPlayback now buffered s)
  = match sourceBuffer s with
    | None => Pending
    | Some _ =>
        if hasEnoughBuffer (totalBuffered buffered) (now - startTime s)
        then Fulfilled else Pending
    end.
Proof.
  intros H. unfold tryStartPlayback, resolve.
  destruct (sourceBuffer s); [|done].
  destruct (hasEnoughBuffer _ _); fields; by rewrite H.
Qed.

Lemma tryStartPlayback_pending now buffered s :
  result s = Pending ->
  result (tryStartPlayback now buffered s) = Pending ->
  tryStartPlayback now buffered s = s.
Proof.
  intros H. unfold tryStartPlayback, resolve.
  destruct (sourceBuffer s); [|done].
  destruct (hasEnoughBuffer _ _); [|done].
  fields. by rewrite H.
Qed.

(** The source buffer, once created, stays. *)
Lemma step_sourceBuffer env s e :
  is_Some (sourceBuffer s) -> is_Some (sourceBuffer (step env s e)).
Proof.
  intros [b Hb]. destruct e; crush_step.
Qed.

Lemma run_sourceBuffer s es :
  is_Some (sourceBuffer s) -> is_Some (sourceBuffer (run s es)).
Proof.
  revert s. induction es as [|[env e] es IH]; intros s Hb; [done|].
  simpl. by apply IH, step_sourceBuffer.
Qed.

(** C5, amended.  The promise is never resolved before the first chunk
    has arrived: a fulfilled promise means that a read result is among
    the events of the run.  The timers have the delays 5 ms (first-chunk
    check), 100 ms (readiness check) and 10000 ms (timeout).  A tick of
    the first-chunk check does nothing until the first chunk has
    arrived; the tick that sees it clears that check, takes the clock
    reading as start time and schedules the readiness check every
    100 ms for as long as the promise is pending.  That tick, and every
    tick of the readiness check, resolves the promise, provided the
    source buffer exists, exactly when the buffered duration, added up
    in double precision, exceeds 1 s or more than 1000 ms have passed
    since the start time; otherwise it changes nothing, and while the
    source buffer does not exist it changes nothing either.  So once the
    first chunk has been seen, whatever happens next, a readiness check
    that runs more than 1000 ms after the start time with a source
    buffer leaves the promise settled.  When the 10 s timeout fires it
    clears the first-chunk check; the promise is rejected with the
    stream-timeout error if no chunk has arrived, and stays pending
    otherwise.  If that happens after the first chunk has arrived and
    before a tick of the first-chunk check has seen it, no readiness
    check is ever scheduled, and the promise stays pending under every
    event but an error of the audio element. *)
Theorem readiness_gate :
  (forall responseType es,
     let s := run (start responseType) es in
     (result s = Fulfilled ->
        hasFirstChunk s = true /\ arrivals (start responseType) es ≠ [])
     /\ (forall d, checkFirstChunk s = Some d -> d = 5%Z)
     /\ (forall d, bufferCheckInterval s = Some d -> d = 100%Z)
     /\ (forall d, timeoutCheck s = Some d -> d = 10000%Z))
  /\ (forall responseType,
        checkFirstChunk (start responseType) = Some 5%Z
        /\ timeoutCheck (start responseType) = Some 10000%Z
        /\ bufferCheckInterval (start responseType) = None
        /\ hasFirstChunk (start responseType) = false
        /\ result (start responseType) = Pending)
  /\ (forall env s now now' buffered,
       is_Some (checkFirstChunk s) -> result s = Pending ->
       let s' := step env s (ECheckFirstChunk now now' buffered) in
       (hasFirstChunk s = false -> s' = s)
       /\ (hasFirstChunk s = true ->
           seen now s'
           /\ (is_Some (sourceBuffer s) ->
               (result s' = Fulfilled
                <-> (1 <? totalBuffered buffered)%float = true
                    \/ (1000 < now' - now)%Z)
               /\ (result s' = Fulfilled \/ result s' = Pending))
           /\ (sourceBuffer s = None -> result s' = Pending)))
  /\ (forall env s now buffered,
       is_Some (bufferCheckInterval s) -> result s = Pending ->
       let s' := step env s (EBufferCheck now buffered) in
       (is_Some (sourceBuffer s) ->
          (result s' = Fulfilled
           <-> (1 <? totalBuffered buffered)%float = true
               \/ (1000 < now - startTime s)%Z)
          /\ (result s' = Fulfilled \/ result s' = Pending))
       /\ (sourceBuffer s = None -> s' = s)
       /\ (result s' = Pending -> s' = s))
  /\ (forall since s es env now buffered,
       seen since s ->
       let s1 := run s es in
       seen since s1
       /\ (is_Some (sourceBuffer s) -> is_Some (sourceBuffer s1))
       /\ (is_Some (sourceBuffer s1) -> (1000 < now - since)%Z ->
           result (step env s1 (EBufferCheck now buffered)) ≠ Pending))
  /\ (forall env s,
       is_Some (timeoutCheck s) -> result s = Pending ->
       let s' := step env s ETimeout in
       timeoutCheck s' = None /\ checkFirstChunk s' = None
       /\ (hasFirstChunk s = false -> result s' = RejectedWith "数据流超时")
       /\ (hasFirstChunk s = true -> result s' = Pending))
  /\ (forall env s e,
       missed s -> (forall msg, e ≠ EAudioError msg) ->
       missed (step env s e)).
Proof.
  split; [|split; [|split; [|split; [|split; [|split]]]]].
  - intros rt es s. destruct (run_delays rt es) as [T1 T2 T3].
    repeat split; try done.
    + by apply run_gate.
    + intros Ha. destruct (run_buffer rt es) as [_ _ _ _ _ B].
      apply B; [by apply run_gate|].
      by rewrite run_delivered, Ha.
  - done.
  - intros env s now now' buffered [d Hc] Hr s'. subst s'. simpl. rewrite Hc.
    unfold on_checkFirstChunk. split; [by intros ->|].
    intros ->. split; [|split].
    + split.
      * unfold tryStartPlayback, resolve. fields.
        by repeat (case_match; fields).
      * unfold tryStartPlayback, resolve. fields.
        by repeat (case_match; fields).
      * unfold tryStartPlayback, resolve. fields.
        repeat (case_match; fields); try done; congruence.
    + intros [b Hb]. rewrite tryStartPlayback_result by done. fields.
      rewrite Hb, <- hasEnoughBuffer_spec.
      destruct (hasEnoughBuffer _ _); split; try done; auto.
    + intros Hb. rewrite tryStartPlayback_result by done. fields.
      by rewrite Hb.
  - intros env s now buffered [d Hc] Hr s'. subst s'. simpl. rewrite Hc.
    rewrite tryStartPlayback_result by done. split; [|split].
    + intros [b Hb]. rewrite Hb, <- hasEnoughBuffer_spec.
      destruct (hasEnoughBuffer _ _); split; try done; auto.
    + intros Hb. unfold tryStartPlayback. by rewrite Hb.
    + intros H. apply tryStartPlayback_pending; [done|].
      by rewrite tryStartPlayback_result.
  - intros since s es env now buffered Hs s1.
    assert (Hs1 : seen since s1) by (by apply run_seen).
    split; [done|]. split.
    + apply run_sourceBuffer.
    + intros [b Hb] Hlate Hp.
      assert (Hr : result s1 = Pending).
      { revert Hp. simpl. destruct (bufferCheckInterval s1); [|done].
        unfold tryStartPlayback, resolve.
        repeat (case_match; fields); try done; congruence. }
      destruct Hs1 as [S1 S2 S3]. revert Hp. simpl. rewrite (S3 Hr).
      rewrite tryStartPlayback_result by done. rewrite Hb, S2.
      assert (H : hasEnoughBuffer (totalBuffered buffered) (now - since) = true)
        by (apply hasEnoughBuffer_spec; by right).
      by rewrite H.
  - intros env s [d Ht] Hr. simpl. rewrite Ht. unfold on_timeout, reject.
    fields. rewrite Hr.
    destruct (hasFirstChunk s); simpl; fields; repeat split; done.
  - intros env s e. apply step_missed.
Qed.

(** The theorem on a session that becomes ready by elapsed time, on one
    that is ready by buffered duration, on one whose buffered ranges add
    up to exactly one second, on one without source buffer, on one that
    times out, and on one whose first chunk arrives just before the
    timeout. *)
Lemma readiness_gate_witness :
  let es := [(Scenario.willing, ESourceOpen);
             (Scenario.willing, EFetch Scenario.mpeg);
             (Scenario.willing, ERead (Some Scenario.chunk1))] in
  let s0 := run (start None) es in
  let s1 := step Scenario.willing s0 (ECheckFirstChunk 0 0 []) in
  let u := run (start None) Scenario.waiting_for_buffer in
  let m := run (start None) Scenario.late_first_chunk in
  arrivals (start None)
    (es ++ [(Scenario.willing, ECheckFirstChunk 0 0 []);
            (Scenario.willing, EBufferCheck 1100 [])]) ≠ []
  /\ step Scenario.willing (start None) (ECheckFirstChunk 0 0 []) = start None
  /\ seen 0 s1
  /\ result (step Scenario.willing s0 (ECheckFirstChunk 0 5 [(0, 1.5)%float]))
     = Fulfilled
  /\ result (step Scenario.willing s1 (EBufferCheck 500 Scenario.gappy))
     ≠ Fulfilled
  /\ result (step Scenario.willing s1 (EBufferCheck 1100 [])) = Fulfilled
  /\ result (step Scenario.willing
               (run s1 [(Scenario.willing, ERead (Some Scenario.chunk2));
                        (Scenario.willing, EBufferCheck 900 [])])
               (EBufferCheck 1001 [])) ≠ Pending
  /\ step Scenario.unsupporting u (EBufferCheck 9000 []) = u
  /\ result (step Scenario.willing (start None) ETimeout)
     = RejectedWith "数据流超时"
  /\ missed (step Scenario.willing m (EBufferCheck 20000 [(0, 5)%float])).
Proof.
  intros es s0 s1 u m.
  destruct readiness_gate as (Ha & _ & Hb & Hc & Hd & He & Hf).
  split.
  { destruct (Ha None (es ++ [(Scenario.willing, ECheckFirstChunk 0 0 []);
                              (Scenario.willing, EBufferCheck 1100 [])]))
      as [H _].
    apply H. by vm_compute. }
  split.
  { apply (Hb Scenario.willing (start None) 0%Z 0%Z []);
      [by eexists | reflexivity | reflexivity]. }
  split.
  { destruct (Hb Scenario.willing s0 0%Z 0%Z []) as (_ & H);
      [by eexists | reflexivity |].
    by apply H. }
  split.
  { destruct (Hb Scenario.willing s0 0%Z 5%Z [(0, 1.5)%float]) as (_ & H);
      [by eexists | reflexivity |].
    destruct H as (_ & H & _); [reflexivity|].
    destruct H as [H _]; [by eexists|].
    apply H. left. by vm_compute. }
  split.
  { destruct (Hc Scenario.willing s1 500%Z Scenario.gappy) as [H _];
      [by eexists | reflexivity |].
    destruct H as [H _]; [by eexists|].
    intros Hx. apply H in Hx as [Hx|Hx]; vm_compute in Hx; done. }
  split.
  { destruct (Hc Scenario.willing s1 1100%Z []) as [H _];
      [by eexists | reflexivity |].
    destruct H as [H _]; [by eexists|].
    apply H. right. by vm_compute. }
  split.
  { destruct (Hd 0%Z s1 [(Scenario.willing, ERead (Some Scenario.chunk2));
                         (Scenario.willing, EBufferCheck 900 [])]
                 Scenario.willing 1001%Z []) as (_ & _ & H).
    - split; [reflexivity | reflexivity | by intros _].
    - apply H; [by eexists | lia]. }
  split.
  { destruct (Hc Scenario.unsupporting u 9000%Z []) as (_ & H & _);
      [by eexists | reflexivity |].
    by apply H. }
  split.
  { destruct (He Scenario.willing (start None)) as (_ & _ & H & _);
      [by eexists | reflexivity |].
    by apply H. }
  apply Hf; [|done].
  split; reflexivity.
Defined.

(** *** The [Content-Type] header *)

Lemma string_app_cons a (s1 s2 : string) :
  String a s1 +:+ s2 = String a (s1 +:+ s2).
Proof. reflexivity. Qed.

Lemma string_app_nil_l (s : string) : "" +:+ s = s.
Proof. reflexivity. Qed.

Lemma string_app_nil_r (s : string) : s +:+ "" = s.
Proof.
  induction s as [|a s IH]; [done|]. by rewrite string_app_cons, IH.
Qed.

Lemma string_app_assoc (s1 s2 s3 : string) :
  (s1 +:+ s2) +:+ s3 = s1 +:+ s2 +:+ s3.
Proof.
  induction s1 as [|a s1 IH]; [done|]. by rewrite !string_app_cons, IH.
Qed.

Lemma string_rev_app (s1 s2 : string) :
  String.rev_app s1 s2 = String.rev s1 +:+ s2.
Proof.
  unfold String.rev. revert s2.
  induction s1 as [|a s1 IH]; intros s2; simpl; [done|].
  by rewrite IH, (IH (String a "")), string_app_assoc.
Qed.

Lemma string_rev_cons a (s : string) :
  String.rev (String a s) = String.rev s +:+ String a "".
Proof. unfold String.rev at 1. simpl. apply string_rev_app. Qed.

Lemma string_rev_append (s1 s2 : string) :
  String.rev (s1 +:+ s2) = String.rev s2 +:+ String.rev s1.
Proof.
  induction s1 as [|a s1 IH].
  - by rewrite string_app_nil_l, string_app_nil_r.
  - by rewrite string_app_cons, !string_rev_cons, IH, string_app_assoc.
Qed.

Lemma string_rev_involutive (s : string) : String.rev (String.rev s) = s.
Proof.
  induction s as [|a s IH]; [done|].
  by rewrite string_rev_cons, string_rev_append, IH.
Qed.

Lemma trimStart_length (s : string) :
  String.length (trimStart s) <= String.length s.
Proof.
  induction s as [|b s IH]; simpl; [done|].
  destruct (is_white b); simpl; lia.
Qed.

(** [trimStart] takes a prefix of white space away, and all of it. *)
Lemma trimStart_spec (s : string) :
  exists l, s = l +:+ trimStart s /\ trimStart l = ""
            /\ trimStart (trimStart s) = trimStart s.
Proof.
  induction s as [|a s (l & IH1 & IH2 & IH3)]; [by exists ""|].
  simpl. destruct (is_white a) eqn:E.
  - exists (String a l). rewrite string_app_cons, <- IH1. simpl. by rewrite E.
  - exists "". simpl. by rewrite E.
Qed.

Lemma white_rev (l : string) :
  trimStart l = "" -> trimStart (String.rev l) = "".
Proof.
  induction l as [|a l IH]; [done|]. simpl.
  destruct (is_white a) eqn:E; [|done]. intros H.
  rewrite string_rev_cons. specialize (IH H).
  revert IH. generalize (String.rev l). intros r.
  induction r as [|b r IHr]; rewrite ?string_app_cons; simpl; [by rewrite E|].
  destruct (is_white b); [done | discriminate].
Qed.

(** A string that does not begin with white space keeps its beginning
    whatever follows. *)
Lemma trimStart_fixed (m r : string) :
  trimStart (m +:+ r) = m +:+ r -> trimStart m = m.
Proof.
  destruct m as [|a m]; [done|]. rewrite string_app_cons. simpl.
  destruct (is_white a) eqn:E; [|done]. intros H.
  pose proof (trimStart_length (m +:+ r)) as L. rewrite H in L.
  simpl in L. lia.
Qed.

Lemma split_semicolon_0_idem (s : string) :
  split_semicolon_0 (split_semicolon_0 s) = split_semicolon_0 s.
Proof.
  induction s as [|a s IH]; [done|]. simpl.
  destruct (Ascii.eqb a _) eqn:E; [done|]. simpl. by rewrite E, IH.
Qed.

Lemma split_semicolon_0_part (l m : string) :
  split_semicolon_0 (l +:+ m) = l +:+ m ->
  split_semicolon_0 l = l /\ split_semicolon_0 m = m.
Proof.
  induction l as [|a l IH]; [done|]. rewrite string_app_cons. simpl.
  destruct (Ascii.eqb a _); [done|]. intros [= H].
  destruct (IH H) as [-> ?]. done.
Qed.

Lemma trim_spec (s : string) :
  exists l r,
    s = l +:+ trim s +:+ r
    /\ trimStart l = "" /\ trimStart r = ""
    /\ trimStart (trim s) = trim s
    /\ trimStart (String.rev (trim s)) = String.rev (trim s).
Proof.
  unfold trim.
  destruct (trimStart_spec s) as (l & Hs & Hl & Hy).
  set (y := trimStart s) in *.
  destruct (trimStart_spec (String.rev y)) as (r' & Hr & Hr' & Hz).
  set (z := trimStart (String.rev y)) in *.
  exists l, (String.rev r'). rewrite string_rev_involutive.
  assert (Ey : y = String.rev z +:+ String.rev r').
  { rewrite <- string_rev_append, <- Hr. by rewrite string_rev_involutive. }
  split; [by rewrite <- Ey|]. split; [done|].
  split; [by apply white_rev|]. split; [|done].
  apply (trimStart_fixed _ (String.rev r')). by rewrite <- Ey.
Qed.

(** X20.  The media type taken from the [Content-Type] header of an ok
    response: it is the part of the header before the first semicolon
    with the white space around it taken away.  So it holds no
    semicolon, it neither begins nor ends with white space, and
    detecting it again in itself gives the same type. *)
Theorem detected_type_is_bare status (c : string) s :
  c ≠ "" ->
  let s' := on_response (Response true status (Some c)) s in
  exists m l r,
    detectedMimeType s' = Some m
    /\ split_semicolon_0 c = l +:+ m +:+ r
    /\ trimStart l = "" /\ trimStart r = ""
    /\ trimStart m = m /\ trimStart (String.rev m) = String.rev m
    /\ split_semicolon_0 m = m
    /\ trim (split_semicolon_0 m) = m.
Proof.
  intros Hc. cbn zeta. unfold on_response, truthy.
  destruct (String.eqb_spec c "") as [->|_]; [done|]. simpl.
  unfold request_read. fields.
  destruct (trim_spec (split_semicolon_0 c)) as (l & r & H1 & H2 & H3 & H4 & H5).
  set (m := trim (split_semicolon_0 c)) in *.
  exists m, l, r. repeat split; try done.
  - pose proof (split_semicolon_0_idem c) as I. rewrite H1 in I.
    apply split_semicolon_0_part in I as [_ I].
    by apply split_semicolon_0_part in I as [I _].
  - assert (E : split_semicolon_0 m = m).
    { pose proof (split_semicolon_0_idem c) as I. rewrite H1 in I.
      apply split_semicolon_0_part in I as [_ I].
      by apply split_semicolon_0_part in I as [I _]. }
    rewrite E. unfold trim. rewrite H4, H5, string_rev_involutive. done.
Qed.

(** The theorem on a header with a parameter and white space around the
    type. *)
Lemma detected_type_is_bare_witness :
  exists m l r,
    detectedMimeType
      (on_response (Response true 200 (Some " audio/ogg ; codecs=opus"))
                   (start None)) = Some m
    /\ split_semicolon_0 " audio/ogg ; codecs=opus" = l +:+ m +:+ r
    /\ trimStart l = "" /\ trimStart r = ""
    /\ trimStart m = m /\ trimStart (String.rev m) = String.rev m
    /\ split_semicolon_0 m = m
    /\ trim (split_semicolon_0 m) = m.
Proof.
  apply (detected_type_is_bare 200 " audio/ogg ; codecs=opus" (start None)).
  discriminate.
Defined.

End StreamFacts.

(** ** Incoming frames *)

Section InboundFacts.
Import Inbound.
Implicit Types (m : gmap string (list nat)).

Lemma calls_of_emit tag event data m :
  calls_of tag (emit event data m)
  = if decide (event = tag) then emit event data m else [].
Proof.
  unfold calls_of, emit.
  induction (Dispatcher.subscribers event m) as [|c l IH]; simpl.
  - by destruct (decide _).
  - rewrite filter_cons, IH. simpl. by destruct (decide (event = tag)).
Qed.

Lemma calls_of_app tag (a b : list (nat * string * Payload)) :
  calls_of tag (a ++ b) = calls_of tag a ++ calls_of tag b.
Proof. apply filter_app. Qed.

(** X13.  What the subscribers of a tag see of one incoming frame.  A
    frame that parses is handed to the subscribers of its own [type]
    (with [message.data]) and then to the subscribers of ["message"]
    (with the whole message): so a frame of type ["message"] reaches the
    ["message"] subscribers twice, and a frame whose type is the name of
    a lifecycle event ("open", "close", "error", "reconnectFailed")
    reaches the subscribers of that event.  A frame that does not parse
    reaches the ["error"] subscribers only. *)
Theorem handleMessage_by_tag frame tag m :
  calls_of tag (handleMessage frame m)
  = match frame with
    | Message type =>
        (if decide (type = Some tag /\ tag ≠ "")
         then emit tag FieldData m else [])
        ++ (if decide (tag = "message") then emit "message" Whole m else [])
    | _ => if decide (tag = "error") then emit "error" ParseFailure m else []
    end.
Proof.
  destruct frame as [| |type]; cbn [handleMessage].
  - rewrite calls_of_emit. by repeat destruct (decide _).
  - rewrite calls_of_emit. by repeat destruct (decide _).
  - rewrite calls_of_app. f_equal.
    + destruct type as [t|]; unfold Http.truthy.
      * destruct (String.eqb_spec t "") as [->|Ht];
          cbn [negb default from_option id].
        -- destruct (decide _) as [[[= <-] ?]|]; done.
        -- rewrite calls_of_emit.
           destruct (decide (t = tag)) as [->|Hne].
           ++ by rewrite (decide_True (P := _ /\ _)).
           ++ rewrite (decide_False (P := _ /\ _)); [done|].
              by intros [[= ?] _].
      * rewrite (decide_False (P := _ /\ _)); [done|]. by intros [? _].
    + rewrite calls_of_emit. by repeat destruct (decide _).
Qed.

End InboundFacts.

(** ** Requests *)

Section ApiFacts.
Import Api.

Lemma handleJsonResponse_accepts response data :
  handleJsonResponse response = inr data
  <-> ok response = true /\ json response = JsonValue data
      /\ code data = Some 200%Z.
Proof.
  unfold handleJsonResponse.
  destruct (ok response); simpl; [|naive_solver].
  destruct (json response) as [| |d]; try naive_solver.
  case_bool_decide; naive_solver.
Qed.

Lemma postJson_accepts serializes f data :
  postJson serializes f = inr data <-> serializes = true /\ accepted f data.
Proof.
  unfold postJson, accepted.
  destruct serializes; [|naive_solver].
  destruct f as [r| |]; simpl; [|naive_solver..].
  rewrite handleJsonResponse_accepts. naive_solver.
Qed.

Lemma postFormData_accepts f data :
  postFormData f = inr data <-> accepted f data.
Proof.
  unfold postFormData, accepted.
  destruct f as [r| |]; simpl; [|naive_solver..].
  rewrite handleJsonResponse_accepts. naive_solver.
Qed.

Lemma postBlob_accepts serializes f b :
  postBlob serializes f = inr b
  <-> serializes = true
      /\ exists r, f = Settles r /\ ok r = true /\ blob r = Some b.
Proof.
  unfold postBlob, handleBlobResponse.
  destruct serializes; [|naive_solver].
  destruct f as [r| |]; simpl.
  - destruct (ok r) eqn:Hok; simpl.
    + destruct (blob r) eqn:Hb.
      * split; [intros [= <-]; eauto|].
        intros [_ (r0 & [= <-] & _ & Hb')]. congruence.
      * split; [done|]. intros [_ (r0 & [= <-] & _ & Hb')]. congruence.
    + split; [done|]. intros [_ (r0 & [= <-] & Hok' & _)]. congruence.
  - split; [done|]. by intros [_ (r & ? & _)].
  - split; [done|]. by intros [_ (r & ? & _)].
Qed.

(** X14.  The errors of [postJson] and [postFormData], by their cause.
    The generic error stands for a request that got no response (it
    could not be built, it timed out, the network failed); the timeout
    error of [fetchWithTimeout] never reaches the caller.  Once a
    response is there, its errors are not replaced: a status that is not
    ok, a [code] other than 200 with the server's own message or with
    the default one, or a body that cannot be read. *)
Theorem post_failures serializes f e :
  postJson serializes f = inl e
  \/ (serializes = true /\ postFormData f = inl e) ->
  match e with
  | Busy => serializes = false \/ f = Aborted \/ f = Failed
  | TimedOut => False
  | HttpStatus st =>
      exists r, f = Settles r /\ ok r = false /\ status r = st
  | Refused msg =>
      exists r d, f = Settles r /\ ok r = true /\ json r = JsonValue d
                  /\ code d ≠ Some 200%Z /\ message d = Some msg /\ msg ≠ ""
  | RequestFailed =>
      exists r d, f = Settles r /\ ok r = true /\ json r = JsonValue d
                  /\ code d ≠ Some 200%Z
                  /\ (message d = None \/ message d = Some "")
  | Raised =>
      exists r, f = Settles r /\ ok r = true
                /\ (json r = NotJson \/ json r = JsonNull)
  end.
Proof.
  assert (H : forall r, handleJsonResponse r = inl e ->
    match e with
    | Busy | TimedOut => False
    | HttpStatus st => ok r = false /\ status r = st
    | Refused msg =>
        exists d, ok r = true /\ json r = JsonValue d
                  /\ code d ≠ Some 200%Z /\ message d = Some msg /\ msg ≠ ""
    | RequestFailed =>
        exists d, ok r = true /\ json r = JsonValue d
                  /\ code d ≠ Some 200%Z
                  /\ (message d = None \/ message d = Some "")
    | Raised => ok r = true /\ (json r = NotJson \/ json r = JsonNull)
    end).
  { intros r. unfold handleJsonResponse.
    destruct (ok r); simpl; [|by intros [= <-]].
    destruct (json r) as [| |d]; try (intros [= <-]; by auto).
    case_bool_decide as Hc; [done|].
    destruct (message d) as [msg|] eqn:Hm; simpl.
    - destruct (String.eqb_spec msg "") as [->|Hne]; simpl; intros [= <-];
        exists d; auto 10.
    - intros [= <-]. exists d. auto 10. }
  unfold postJson, postFormData.
  intros [Hp|[-> Hp]]; [destruct serializes|];
    destruct f as [r| |]; simpl in Hp; try (injection Hp as <-; by auto).
  all: specialize (H r Hp); destruct e; naive_solver.
Qed.

(** The theorem on a refusal of the server and on an error status: both
    reach the caller of [postJson] as they are. *)
Lemma post_failures_witness :
  (exists r d, Settles Scenario.refused = Settles r /\ ok r = true
               /\ json r = JsonValue d /\ code d ≠ Some 200%Z
               /\ message d = Some "quota" /\ "quota" ≠ "")
  /\ (exists r, Settles Scenario.unavailable = Settles r /\ ok r = false
                /\ status r = 503).
Proof.
  split.
  - apply (post_failures true (Settles Scenario.refused) (Refused "quota")).
    left. reflexivity.
  - apply (post_failures true (Settles Scenario.unavailable) (HttpStatus 503)).
    left. reflexivity.
Defined.

(** X15.  [getAnswer], [submitFeedback], [uploadAudio], [textToSpeech]
    and [textToSpeechAndPlay] await the request inside their own [try]:
    they return the data of a response that is ok and carries code 200
    (the blob of a response that is ok), and every failure whatsoever,
    also those that [postJson] lets through with a message of their own,
    reaches the caller as the generic error. *)
Theorem requests_answer_or_busy serializes appends f :
  (forall data,
     (getAnswer serializes f = inr data <-> serializes = true /\ accepted f data)
     /\ (submitFeedback serializes f = inr data
         <-> serializes = true /\ accepted f data)
     /\ (uploadAudio appends f = inr data
         <-> appends = true /\ accepted f data))
  /\ (forall b,
        Tts.textToSpeech serializes f = inr b
        <-> serializes = true
            /\ exists r, f = Settles r /\ ok r = true /\ blob r = Some b)
  /\ (forall e,
        getAnswer serializes f = inl e \/ submitFeedback serializes f = inl e
        \/ uploadAudio appends f = inl e
        \/ Tts.textToSpeech serializes f = inl e
        \/ (exists plays, Tts.textToSpeechAndPlay serializes f plays = inl e) ->
        e = Busy).
Proof.
  split; [|split].
  - intros data. unfold getAnswer, submitFeedback, uploadAudio.
    split; [|split].
    + rewrite <- postJson_accepts.
      destruct (postJson serializes f); naive_solver.
    + rewrite <- postJson_accepts.
      destruct (postJson serializes f); naive_solver.
    + destruct appends.
      * pose proof (postFormData_accepts f data) as H.
        destruct (postFormData f); naive_solver.
      * naive_solver.
  - intros b. rewrite <- postBlob_accepts. unfold Tts.textToSpeech.
    destruct (postBlob serializes f); naive_solver.
  - intros e.
    unfold getAnswer, submitFeedback, uploadAudio, Tts.textToSpeechAndPlay,
      Tts.textToSpeech.
    intros [H|[H|[H|[H|[[] H]]]]]; revert H;
      destruct (postJson serializes f), (postBlob serializes f), appends;
      try destruct (postFormData f); congruence.
Qed.

(** The theorem on an answer and on a refusal: the answer is returned,
    the refusal that [postJson] reports with the server's message
    becomes the generic error. *)
Lemma requests_answer_or_busy_witness :
  getAnswer true (Settles Scenario.answered) = inr Scenario.answer
  /\ postJson true (Settles Scenario.refused) = inl (Refused "quota")
  /\ getAnswer true (Settles Scenario.refused) = inl Busy.
Proof.
  split; [|split].
  - destruct (requests_answer_or_busy true true (Settles Scenario.answered))
      as (H & _).
    apply (H Scenario.answer). split; [reflexivity|].
    exists Scenario.answered. repeat split; reflexivity.
  - reflexivity.
  - destruct (requests_answer_or_busy true true (Settles Scenario.refused))
      as (_ & _ & H).
    destruct (getAnswer true (Settles Scenario.refused)) as [e|d] eqn:E.
    + f_equal. apply (H e). by left.
    + discriminate E.
Defined.

End ApiFacts.

(** ** Text to speech *)

Section TtsFacts.
Import Tts.




Lemma progress_calls_spec t c :
  c ∈ progress_calls t -> exists received, c = OnProgress received.
Proof.
  unfold progress_calls. intros (p & -> & _)%list_elem_of_fmap. eauto.
Qed.

Lemma playback_settles o audio st :
  let r := playback o audio st in
  match r.2 with
  | Value =>
      st = Value \/ (st = Hang /\ OnComplete ∈ r.1 /\ onComplete o = true)
  | Throw e =>
      st = Throw e
      \/ (st = Hang /\ e = Generic /\ OnError ∈ r.1 /\ onError o = true)
  | Hang => st = Hang
  end.
Proof.
  revert st. induction audio as [|e rest IH]; intros st.
  - simpl. destruct st; auto.
  - cbn zeta. cbn [playback].
    set (st' := match st with Hang => _ | _ => st end).
    specialize (IH st'). cbn zeta in IH. cbn [fst snd].
    destruct ((playback o rest st').2) as [|err|];
      destruct st, e, (onComplete o) eqn:?, (onError o) eqn:?;
      subst st'; rewrite ?elem_of_cons; naive_solver.
Qed.

Lemma playback_outcome o audio :
  let r := playback o audio Hang in
  (r.2 = Value -> OnComplete ∈ r.1 /\ onComplete o = true)
  /\ (r.2 = Throw Generic -> OnError ∈ r.1 /\ onError o = true)
  /\ (forall e, r.2 = Throw e -> e = Generic).
Proof.
  cbn zeta. pose proof (playback_settles o audio Hang) as H. cbn zeta in H.
  destruct ((playback o audio Hang).2); naive_solver.
Qed.

(** X17.  [textToSpeechStreaming].  When [postStream] fails (whatever
    the reason) the promise is rejected with a [ReferenceError] and the
    caller's [onError] is not called: the [catch] cannot see it.
    [onComplete] and [onBlob] are not called either.  The generic error
    comes only from the audio element, after the whole blob was
    received and [onBlob] and [onError] were called; the promise is
    fulfilled only after [onBlob] and [onComplete] were called.  No
    other rejection occurs. *)
Theorem textToSpeechStreaming_outcome o response body ending audio :
  let r := textToSpeechStreaming o response body ending audio in
  let p := Http.postStream (stream_env o) response body ending in
  (forall err, p.2 = inl err ->
     r.2 = Throw NotDefined
     /\ (OnError ∉ r.1) /\ (OnComplete ∉ r.1) /\ (OnBlob ∉ r.1))
  /\ (r.2 = Throw Generic ->
      (exists blob, p.2 = inr blob) /\ OnError ∈ r.1 /\ OnBlob ∈ r.1)
  /\ (r.2 = Value ->
      (exists blob, p.2 = inr blob) /\ OnComplete ∈ r.1 /\ OnBlob ∈ r.1)
  /\ (forall e, r.2 = Throw e -> e = NotDefined \/ e = Generic).
Proof.
  cbn zeta. unfold textToSpeechStreaming.
  destruct (Http.postStream (stream_env o) response body ending) as [t res].
  pose proof (playback_outcome o audio) as (P1 & P2 & P3).
  pose proof (progress_calls_spec t) as Pc.
  assert (N : forall c, (forall n, c ≠ OnProgress n) -> c ≠ OnStart ->
            c ∉ OnStart :: progress_calls t).
  { intros c Hc Hs [->|H]%elem_of_cons; [done|].
    apply Pc in H as [n ->]. by apply (Hc n). }
  destruct (playback o audio Hang) as [calls out] eqn:Ep. simpl in *.
  unfold seq, try_catch, call, throw. simpl.
  destruct (onStart o), res as [err|blob], (onBlob o); simpl;
    rewrite ?app_nil_r.
  all: repeat split; try done; try (by apply N);
    try (by rewrite list_elem_of_singleton);
    try (intros ?; simplify_eq/=).
  all: try (intros; simplify_eq/=; by auto).
  all: try (by (apply not_elem_of_cons; split; [done | apply not_elem_of_nil])).
  all: try (by eauto).
  all: rewrite ?elem_of_cons, ?elem_of_app, ?elem_of_cons;
    try (intros ?; simplify_eq/=); intuition eauto.
Qed.

(** The theorem on a request that fails, and on an audio element that
    reports an error after the blob has arrived. *)
Lemma textToSpeechStreaming_outcome_witness :
  let failed := textToSpeechStreaming Scenario.attentive Http.FetchFailed
                  [] Http.BodyDone [] in
  let broken := textToSpeechStreaming Scenario.attentive Scenario.mpeg
                  [Scenario.chunk1] Http.BodyDone [Errored] in
  (failed.2 = Throw NotDefined /\ OnError ∉ failed.1)
  /\ (broken.2 = Throw Generic /\ OnError ∈ broken.1).
Proof.
  intros failed broken. split.
  - destruct (textToSpeechStreaming_outcome Scenario.attentive
                Http.FetchFailed [] Http.BodyDone []) as (H & _).
    destruct (H Http.Rethrown) as (H1 & H2 & _); [reflexivity|].
    split; [exact H1 | exact H2].
  - destruct (textToSpeechStreaming_outcome Scenario.attentive
                Scenario.mpeg [Scenario.chunk1] Http.BodyDone [Errored])
      as (_ & H & _).
    destruct H as (_ & H1 & _); [reflexivity|].
    split; [reflexivity | exact H1].
Defined.

End TtsFacts.
